(** * Air Piano: the gesture-to-sound state machine of [air_piano.py]

    A shallow embedding of [EnhancedAirPiano] and [MusicTheoryHelper] and
    the properties of the specification that are about them.

    Conventions of the embedding.
    - Python [int] is [Z]; [//] and [%] by a positive constant are [Z.div]
      and [Z.modulo] (both round towards minus infinity, as Python does).
    - Python [float].  Where a property ranges over all inputs (the
      velocity curve, the pitch bend, the clock, the volume) a float is
      idealised as an exact rational [Q]; [math.sqrt] and the power
      operator are not rational functions and are taken from a [PyMath]
      instance, every theorem holding for all instances.  Module
      [Binary64] computes the same expressions in IEEE binary64, to the
      bit: the echo velocities and the sizes of the keys on the frame use
      it, and the pitch bend of the rational model is compared with it on
      the camera resolutions.
    - Python [set] is [gset], [dict] is [gmap], except [self.scales] whose
      key order is observable ([cycle_scale]) and is an association list.
      A loop over a set visits it in the order of [elements]; nothing below
      depends on that order.
    - An exception is an outcome [Raise e]; the instance state survives it,
      as the attributes mutated before a [raise] stay mutated.
    - The MIDI device [self.player] is the log of the messages written to it,
      a frame the log of what is drawn on it.
    - Timer and thread bodies run atomically, one at a time, when the
      scheduler picks them from the pool of started threads.
    - The list [self.recorded_notes] is shared with the loop of the playback
      thread, which walks the list object itself: what is appended to it
      while the loop runs is replayed, and when [toggle_recording] binds the
      attribute to a new list the loop keeps the old one.
    - The attributes that only the drawing reads and writes ([screen_height],
      [ui_height], [key_width], [key_height]) are a record [Display] of
      their own, passed to and returned by the drawing. *)

From Stdlib Require Import ZArith QArith Qround Qminmax Ascii String.
From Stdlib Require Import Floats Uint63.
From Stdlib Require Import Lqa.
From stdpp Require Import base gmap sets list strings pretty sorting.

Open Scope Z_scope.

Set Warnings "-inexact-float,-clear-no-such-hyp".

(** ** Exceptions and outcomes *)

Inductive exn : Set :=
| IndexError | KeyError | ValueError | TypeError | ZeroDivisionError.

Inductive result (A : Type) : Type :=
| Ok (a : A)
| Raise (e : exn).
Arguments Ok {A} a.
Arguments Raise {A} e.

#[global] Instance exn_eq_dec : EqDecision exn.
Proof. solve_decision. Defined.

#[global] Instance result_eq_dec `{EqDecision A} : EqDecision (result A).
Proof. solve_decision. Defined.

#[global] Instance result_ret : MRet result := λ A a, Ok a.
#[global] Instance result_bind : MBind result := λ A B f m,
  match m with
  | Ok a => f a
  | Raise e => Raise e
  end.

(** [x <- m; k] binds like stdpp's arrow, with the computation elaborated
    before its continuation. *)
Definition bind_to {T : Type → Type} `{MBind T} {A B} (m : T A) (f : A → T B)
  : T B := m ≫= f.
Arguments bind_to {T _ A B} m f /.

Notation "x <- m ; k" := (bind_to m (λ x, k))
  (at level 20, m at level 100, k at level 200, only parsing).

(** ** Python built-ins *)

(** [l[i]] on a list: negative indices count from the end, anything outside
    [-len, len) raises [IndexError]. *)
Definition list_getitem {A} (l : list A) (i : Z) : result A :=
  let n := Z.of_nat (length l) in
  let j := if i <? 0 then i + n else i in
  if (0 <=? j) && (j <? n) then
    match l !! Z.to_nat j with
    | Some a => Ok a
    | None => Raise IndexError
    end
  else Raise IndexError.

(** [l.index(x)]: position of the first occurrence, [ValueError] if none. *)
Fixpoint list_index `{EqDecision A} (x : A) (l : list A) : result Z :=
  match l with
  | [] => Raise ValueError
  | y :: l' => if decide (x = y) then Ok 0 else i <- list_index x l'; Ok (i + 1)
  end.

(** [sorted(notes)] on integers. *)
Definition sorted (notes : list Z) : list Z := merge_sort Z.le notes.

(** [char.isdigit()] on the ASCII characters the program produces. *)
Definition isdigit (c : ascii) : bool :=
  let n := nat_of_ascii c in (48 <=? n)%nat && (n <=? 57)%nat.

Definition str_filter (p : ascii → bool) (s : string) : string :=
  string_of_list_ascii (List.filter p (list_ascii_of_string s)).

(** ** MusicTheoryHelper *)

Module MusicTheoryHelper.

Definition note_names : list string :=
  ["C"; "C#"; "D"; "D#"; "E"; "F"; "F#"; "G"; "G#"; "A"; "A#"; "B"].

(** [note_to_name(midi_note)], e.g. 60 gives "C4". *)
Definition note_to_name (midi_note : Z) : result string :=
  let octave := midi_note / 12 - 1 in
  note_name <- list_getitem note_names (midi_note mod 12);
  Ok (note_name +:+ pretty octave).

End MusicTheoryHelper.

(** ** Chord naming: [EnhancedAirPiano.get_chord_name] *)

(** The characters kept by the comprehension
    [char for char in root_name_raw if not char.isdigit() and char not in ['-', '+']]. *)
Definition keeps_char (c : ascii) : bool :=
  negb (isdigit c) && negb (bool_decide (c = "-"%char ∨ c = "+"%char)).

Definition get_chord_name (notes : list Z) : result string :=
  if bool_decide (notes = []) then Ok "---" else
  let sorted_notes := sorted notes in
  root_midi <- list_getitem sorted_notes 0;
  root_name_raw <- MusicTheoryHelper.note_to_name root_midi;
  let root_name := str_filter keeps_char root_name_raw in
  if bool_decide (length sorted_notes = 1%nat) then Ok root_name
  else if bool_decide (length sorted_notes = 2%nat) then
    n1 <- list_getitem sorted_notes 1;
    n0 <- list_getitem sorted_notes 0;
    let interval := n1 - n0 in
    if interval =? 3 then Ok (root_name +:+ " m3")
    else if interval =? 4 then Ok (root_name +:+ " M3")
    else if interval =? 7 then Ok (root_name +:+ " P5")
    else Ok (root_name +:+ " Pair")
  else if bool_decide (3 ≤ length sorted_notes)%nat then
    n1 <- list_getitem sorted_notes 1;
    n0 <- list_getitem sorted_notes 0;
    let interval1 := n1 - n0 in
    n2 <- list_getitem sorted_notes 2;
    n1' <- list_getitem sorted_notes 1;
    let interval2 := n2 - n1' in
    if (interval1 =? 4) && (interval2 =? 3) then Ok (root_name +:+ " Maj")
    else if (interval1 =? 3) && (interval2 =? 4) then Ok (root_name +:+ " Min")
    else if (interval1 =? 5) && (interval2 =? 2) then Ok (root_name +:+ " Sus4")
    else if (interval1 =? 2) && (interval2 =? 5) then Ok (root_name +:+ " Sus2")
    else Ok (root_name +:+ " Triad")
  else Ok "Chord".

(** The name shown for a root: [note_to_name] without its octave, the
    first steps of [get_chord_name]. *)
Definition displayed_root (root_midi : Z) : result string :=
  root_name_raw <- MusicTheoryHelper.note_to_name root_midi;
  Ok (str_filter keeps_char root_name_raw).

(** The naming rule in the words of the specification (section 4.7): the
    12-tone name of the root, then the quality read off the first
    intervals of the sorted notes. *)
Module ChordNameSpec.

Definition pitch_class_name (root : Z) : string :=
  nth (Z.to_nat (root mod 12)) MusicTheoryHelper.note_names "".

Definition pair_quality (interval : Z) : string :=
  if interval =? 3 then "m3"
  else if interval =? 4 then "M3"
  else if interval =? 7 then "P5"
  else "Pair".

Definition triad_quality (i1 i2 : Z) : string :=
  match i1, i2 with
  | 4, 3 => "Maj"
  | 3, 4 => "Min"
  | 5, 2 => "Sus4"
  | 2, 5 => "Sus2"
  | _, _ => "Triad"
  end.

(** [root] is the lowest note, [rest] the other notes in ascending order. *)
Definition chord_name (root : Z) (rest : list Z) : string :=
  match rest with
  | [] => pitch_class_name root
  | [b] => pitch_class_name root +:+ " " +:+ pair_quality (b - root)
  | b :: c :: _ =>
      pitch_class_name root +:+ " " +:+ triad_quality (b - root) (c - b)
  end.

End ChordNameSpec.

(** ** Numeric helpers *)

(** [int(x)] on a float: truncation towards zero. *)
Definition py_int (x : Q) : Z :=
  if Qle_bool 0 x then Qfloor x else Qceiling x.

(** [np.clip(x, lo, hi)] is [minimum(maximum(x, lo), hi)]. *)
Definition np_clip (x lo hi : Q) : Q := Qmin (Qmax x lo) hi.

Definition np_clip_int (x lo hi : Z) : Z := Z.min (Z.max x lo) hi.

(** [a < b] on floats. *)
Definition Qlt_bool (a b : Q) : bool := negb (Qle_bool b a).

(** IEEE binary64, as CPython and NumPy compute it. *)
Module Binary64.

(** [float(z)], exact below 2^53. *)
Definition of_int (z : Z) : float :=
  if z <? 0 then PrimFloat.opp (PrimFloat.of_uint63 (Uint63.of_Z (- z)))
  else PrimFloat.of_uint63 (Uint63.of_Z z).

(** [int(x)] on a finite float. *)
Definition to_int (x : float) : Z :=
  match Prim2SF x with
  | S754_finite sign m e =>
      let a := if 0 <=? e then Zpos m * 2 ^ e else Zpos m / 2 ^ (- e) in
      if sign then - a else a
  | _ => 0
  end.

(** [np.clip(x, 0, 1)] *)
Definition clip_unit (x : float) : float :=
  let raised := if PrimFloat.ltb x 0%float then 0%float else x in
  if PrimFloat.ltb 1%float raised then 1%float else raised.

(** [int(v * factor)] for an integer [v] *)
Definition int_scaled (v : Z) (factor : float) : Z :=
  to_int (PrimFloat.mul (of_int v) factor).

(** [int(np.clip(center_x / screen_width, 0, 1) * 16383)] *)
Definition pitch_bend_value (center_x screen_width : Z) : Z :=
  to_int (PrimFloat.mul
            (clip_unit (PrimFloat.div (of_int center_x) (of_int screen_width)))
            16383%float).

End Binary64.

(** [math.sqrt] and [**], the two float operations that leave the rationals. *)
Class PyMath : Type := {
  math_sqrt : Q → Q;
  float_pow : Q → Q → Q
}.

(** ** The data model *)

(** What is written to [self.player] (a [pygame.midi.Output]). *)
Inductive midi_msg : Set :=
| NoteOn (note velocity : Z)
| NoteOff (note velocity : Z)
| WriteShort (status data1 data2 : Z)
| SetInstrument (instrument_id : Z).

#[global] Instance midi_msg_eq_dec : EqDecision midi_msg.
Proof. solve_decision. Defined.

(** An entry of [self.recorded_notes]: the dict with the keys
    ['note'], ['velocity'], ['time'], ['action']. *)
Record RecordedEvent : Set := {
  ev_note : Z;
  ev_velocity : Z;
  ev_time : Q;
  ev_action : string
}.

(** A landmark [[x, y, z]] of [hand['lmList']]. *)
Record Landmark : Set := { lm_x : Z; lm_y : Z; lm_z : Z }.

(** A hand observation, as [HandDetector.findHands] returns it, together
    with what [self.detector.fingersUp(hand)] answers for it. *)
Record Hand : Set := {
  lmList : list Landmark;
  bbox : Z * Z * Z * Z;
  hand_type : string;
  fingersUp : list Z
}.

(** A started [threading.Timer] or [threading.Thread] whose body has not
    run yet. *)
Inductive Task : Set :=
| EchoTimer (delay : Q) (n v : Z) (factor : float)
| StopAfterDelay (chord_notes : list Z).

(** Where the playback thread stands: before its first flush, or in the
    loop [for event in self.recorded_notes], about to fetch the entry at
    [index].  The loop walks the list object that [self.recorded_notes]
    named when it began, so what is appended to that object while it
    plays is played too.  [detached] is [None] while that object still is
    [self.recorded_notes]; it holds the entries of the object once
    [toggle_recording] has bound the attribute to a new list. *)
Inductive PlaybackPos : Set :=
| PlaybackStart
| PlaybackEvents (index : nat) (detached : option (list RecordedEvent)).

(** The attributes of an [EnhancedAirPiano] that the gesture logic reads or
    writes.  [player] tells whether [self.player] is set, [midi_out] is what
    that device has received, [threads] and [playback_thread] are the
    threads started and not finished, [clock] is what [time.time()] reads. *)
Record Piano : Type := {
  player : bool;
  midi_out : list midi_msg;
  screen_width : Z;
  current_instrument : Z;
  current_scale : string;
  prev_states : gmap string (gmap string Z);
  active_notes : gset Z;
  active_keys : gset string;
  sustain_time : Q;
  velocity_multiplier : Q;
  recording : bool;
  recorded_notes : list RecordedEvent;
  recording_start_time : option Q;
  echo_enabled : bool;
  pinch_threshold : Q;
  pinch_chord_notes : list Z;
  pinch_chord_playing : bool;
  threads : list Task;
  playback_thread : option PlaybackPos;
  clock : Q
}.

(** Attribute assignment [self.x = v], one definition per attribute that
    is assigned after [__init__]. *)
Definition set_midi_out (v : list midi_msg) (s : Piano) : Piano :=
  {| player := player s; midi_out := v; screen_width := screen_width s;
     current_instrument := current_instrument s;
     current_scale := current_scale s; prev_states := prev_states s;
     active_notes := active_notes s; active_keys := active_keys s;
     sustain_time := sustain_time s;
     velocity_multiplier := velocity_multiplier s; recording := recording s;
     recorded_notes := recorded_notes s;
     recording_start_time := recording_start_time s;
     echo_enabled := echo_enabled s; pinch_threshold := pinch_threshold s;
     pinch_chord_notes := pinch_chord_notes s;
     pinch_chord_playing := pinch_chord_playing s; threads := threads s;
     playback_thread := playback_thread s; clock := clock s |}.

Definition set_screen_width (v : Z) (s : Piano) : Piano :=
  {| player := player s; midi_out := midi_out s; screen_width := v;
     current_instrument := current_instrument s;
     current_scale := current_scale s; prev_states := prev_states s;
     active_notes := active_notes s; active_keys := active_keys s;
     sustain_time := sustain_time s;
     velocity_multiplier := velocity_multiplier s; recording := recording s;
     recorded_notes := recorded_notes s;
     recording_start_time := recording_start_time s;
     echo_enabled := echo_enabled s; pinch_threshold := pinch_threshold s;
     pinch_chord_notes := pinch_chord_notes s;
     pinch_chord_playing := pinch_chord_playing s; threads := threads s;
     playback_thread := playback_thread s; clock := clock s |}.

Definition set_current_instrument (v : Z) (s : Piano) : Piano :=
  {| player := player s; midi_out := midi_out s;
     screen_width := screen_width s; current_instrument := v;
     current_scale := current_scale s; prev_states := prev_states s;
     active_notes := active_notes s; active_keys := active_keys s;
     sustain_time := sustain_time s;
     velocity_multiplier := velocity_multiplier s; recording := recording s;
     recorded_notes := recorded_notes s;
     recording_start_time := recording_start_time s;
     echo_enabled := echo_enabled s; pinch_threshold := pinch_threshold s;
     pinch_chord_notes := pinch_chord_notes s;
     pinch_chord_playing := pinch_chord_playing s; threads := threads s;
     playback_thread := playback_thread s; clock := clock s |}.

Definition set_current_scale (v : string) (s : Piano) : Piano :=
  {| player := player s; midi_out := midi_out s;
     screen_width := screen_width s;
     current_instrument := current_instrument s; current_scale := v;
     prev_states := prev_states s; active_notes := active_notes s;
     active_keys := active_keys s; sustain_time := sustain_time s;
     velocity_multiplier := velocity_multiplier s; recording := recording s;
     recorded_notes := recorded_notes s;
     recording_start_time := recording_start_time s;
     echo_enabled := echo_enabled s; pinch_threshold := pinch_threshold s;
     pinch_chord_notes := pinch_chord_notes s;
     pinch_chord_playing := pinch_chord_playing s; threads := threads s;
     playback_thread := playback_thread s; clock := clock s |}.

Definition set_prev_states (v : gmap string (gmap string Z)) (s : Piano) : Piano :=
  {| player := player s; midi_out := midi_out s;
     screen_width := screen_width s;
     current_instrument := current_instrument s;
     current_scale := current_scale s; prev_states := v;
     active_notes := active_notes s; active_keys := active_keys s;
     sustain_time := sustain_time s;
     velocity_multiplier := velocity_multiplier s; recording := recording s;
     recorded_notes := recorded_notes s;
     recording_start_time := recording_start_time s;
     echo_enabled := echo_enabled s; pinch_threshold := pinch_threshold s;
     pinch_chord_notes := pinch_chord_notes s;
     pinch_chord_playing := pinch_chord_playing s; threads := threads s;
     playback_thread := playback_thread s; clock := clock s |}.

Definition set_active_notes (v : gset Z) (s : Piano) : Piano :=
  {| player := player s; midi_out := midi_out s;
     screen_width := screen_width s;
     current_instrument := current_instrument s;
     current_scale := current_scale s; prev_states := prev_states s;
     active_notes := v; active_keys := active_keys s;
     sustain_time := sustain_time s;
     velocity_multiplier := velocity_multiplier s; recording := recording s;
     recorded_notes := recorded_notes s;
     recording_start_time := recording_start_time s;
     echo_enabled := echo_enabled s; pinch_threshold := pinch_threshold s;
     pinch_chord_notes := pinch_chord_notes s;
     pinch_chord_playing := pinch_chord_playing s; threads := threads s;
     playback_thread := playback_thread s; clock := clock s |}.

Definition set_active_keys (v : gset string) (s : Piano) : Piano :=
  {| player := player s; midi_out := midi_out s;
     screen_width := screen_width s;
     current_instrument := current_instrument s;
     current_scale := current_scale s; prev_states := prev_states s;
     active_notes := active_notes s; active_keys := v;
     sustain_time := sustain_time s;
     velocity_multiplier := velocity_multiplier s; recording := recording s;
     recorded_notes := recorded_notes s;
     recording_start_time := recording_start_time s;
     echo_enabled := echo_enabled s; pinch_threshold := pinch_threshold s;
     pinch_chord_notes := pinch_chord_notes s;
     pinch_chord_playing := pinch_chord_playing s; threads := threads s;
     playback_thread := playback_thread s; clock := clock s |}.

Definition set_velocity_multiplier (v : Q) (s : Piano) : Piano :=
  {| player := player s; midi_out := midi_out s;
     screen_width := screen_width s;
     current_instrument := current_instrument s;
     current_scale := current_scale s; prev_states := prev_states s;
     active_notes := active_notes s; active_keys := active_keys s;
     sustain_time := sustain_time s; velocity_multiplier := v;
     recording := recording s; recorded_notes := recorded_notes s;
     recording_start_time := recording_start_time s;
     echo_enabled := echo_enabled s; pinch_threshold := pinch_threshold s;
     pinch_chord_notes := pinch_chord_notes s;
     pinch_chord_playing := pinch_chord_playing s; threads := threads s;
     playback_thread := playback_thread s; clock := clock s |}.

Definition set_recording (v : bool) (s : Piano) : Piano :=
  {| player := player s; midi_out := midi_out s;
     screen_width := screen_width s;
     current_instrument := current_instrument s;
     current_scale := current_scale s; prev_states := prev_states s;
     active_notes := active_notes s; active_keys := active_keys s;
     sustain_time := sustain_time s;
     velocity_multiplier := velocity_multiplier s; recording := v;
     recorded_notes := recorded_notes s;
     recording_start_time := recording_start_time s;
     echo_enabled := echo_enabled s; pinch_threshold := pinch_threshold s;
     pinch_chord_notes := pinch_chord_notes s;
     pinch_chord_playing := pinch_chord_playing s; threads := threads s;
     playback_thread := playback_thread s; clock := clock s |}.

Definition set_recorded_notes (v : list RecordedEvent) (s : Piano) : Piano :=
  {| player := player s; midi_out := midi_out s;
     screen_width := screen_width s;
     current_instrument := current_instrument s;
     current_scale := current_scale s; prev_states := prev_states s;
     active_notes := active_notes s; active_keys := active_keys s;
     sustain_time := sustain_time s;
     velocity_multiplier := velocity_multiplier s; recording := recording s;
     recorded_notes := v; recording_start_time := recording_start_time s;
     echo_enabled := echo_enabled s; pinch_threshold := pinch_threshold s;
     pinch_chord_notes := pinch_chord_notes s;
     pinch_chord_playing := pinch_chord_playing s; threads := threads s;
     playback_thread := playback_thread s; clock := clock s |}.

Definition set_recording_start_time (v : option Q) (s : Piano) : Piano :=
  {| player := player s; midi_out := midi_out s;
     screen_width := screen_width s;
     current_instrument := current_instrument s;
     current_scale := current_scale s; prev_states := prev_states s;
     active_notes := active_notes s; active_keys := active_keys s;
     sustain_time := sustain_time s;
     velocity_multiplier := velocity_multiplier s; recording := recording s;
     recorded_notes := recorded_notes s; recording_start_time := v;
     echo_enabled := echo_enabled s; pinch_threshold := pinch_threshold s;
     pinch_chord_notes := pinch_chord_notes s;
     pinch_chord_playing := pinch_chord_playing s; threads := threads s;
     playback_thread := playback_thread s; clock := clock s |}.

Definition set_echo_enabled (v : bool) (s : Piano) : Piano :=
  {| player := player s; midi_out := midi_out s;
     screen_width := screen_width s;
     current_instrument := current_instrument s;
     current_scale := current_scale s; prev_states := prev_states s;
     active_notes := active_notes s; active_keys := active_keys s;
     sustain_time := sustain_time s;
     velocity_multiplier := velocity_multiplier s; recording := recording s;
     recorded_notes := recorded_notes s;
     recording_start_time := recording_start_time s; echo_enabled := v;
     pinch_threshold := pinch_threshold s;
     pinch_chord_notes := pinch_chord_notes s;
     pinch_chord_playing := pinch_chord_playing s; threads := threads s;
     playback_thread := playback_thread s; clock := clock s |}.

Definition set_pinch_chord_playing (v : bool) (s : Piano) : Piano :=
  {| player := player s; midi_out := midi_out s;
     screen_width := screen_width s;
     current_instrument := current_instrument s;
     current_scale := current_scale s; prev_states := prev_states s;
     active_notes := active_notes s; active_keys := active_keys s;
     sustain_time := sustain_time s;
     velocity_multiplier := velocity_multiplier s; recording := recording s;
     recorded_notes := recorded_notes s;
     recording_start_time := recording_start_time s;
     echo_enabled := echo_enabled s; pinch_threshold := pinch_threshold s;
     pinch_chord_notes := pinch_chord_notes s; pinch_chord_playing := v;
     threads := threads s; playback_thread := playback_thread s;
     clock := clock s |}.

Definition set_threads (v : list Task) (s : Piano) : Piano :=
  {| player := player s; midi_out := midi_out s;
     screen_width := screen_width s;
     current_instrument := current_instrument s;
     current_scale := current_scale s; prev_states := prev_states s;
     active_notes := active_notes s; active_keys := active_keys s;
     sustain_time := sustain_time s;
     velocity_multiplier := velocity_multiplier s; recording := recording s;
     recorded_notes := recorded_notes s;
     recording_start_time := recording_start_time s;
     echo_enabled := echo_enabled s; pinch_threshold := pinch_threshold s;
     pinch_chord_notes := pinch_chord_notes s;
     pinch_chord_playing := pinch_chord_playing s; threads := v;
     playback_thread := playback_thread s; clock := clock s |}.

Definition set_playback_thread (v : option PlaybackPos) (s : Piano) : Piano :=
  {| player := player s; midi_out := midi_out s;
     screen_width := screen_width s;
     current_instrument := current_instrument s;
     current_scale := current_scale s; prev_states := prev_states s;
     active_notes := active_notes s; active_keys := active_keys s;
     sustain_time := sustain_time s;
     velocity_multiplier := velocity_multiplier s; recording := recording s;
     recorded_notes := recorded_notes s;
     recording_start_time := recording_start_time s;
     echo_enabled := echo_enabled s; pinch_threshold := pinch_threshold s;
     pinch_chord_notes := pinch_chord_notes s;
     pinch_chord_playing := pinch_chord_playing s; threads := threads s;
     playback_thread := v; clock := clock s |}.

Definition set_clock (v : Q) (s : Piano) : Piano :=
  {| player := player s; midi_out := midi_out s;
     screen_width := screen_width s;
     current_instrument := current_instrument s;
     current_scale := current_scale s; prev_states := prev_states s;
     active_notes := active_notes s; active_keys := active_keys s;
     sustain_time := sustain_time s;
     velocity_multiplier := velocity_multiplier s; recording := recording s;
     recorded_notes := recorded_notes s;
     recording_start_time := recording_start_time s;
     echo_enabled := echo_enabled s; pinch_threshold := pinch_threshold s;
     pinch_chord_notes := pinch_chord_notes s;
     pinch_chord_playing := pinch_chord_playing s; threads := threads s;
     playback_thread := playback_thread s; clock := v |}.

(** ** The scale tables of [__init__] *)

Definition hand_map (thumb index middle ring pinky : list Z)
  : gmap string (list Z) :=
  list_to_map [("thumb", thumb); ("index", index); ("middle", middle);
               ("ring", ring); ("pinky", pinky)].

Definition scale_table (left right : gmap string (list Z))
  : gmap string (gmap string (list Z)) :=
  list_to_map [("left", left); ("right", right)].

Definition D_Major : gmap string (gmap string (list Z)) :=
  scale_table
    (hand_map [62; 66; 69] [64; 67; 71] [66; 69; 73] [67; 71; 74] [69; 73; 76])
    (hand_map [74; 78; 81] [76; 79; 83] [78; 81; 85] [79; 83; 86] [81; 85; 88]).

Definition C_Major : gmap string (gmap string (list Z)) :=
  scale_table
    (hand_map [60; 64; 67] [62; 65; 69] [64; 67; 71] [65; 69; 72] [67; 71; 74])
    (hand_map [72; 76; 79] [74; 77; 81] [76; 79; 83] [77; 81; 84] [79; 83; 86]).

Definition Pentatonic : gmap string (gmap string (list Z)) :=
  scale_table
    (hand_map [60; 64; 67] [62; 67; 69] [64; 69; 72] [67; 72; 74] [69; 74; 77])
    (hand_map [72; 76; 79] [74; 79; 81] [76; 81; 84] [79; 84; 86] [81; 86; 89]).

(** [self.scales], in insertion order.  It is never assigned again. *)
Definition scales : list (string * gmap string (gmap string (list Z))) :=
  [("D_Major", D_Major); ("C_Major", C_Major); ("Pentatonic", Pentatonic)].

(** [list(self.instruments.keys())] *)
Definition instrument_keys : list Z :=
  [0; 1; 4; 6; 8; 11; 12; 14; 16; 25; 40; 48; 73; 80].

Definition finger_names : list string :=
  ["thumb"; "index"; "middle"; "ring"; "pinky"].

(** The comprehension
    [{hand_type: {finger: 0 for finger in chords[hand_type]} for hand_type in chords}]. *)
Definition all_down (chords : gmap string (gmap string (list Z)))
  : gmap string (gmap string Z) :=
  (λ fingers : gmap string (list Z), (λ _ : list Z, 0) <$> fingers) <$> chords.

(** The instance [__init__] builds, once MIDI and the camera are set up
    ([setup_midi] leaves the process when no device can be opened). *)
Definition initial (camera_width : Z) : Piano :=
  {| player := true; midi_out := [SetInstrument 0];
     screen_width := camera_width; current_instrument := 0;
     current_scale := "D_Major"; prev_states := all_down D_Major;
     active_notes := ∅; active_keys := ∅;
     sustain_time := 8 # 10; velocity_multiplier := 1;
     recording := false; recorded_notes := [];
     recording_start_time := None; echo_enabled := false;
     pinch_threshold := 30; pinch_chord_notes := [84; 88; 91];
     pinch_chord_playing := false; threads := []; playback_thread := None;
     clock := 0 |}.

(** ** The monad of methods: state, and an outcome that may be an exception *)

Definition M (A : Type) : Type := Piano → result A * Piano.

#[global] Instance M_ret : MRet M := λ A a s, (Ok a, s).
#[global] Instance M_bind : MBind M := λ A B f m s,
  match m s with
  | (Ok a, s') => f a s'
  | (Raise e, s') => (Raise e, s')
  end.

Definition raise {A} (e : exn) : M A := λ s, (Raise e, s).
Definition gets {A} (f : Piano → A) : M A := λ s, (Ok (f s), s).
Definition modify (f : Piano → Piano) : M unit := λ s, (Ok (), f s).
Definition lift {A} (r : result A) : M A := λ s, (r, s).
Definition skip : M unit := mret ().

(** [for x in l: body(x)] *)
Fixpoint for_each {A} (l : list A) (body : A → M unit) : M unit :=
  match l with
  | [] => skip
  | x :: l' => body x;; for_each l' body
  end.

(** A loop that carries its local variables in [acc]. *)
Fixpoint for_fold {A B} (l : list A) (acc : B) (body : B → A → M B) : M B :=
  match l with
  | [] => mret acc
  | x :: l' => acc' <- body acc x; for_fold l' acc' body
  end.

(** [enumerate(l)] *)
Definition enumerate {A} (l : list A) : list (Z * A) :=
  imap (λ i x, (Z.of_nat i, x)) l.

(** [d[k]] on a dict *)
Definition dict_getitem `{Countable K} {V} (d : gmap K V) (k : K) : result V :=
  match d !! k with
  | Some v => Ok v
  | None => Raise KeyError
  end.

Fixpoint assoc_getitem {V} (d : list (string * V)) (k : string) : result V :=
  match d with
  | [] => Raise KeyError
  | (k', v) :: d' => if decide (k = k') then Ok v else assoc_getitem d' k
  end.

(** ** The methods of [EnhancedAirPiano] *)

Section Methods.

Context `{PyMath}.

(** [self.player.note_on], [note_off], [write_short], [set_instrument]:
    the message reaches the device. *)
Definition player_write (m : midi_msg) : M unit :=
  modify (λ s, set_midi_out (midi_out s ++ [m]) s).

(** [self.active_notes.add(note)] and [self.active_notes.discard(note)] *)
Definition active_notes_add (note : Z) : M unit :=
  modify (λ s, set_active_notes ({[note]} ∪ active_notes s) s).

Definition active_notes_discard (note : Z) : M unit :=
  modify (λ s, set_active_notes (active_notes s ∖ {[note]}) s).

(** [threading.Timer(...).start()] and [threading.Thread(...).start()] *)
Definition start_thread (t : Task) : M unit :=
  modify (λ s, set_threads (threads s ++ [t]) s).

(** [get_current_chords]: [self.scales[self.current_scale]] *)
Definition get_current_chords : M (gmap string (gmap string (list Z))) :=
  name <- gets current_scale;
  lift (assoc_getitem scales name).

(** [self.recorded_notes.append({'note': ..., 'velocity': ...,
    'time': time.time() - self.recording_start_time, 'action': ...})];
    the subtraction raises [TypeError] while the start time is [None]. *)
Definition record_event (note velocity : Z) (action : string) : M unit :=
  now <- gets clock;
  start <- gets recording_start_time;
  match start with
  | None => raise TypeError
  | Some t0 =>
      modify (λ s, set_recorded_notes
        (recorded_notes s ++
           [{| ev_note := note; ev_velocity := velocity;
               ev_time := (now - t0)%Q; ev_action := action |}]) s)
  end.

Definition finger_landmarks : gmap Z (Z * Z) :=
  list_to_map [(0, (4, 2)); (1, (8, 5)); (2, (12, 9)); (3, (16, 13));
               (4, (20, 17))].

Definition calculate_dynamic_velocity
    (hand_landmarks : list Landmark) (finger_index : Z) : M Z :=
  if bool_decide (length hand_landmarks ≤ 20)%nat then mret 80 else
  match finger_landmarks !! finger_index with
  | None => mret 80
  | Some (tip_idx, base_idx) =>
      tip_pos <- lift (list_getitem hand_landmarks tip_idx);
      base_pos <- lift (list_getitem hand_landmarks base_idx);
      let distance :=
        math_sqrt (inject_Z ((lm_x tip_pos - lm_x base_pos) ^ 2
                             + (lm_y tip_pos - lm_y base_pos) ^ 2)) in
      let min_dist := 20%Q in
      let max_dist := 150%Q in
      let normalized :=
        np_clip ((distance - min_dist) / (max_dist - min_dist))%Q 0 1 in
      let velocity_curve := float_pow normalized (6 # 10) in
      multiplier <- gets velocity_multiplier;
      let velocity := py_int (20 + velocity_curve * 107 * multiplier)%Q in
      mret (np_clip_int velocity 20 127)
  end.

Definition play_single_note (note velocity : Z) : M unit :=
  connected <- gets player;
  if connected then player_write (NoteOn note velocity) else skip.

(** The body of the loop of [play_chord_enhanced], for the note at
    position [i] of the chord. *)
Definition play_note_of_chord (velocity : Z) (entry : Z * Z) : M unit :=
  let '(i, note) := entry in
  active <- gets active_notes;
  if bool_decide (note ∉ active) then
    play_single_note note velocity;;
    active_notes_add note;;
    echo <- gets echo_enabled;
    (if echo && (i =? 0) then
       start_thread (EchoTimer (8 # 100) note velocity 0.7%float);;
       start_thread (EchoTimer (16 # 100) note velocity 0.4%float)
     else skip);;
    rec <- gets recording;
    if rec then record_event note velocity "on" else skip
  else skip.

Definition play_chord_enhanced (chord_notes : list Z) (velocity : Z) : M unit :=
  for_each (enumerate chord_notes) (play_note_of_chord velocity).

(** The body of an echo timer:
    [(self.play_single_note(n, int(v * factor)), self.active_notes.add(n))] *)
Definition echo_timer_body (n v : Z) (factor : float) : M unit :=
  play_single_note n (Binary64.int_scaled v factor);;
  active_notes_add n.

(** The body of the loop of [stop_after_delay]. *)
Definition release_note (note : Z) : M unit :=
  active <- gets active_notes;
  if bool_decide (note ∈ active) then
    connected <- gets player;
    (if connected then player_write (NoteOff note 127) else skip);;
    active_notes_discard note;;
    rec <- gets recording;
    if rec then record_event note 0 "off" else skip
  else skip.

(** The thread body of [stop_chord_enhanced], after its [time.sleep]. *)
Definition stop_after_delay (chord_notes : list Z) : M unit :=
  for_each chord_notes release_note.

Definition stop_chord_enhanced (chord_notes : list Z) : M unit :=
  start_thread (StopAfterDelay chord_notes).

(** The message of [send_pitch_bend]: status [0xE0], then the low and the
    high seven bits of the value. *)
Definition pitch_bend_message (bend_value : Z) : midi_msg :=
  let lsb := Z.land bend_value 127 in
  let msb := Z.land (Z.shiftr bend_value 7) 127 in
  WriteShort 224 lsb msb.

Definition send_pitch_bend (bend_value : Z) : M unit :=
  connected <- gets player;
  if connected then player_write (pitch_bend_message bend_value) else skip.

(** The test [is_pinching] of [handle_pinch_gesture]: thumb and index tips
    closer than the threshold, both fingers reported up. *)
Definition is_pinching (thumb_tip index_tip : Landmark) (fingers_up : list Z)
    (threshold : Q) : bool :=
  let pinch_dist :=
    math_sqrt (inject_Z ((lm_x thumb_tip - lm_x index_tip) ^ 2
                         + (lm_y thumb_tip - lm_y index_tip) ^ 2)) in
  Qlt_bool pinch_dist threshold
  && bool_decide (2 ≤ length fingers_up)%nat
  && bool_decide (fingers_up !! 0%nat = Some 1)
  && bool_decide (fingers_up !! 1%nat = Some 1).

(** The body of the loop over [self.pinch_chord_notes]. *)
Definition start_pinch_note (note : Z) : M unit :=
  active <- gets active_notes;
  if bool_decide (note ∉ active) then
    play_single_note note 120;;
    active_notes_add note;;
    rec <- gets recording;
    if rec then record_event note 120 "on" else skip
  else skip.

(** The block under [if not self.pinch_chord_playing]. *)
Definition start_pinch_chord : M unit :=
  notes <- gets pinch_chord_notes;
  for_each notes start_pinch_note;;
  modify (set_pinch_chord_playing true).

(** The pitch bend of a pinching hand, from its bounding box. *)
Definition bend_from_position (hand : Hand) : M unit :=
  let '(x, y, w, h) := bbox hand in
  let center_x := x + w / 2 in
  width <- gets screen_width;
  if width =? 0 then raise ZeroDivisionError else
  let normalized_x := np_clip (inject_Z center_x / inject_Z width)%Q 0 1 in
  let pitch_bend_value := py_int (normalized_x * 16383)%Q in
  send_pitch_bend pitch_bend_value.

(** [handle_pinch_gesture(hand, img)]; the drawing on [img] is left out. *)
Definition handle_pinch_gesture (hand : Hand) : M bool :=
  if bool_decide (length (lmList hand) < 21)%nat then mret false else
  thumb_tip <- lift (list_getitem (lmList hand) 4);
  index_tip <- lift (list_getitem (lmList hand) 8);
  threshold <- gets pinch_threshold;
  if is_pinching thumb_tip index_tip (fingersUp hand) threshold then
    playing <- gets pinch_chord_playing;
    (if negb playing then start_pinch_chord else skip);;
    bend_from_position hand;;
    mret true
  else mret false.

Definition cycle_scale : M unit :=
  let scale_names := scales.*1 in
  name <- gets current_scale;
  current_idx <- lift (list_index name scale_names);
  next <- lift (list_getitem scale_names
                 ((current_idx + 1) mod Z.of_nat (length scale_names)));
  modify (set_current_scale next);;
  chords <- get_current_chords;
  modify (set_prev_states (all_down chords));;
  modify (set_active_keys ∅).

(** [self.recorded_notes = new]: the attribute names a new list object; a
    playback loop that walks the old object keeps walking it. *)
Definition rebind_recorded_notes (new : list RecordedEvent) : M unit :=
  old <- gets recorded_notes;
  thread <- gets playback_thread;
  match thread with
  | Some (PlaybackEvents index None) =>
      modify (set_playback_thread (Some (PlaybackEvents index (Some old))))
  | _ => skip
  end;;
  modify (set_recorded_notes new).

Definition toggle_recording : M unit :=
  rec <- gets recording;
  if negb rec then
    modify (set_recording true);;
    rebind_recorded_notes [];;
    now <- gets clock;
    modify (set_recording_start_time (Some now))
  else modify (set_recording false).

(** The loop [for note in list(self.active_notes): note_off; discard] that
    the playback thread and the frame without hands share. *)
Definition flush_active_notes : M unit :=
  active <- gets active_notes;
  for_each (elements active) (λ note,
    connected <- gets player;
    (if connected then player_write (NoteOff note 127) else skip);;
    active_notes_discard note).

(** [playback_recording]: starts the thread unless there is nothing to
    play or a playback thread is alive. *)
Definition playback_recording : M unit :=
  recorded <- gets recorded_notes;
  if bool_decide (recorded = []) then skip else
  thread <- gets playback_thread;
  match thread with
  | Some _ => skip
  | None => modify (set_playback_thread (Some PlaybackStart))
  end.

Definition playback_event (event : RecordedEvent) : M unit :=
  connected <- gets player;
  if String.eqb (ev_action event) "on" then
    (if connected then player_write (NoteOn (ev_note event) (ev_velocity event))
     else skip);;
    active_notes_add (ev_note event)
  else
    (if connected then player_write (NoteOff (ev_note event) (ev_velocity event))
     else skip);;
    active_notes_discard (ev_note event).

(** One stretch of [playback_thread_func] between two waits: the first
    flush, which ends where the loop over [self.recorded_notes] begins;
    then one entry per stretch, fetched from the list the loop walks as
    that list is by then; and, when the list has no entry at the index
    of the loop, the last flush. *)
Definition playback_thread_step : M unit :=
  thread <- gets playback_thread;
  match thread with
  | None => skip
  | Some PlaybackStart =>
      flush_active_notes;;
      modify (set_active_keys ∅);;
      modify (set_playback_thread (Some (PlaybackEvents 0 None)))
  | Some (PlaybackEvents index detached) =>
      recorded <- gets recorded_notes;
      match default (recorded : list RecordedEvent) detached !! index with
      | Some event =>
          playback_event event;;
          modify (set_playback_thread
                    (Some (PlaybackEvents (S index) detached)))
      | None =>
          flush_active_notes;;
          modify (set_playback_thread None)
      end
  end.

(** The local variables of [process_hands]. *)
Record FrameLocals : Type := {
  current_finger_states : gmap string (gmap string Z);
  current_frame_active_keys_input : gset string;
  pinching_in_current_frame : bool
}.

(** The body of the loop over [enumerate(finger_names)] for one hand. *)
Definition process_finger (chords : gmap string (gmap string (list Z)))
    (hand : Hand) (hand_key : string) (fingers_up_list : list Z)
    (loc : FrameLocals) (entry : Z * string) : M FrameLocals :=
  let '(i, finger_name) := entry in
  hand_chords <- lift (dict_getitem chords hand_key);
  if bool_decide (is_Some (hand_chords !! finger_name))
     && (i <? Z.of_nat (length fingers_up_list)) then
    up <- lift (list_getitem fingers_up_list i);
    hand_states <- lift (dict_getitem (current_finger_states loc) hand_key);
    let states :=
      <[hand_key := <[finger_name := up]> hand_states]>
        (current_finger_states loc) in
    let key_name := hand_key +:+ "_" +:+ finger_name in
    let was (expected : Z) : M bool :=
      prev <- gets prev_states;
      prev_hand <- lift (dict_getitem prev hand_key);
      prev_up <- lift (dict_getitem prev_hand finger_name);
      mret (prev_up =? expected) in
    raised <- (if up =? 1 then was 0 else mret false);
    keys <-
      (if raised then
         velocity <- calculate_dynamic_velocity (lmList hand) i;
         chord <- lift (dict_getitem hand_chords finger_name);
         play_chord_enhanced chord velocity;;
         mret ({[key_name]} ∪ current_frame_active_keys_input loc)
       else
         lowered <- (if up =? 0 then was 1 else mret false);
         if lowered then
           chord <- lift (dict_getitem hand_chords finger_name);
           stop_chord_enhanced chord;;
           mret (current_frame_active_keys_input loc)
         else mret (current_frame_active_keys_input loc));
    let keys' := if up =? 1 then {[key_name]} ∪ keys else keys in
    mret {| current_finger_states := states;
            current_frame_active_keys_input := keys';
            pinching_in_current_frame := pinching_in_current_frame loc |}
  else mret loc.

(** The body of the loop over [hands]. *)
Definition process_hand (chords : gmap string (gmap string (list Z)))
    (loc : FrameLocals) (hand : Hand) : M FrameLocals :=
  let hand_key :=
    if String.eqb (hand_type hand) "Left" then "left" else "right" in
  pinched <- handle_pinch_gesture hand;
  if pinched then
    mret {| current_finger_states := current_finger_states loc;
            current_frame_active_keys_input :=
              current_frame_active_keys_input loc;
            pinching_in_current_frame := true |}
  else
    for_fold (enumerate finger_names) loc
      (process_finger chords hand hand_key (fingersUp hand)).

Definition process_hands (hands : list Hand) : M unit :=
  chords <- get_current_chords;
  loc <- for_fold hands
    {| current_finger_states := all_down chords;
       current_frame_active_keys_input := ∅;
       pinching_in_current_frame := false |}
    (process_hand chords);
  modify (set_active_keys (current_frame_active_keys_input loc));;
  playing <- gets pinch_chord_playing;
  (if negb (pinching_in_current_frame loc) && playing then
     notes <- gets pinch_chord_notes;
     for_each notes (λ note,
       active <- gets active_notes;
       if bool_decide (note ∈ active) then
         connected <- gets player;
         (if connected then player_write (NoteOff note 127) else skip);;
         active_notes_discard note
       else skip);;
     modify (set_pinch_chord_playing false);;
     send_pitch_bend 8192
   else skip);;
  modify (set_prev_states (current_finger_states loc)).

(** The [else] branch of [run]: no hand in the frame. *)
Definition no_hands : M unit :=
  chords <- get_current_chords;
  modify (set_prev_states (all_down chords));;
  modify (set_active_keys ∅);;
  flush_active_notes;;
  playing <- gets pinch_chord_playing;
  if playing then
    modify (set_pinch_chord_playing false);;
    send_pitch_bend 8192
  else skip.

(** The part of one iteration of [run] before the keyboard is read, as
    far as it touches the attributes of [Piano]: the gesture step, then
    [draw_enhanced_ui], of which the assignment of the width of the frame
    is kept.  The rest of the drawing and [update_fps] read these
    attributes and write display attributes only ([screen_height],
    [ui_height], [key_width], [key_height], the FPS counters), which the
    methods above never read; [draw_piano_keys_enhanced] is embedded on
    its own below.  An exception of the drawing leaves the [try] block of
    [run], which ends with [cleanup]: in a run it is the event [Quit]. *)
Definition process_frame (hands : list Hand) (frame_width : Z) : M unit :=
  (if bool_decide (hands = []) then no_hands else process_hands hands);;
  modify (set_screen_width frame_width).

(** [handle_keyboard_input(key)].  [toggle_fullscreen] stores the width of
    the window, which the window system tells. *)
Definition handle_keyboard_input (key : Z) (window_width : Z) : M unit :=
  if key =? 102 then modify (set_screen_width window_width)
  else if key =? 115 then cycle_scale
  else if key =? 114 then toggle_recording
  else if key =? 112 then playback_recording
  else if key =? 101 then
    echo <- gets echo_enabled; modify (set_echo_enabled (negb echo))
  else if (key =? 43) || (key =? 61) then
    m <- gets velocity_multiplier;
    modify (set_velocity_multiplier (Qmin 2 (m + (1 # 10))))
  else if key =? 45 then
    m <- gets velocity_multiplier;
    modify (set_velocity_multiplier (Qmax (1 # 10) (m - (1 # 10))))
  else if (49 <=? key) && (key <=? 57) then
    let idx := key - 49 in
    if idx <? Z.of_nat (length instrument_keys) then
      instrument <- lift (list_getitem instrument_keys idx);
      modify (set_current_instrument instrument);;
      connected <- gets player;
      (if connected then player_write (SetInstrument instrument) else skip)
    else skip
  else skip.

(** [cleanup]: a note-off for every active note, then
    [self.active_notes.clear()]. *)
Definition cleanup : M unit :=
  active <- gets active_notes;
  for_each (elements active) (λ note,
    connected <- gets player;
    if connected then player_write (NoteOff note 127) else skip);;
  modify (set_active_notes ∅).

(** ** The run of the program *)

(** What happens next: the camera delivers a frame, a key is read, the
    scheduler runs the body of the [k]-th started thread or the next
    stretch of the playback thread, or the loop is left (the user quits,
    or the drawing of a frame raises).  [now] is the time on the clock
    when it happens. *)
Inductive Event : Type :=
| Frame (now : Q) (hands : list Hand) (frame_width : Z)
| KeyPress (now : Q) (key : Z) (window_width : Z)
| RunThread (now : Q) (k : nat)
| RunPlayback (now : Q)
| Quit.

Definition task_body (t : Task) : M unit :=
  match t with
  | EchoTimer _ n v factor => echo_timer_body n v factor
  | StopAfterDelay chord_notes => stop_after_delay chord_notes
  end.

Definition run_thread (k : nat) : M unit :=
  pool <- gets threads;
  match pool !! k with
  | None => skip
  | Some t => modify (set_threads (delete k pool));; task_body t
  end.

(** The effect of an event on the instance, as a method call. *)
Definition event_action (ev : Event) : M unit :=
  match ev with
  | Frame now hands frame_width =>
      modify (set_clock now);; process_frame hands frame_width
  | KeyPress now key window_width =>
      modify (set_clock now);; handle_keyboard_input key window_width
  | RunThread now k => modify (set_clock now);; run_thread k
  | RunPlayback now => modify (set_clock now);; playback_thread_step
  | Quit => cleanup
  end.

Definition on_main_thread (ev : Event) : bool :=
  match ev with
  | Frame _ _ _ | KeyPress _ _ _ | Quit => true
  | RunThread _ _ | RunPlayback _ => false
  end.

(** The key [q], or an interrupt. *)
Definition quits (ev : Event) : bool :=
  match ev with
  | Quit => true
  | KeyPress _ key _ => key =? 113
  | _ => false
  end.

(** [run]: the loop ends with [cleanup] when the user quits or when an
    exception leaves the [try] block; an exception in a thread body ends
    that thread only. *)
Fixpoint run (evs : list Event) (s : Piano) : Piano :=
  match evs with
  | [] => s
  | ev :: evs' =>
      if quits ev then (cleanup s).2 else
      match event_action ev s with
      | (Ok _, s') => run evs' s'
      | (Raise _, s') =>
          if on_main_thread ev then (cleanup s').2 else run evs' s'
      end
  end.

End Methods.

(** ** What the sent messages say about the sounding notes *)

(** The set of sounding notes after the device has received [out]: a
    note-on starts a note, a note-off ends it. *)
Fixpoint replay (out : list midi_msg) (sounding : gset Z) : gset Z :=
  match out with
  | [] => sounding
  | NoteOn n _ :: out' => replay out' ({[n]} ∪ sounding)
  | NoteOff n _ :: out' => replay out' (sounding ∖ {[n]})
  | _ :: out' => replay out' sounding
  end.

(** No note-on in [out] is for a note that sounds when it is sent. *)
Fixpoint no_retrigger (sounding : gset Z) (out : list midi_msg) : Prop :=
  match out with
  | [] => True
  | NoteOn n _ :: out' => (n ∉ sounding) ∧ no_retrigger ({[n]} ∪ sounding) out'
  | NoteOff n _ :: out' => no_retrigger (sounding ∖ {[n]}) out'
  | _ :: out' => no_retrigger sounding out'
  end.

(** A message that is neither a note-on nor a note-off. *)
Definition plain_message (m : midi_msg) : Prop :=
  match m with
  | NoteOn _ _ | NoteOff _ _ => False
  | _ => True
  end.

(** The note-offs of a flush: one per note, with velocity 127. *)
Definition note_offs (notes : list Z) : list midi_msg :=
  (λ n, NoteOff n 127) <$> notes.

(** A method keeps the attribute [f] as it is. *)
Definition Preserves {A B} (f : Piano → B) (m : M A) : Prop :=
  ∀ s : Piano, f (m s).2 = f s.

(** [s'] comes after [s] with the set of active notes following the
    messages sent in between; when [strict], none of them retriggers a
    sounding note. *)
Definition follows (strict : bool) (s s' : Piano) : Prop :=
  player s' = player s
  ∧ ∃ out : list midi_msg,
      midi_out s' = midi_out s ++ out
      ∧ active_notes s' = replay out (active_notes s)
      ∧ (strict = true → no_retrigger (active_notes s) out).

Definition Follows (strict : bool) {A} (m : M A) : Prop :=
  ∀ s : Piano, player s = true → follows strict s (m s).2.

(** The operations that change [self.active_notes], and the events that
    call them. *)
Inductive Operation : Type :=
| ChordPress (chord_notes : list Z) (velocity : Z)
| EchoResend (n v : Z) (factor : float)
| SustainRelease (chord_notes : list Z)
| PinchGesture (hand : Hand)
| FrameWithHands (hands : list Hand)
| PanicStop
| PlaybackStretch
| Cleanup
| OnEvent (ev : Event).

Definition perform `{PyMath} (op : Operation) : M unit :=
  match op with
  | ChordPress chord_notes velocity => play_chord_enhanced chord_notes velocity
  | EchoResend n v factor => echo_timer_body n v factor
  | SustainRelease chord_notes => stop_after_delay chord_notes
  | PinchGesture hand => handle_pinch_gesture hand;; skip
  | FrameWithHands hands => process_hands hands
  | PanicStop => no_hands
  | PlaybackStretch => playback_thread_step
  | Cleanup => cleanup
  | OnEvent ev => event_action ev
  end.

(** The operations that send a note-on without looking at the set: an
    echo timer, and the playback thread when it stands at an "on" event. *)
Definition replays_on (s : Piano) : bool :=
  match playback_thread s with
  | Some (PlaybackEvents index detached) =>
      match default (recorded_notes s) detached !! index with
      | Some event => String.eqb (ev_action event) "on"
      | None => false
      end
  | _ => false
  end.

Definition resends (op : Operation) (s : Piano) : bool :=
  match op with
  | EchoResend _ _ _ => true
  | PlaybackStretch | OnEvent (RunPlayback _) => replays_on s
  | OnEvent (RunThread _ k) =>
      match threads s !! k with
      | Some (EchoTimer _ _ _ _) => true
      | _ => false
      end
  | _ => false
  end.

(** The notes of [notes] that a press starts: those that do not sound,
    each once. *)
Fixpoint fresh_notes (sounding : gset Z) (notes : list Z) : list Z :=
  match notes with
  | [] => []
  | n :: notes' =>
      if decide (n ∈ sounding) then fresh_notes sounding notes'
      else n :: fresh_notes ({[n]} ∪ sounding) notes'
  end.

(** The pitch bend in the words of the specification (section 4.4 and the
    pinch scenario): the centre of the bounding box over the screen width,
    clipped to [0, 1], mapped linearly to [0, 16383], as an integer. *)
Module PitchBendSpec.

Definition bend_value (center_x width : Z) : Z :=
  if center_x <=? 0 then 0
  else if width <=? center_x then 16383
  else center_x * 16383 / width.

End PitchBendSpec.

(** Whether [handle_pinch_gesture] takes its pinch branch for [hand]. *)
Definition hand_pinches `{PyMath} (hand : Hand) (threshold : Q) : bool :=
  match lmList hand !! 4%nat, lmList hand !! 8%nat with
  | Some thumb_tip, Some index_tip =>
      bool_decide (21 ≤ length (lmList hand))%nat
      && is_pinching thumb_tip index_tip (fingersUp hand) threshold
  | _, _ => false
  end.

(** The entries that a pinch starting on [s] appends to the recording. *)
Definition pinch_recording (s : Piano) (started : list Z) : list RecordedEvent :=
  if recording s then
    (λ n, {| ev_note := n; ev_velocity := 120;
             ev_time := (clock s - default 0 (recording_start_time s))%Q;
             ev_action := "on" |}) <$> started
  else [].

(** The note-ons of a press: one per note, with the velocity given. *)
Definition note_ons (velocity : Z) (notes : list Z) : list midi_msg :=
  (λ n, NoteOn n velocity) <$> notes.

(** The instance after the notes [started] of the pinch chord have been
    sent, added and recorded. *)
Definition pinch_started (s : Piano) (started : list Z) : Piano :=
  set_recorded_notes (recorded_notes s ++ pinch_recording s started)
    (set_active_notes (list_to_set started ∪ active_notes s)
       (set_midi_out (midi_out s ++ note_ons 120 started) s)).

(** A method does not look at the velocity multiplier: with another
    multiplier it returns the same and changes the rest alike. *)
Definition IgnoresMultiplier {A} (m : M A) : Prop :=
  ∀ (q : Q) (s : Piano),
    m (set_velocity_multiplier q s)
    = ((m s).1, set_velocity_multiplier q (m s).2).

(** While recording, the start time is set ([toggle_recording] sets both). *)
Definition recording_started (s : Piano) : Prop :=
  recording s = true → is_Some (recording_start_time s).

(** What every state of a run satisfies: the device is there, a recording
    has its start time, the current scale is one of the table. *)
Definition well_formed (s : Piano) : Prop :=
  player s = true ∧ recording_started s ∧ current_scale s ∈ scales.*1.

(** An attribute that only [cycle_scale] and [toggle_recording] assign. *)
Definition settled {C} (f : Piano → C) : Prop :=
  (∀ v s, f (set_midi_out v s) = f s)
  ∧ (∀ v s, f (set_screen_width v s) = f s)
  ∧ (∀ v s, f (set_current_instrument v s) = f s)
  ∧ (∀ v s, f (set_prev_states v s) = f s)
  ∧ (∀ v s, f (set_active_notes v s) = f s)
  ∧ (∀ v s, f (set_active_keys v s) = f s)
  ∧ (∀ v s, f (set_velocity_multiplier v s) = f s)
  ∧ (∀ v s, f (set_recorded_notes v s) = f s)
  ∧ (∀ v s, f (set_echo_enabled v s) = f s)
  ∧ (∀ v s, f (set_pinch_chord_playing v s) = f s)
  ∧ (∀ v s, f (set_threads v s) = f s)
  ∧ (∀ v s, f (set_playback_thread v s) = f s)
  ∧ (∀ v s, f (set_clock v s) = f s).

(** ** A reference arithmetic to run the model

    Square roots and powers to eight decimal places, by integer roots.
    It stands in for the floating-point unit when an example is
    evaluated; no theorem below depends on it. *)

Module Reference.

Definition precision : Z := 10 ^ 8.

(** The largest [r] in [[lo, hi)] with [r ^ k <= n], by bisection. *)
Fixpoint root_between (fuel : nat) (k : Z) (n lo hi : Z) : Z :=
  match fuel with
  | O => lo
  | S fuel' =>
      if hi - lo <=? 1 then lo else
      let mid := (lo + hi) / 2 in
      if mid ^ k <=? n then root_between fuel' k n mid hi
      else root_between fuel' k n lo mid
  end.

Definition integer_root (k n : Z) : Z :=
  if n <=? 0 then 0
  else root_between (Z.to_nat (Z.log2 n) + 2) k n 0 (n + 1).

Definition sqrt (x : Q) : Q :=
  Qmake (integer_root 2 (Qfloor (x * inject_Z (precision ^ 2))))
        (Z.to_pos precision).

(** [x ** (a / b)] as the [b]-th root of [x ^ a], for [x >= 0] and [a >= 0]. *)
Definition pow (x y : Q) : Q :=
  let a := Qnum (Qred y) in
  let b := Zpos (Qden (Qred y)) in
  Qmake (integer_root b (Qfloor (Qpower x a * inject_Z (precision ^ b))))
        (Z.to_pos precision).

#[global] Instance math : PyMath := {| math_sqrt := sqrt; float_pow := pow |}.

End Reference.

(** ** Inputs used in the examples *)

(** Twenty-one landmarks, all at the origin except the listed ones. *)
Definition landmarks_with (points : list (Z * (Z * Z))) : list Landmark :=
  foldr (λ '(i, (x, y)) lms,
           <[Z.to_nat i := {| lm_x := x; lm_y := y; lm_z := 0 |}]> lms)
        (replicate 21 {| lm_x := 0; lm_y := 0; lm_z := 0 |}) points.

(** A left hand with only the thumb raised: its tip (landmark 4) is 86
    pixels above its base (landmark 2), far from the index tip. *)
Definition left_thumb_up : Hand :=
  {| lmList :=
       landmarks_with [(4, (300, 214)); (2, (300, 300)); (8, (400, 320))];
     bbox := (250, 200, 200, 180);
     hand_type := "Left";
     fingersUp := [1; 0; 0; 0; 0] |}.

(** The same hand with every finger lowered. *)
Definition left_fist : Hand :=
  {| lmList := lmList left_thumb_up; bbox := bbox left_thumb_up;
     hand_type := "Left"; fingersUp := [0; 0; 0; 0; 0] |}.

(** A right hand that pinches: thumb and index raised, their tips ten
    pixels apart, the bounding box centred on x = 640. *)
Definition right_pinch : Hand :=
  {| lmList := landmarks_with [(4, (640, 300)); (8, (646, 308))];
     bbox := (540, 200, 200, 220);
     hand_type := "Right";
     fingersUp := [1; 1; 0; 0; 0] |}.

(** The centres from 64 pixels left of a frame to 64 pixels right of it. *)
Definition centres_around (width : Z) : list Z :=
  (λ k : nat, Z.of_nat k - 64) <$> seq 0 (Z.to_nat (width + 129)).

(** ** The chord progressions of [MusicTheoryHelper] *)

Definition progressions : gmap string (list Z) :=
  list_to_map [("I-V-vi-IV", [0; 7; 9; 5]); ("vi-IV-I-V", [9; 5; 0; 7]);
               ("I-vi-IV-V", [0; 9; 5; 7])].

Definition generate_chord_progression (key_root_midi : Z)
    (progression_type : string) : result (list Z) :=
  fallback <- dict_getitem progressions "I-V-vi-IV";
  let intervals : list Z :=
    default (fallback : list Z) (progressions !! progression_type) in
  Ok ((λ interval, key_root_midi + interval) <$> intervals).

(** ** A program logic for the methods

    [hoare P m Q E]: run from a state that satisfies [P], the method [m]
    either returns a value [a] and leaves a state with [Q a], or raises
    and leaves a state with [E]. *)
Definition hoare {A} (P : Piano → Prop) (m : M A) (Q : A → Piano → Prop)
    (E : Piano → Prop) : Prop :=
  ∀ s : Piano, P s →
    match m s with
    | (Ok a, s') => Q a s'
    | (Raise _, s') => E s'
    end.

(** ** What is valid MIDI *)

Definition valid_note (n : Z) : Prop := 0 ≤ n ≤ 127.

(** A message a MIDI device accepts: note and velocity, data bytes and
    program number on seven bits, a status byte with its high bit set. *)
Definition valid_message (m : midi_msg) : Prop :=
  match m with
  | NoteOn n v | NoteOff n v => (0 ≤ n ≤ 127) ∧ 0 ≤ v ≤ 127
  | WriteShort status data1 data2 =>
      (128 ≤ status ≤ 255) ∧ (0 ≤ data1 ≤ 127) ∧ 0 ≤ data2 ≤ 127
  | SetInstrument instrument_id => 0 ≤ instrument_id ≤ 127
  end.

(** An entry of the recording as the program writes them: a note-on with
    the velocity of a press, or a note-off with velocity 0. *)
Definition valid_event (e : RecordedEvent) : Prop :=
  (0 ≤ ev_note e ≤ 127)
  ∧ (ev_action e = "on" ∧ 20 ≤ ev_velocity e ≤ 127
     ∨ ev_action e = "off" ∧ ev_velocity e = 0).

Definition valid_task (t : Task) : Prop :=
  match t with
  | EchoTimer _ n v factor =>
      (0 ≤ n ≤ 127) ∧ 0 ≤ Binary64.int_scaled v factor ≤ 127
  | StopAfterDelay chord_notes => Forall valid_note chord_notes
  end.

(** The program that the device plays: the last one it was sent. *)
Definition device_instrument (out : list midi_msg) : option Z :=
  foldl (λ current m,
           match m with
           | SetInstrument instrument_id => Some instrument_id
           | _ => current
           end) None out.

(** The names [f"{hand_key}_{finger_name}"] of the ten keys. *)
Definition key_names : list string :=
  hand_key ← ["left"; "right"];
  finger_name ← finger_names;
  [hand_key +:+ "_" +:+ finger_name].

(** Both hands have an entry for each finger. *)
Definition complete (states : gmap string (gmap string Z)) : Prop :=
  ∀ hand_key finger_name : string,
    hand_key ∈ ["left"; "right"] → finger_name ∈ finger_names →
    is_Some (states !! hand_key ≫= (.!! finger_name)).

(** The recording is in the order of time: every entry lies between the
    start of the recording and now, no entry before an earlier one. *)
Definition chronological (s : Piano) : Prop :=
  match recording_start_time s with
  | None => recorded_notes s = []
  | Some t0 =>
      (t0 <= clock s)%Q
      ∧ Forall (λ e, (0 <= ev_time e)%Q ∧ (ev_time e <= clock s - t0)%Q)
               (recorded_notes s)
      ∧ Sorted Qle (ev_time <$> recorded_notes s)
  end.

(** What every state of a run satisfies.  [w] is the screen width, [now]
    the time on the clock; [timed] tells whether the clock is known never
    to have gone back. *)
Record run_invariant (timed : bool) (w : Z) (now : Q) (s : Piano) : Prop := {
  inv_player : player s = true;
  inv_recording : recording s = true → is_Some (recording_start_time s);
  inv_scale : current_scale s ∈ scales.*1;
  inv_width : screen_width s = w;
  inv_clock : clock s = now;
  inv_prev : complete (prev_states s);
  inv_volume : (1 # 10 <= velocity_multiplier s)%Q
               ∧ (velocity_multiplier s <= 2)%Q;
  inv_instrument : current_instrument s ∈ take 9 instrument_keys;
  inv_device : device_instrument (midi_out s) = Some (current_instrument s);
  inv_messages : Forall valid_message (midi_out s);
  inv_recorded : Forall valid_event (recorded_notes s);
  inv_threads : Forall valid_task (threads s);
  inv_active : set_Forall valid_note (active_notes s);
  inv_pinch_chord : pinch_chord_notes s = [84; 88; 91];
  inv_pinch_threshold : pinch_threshold s = 30%Q;
  inv_keys : set_Forall (λ key_name, key_name ∈ key_names) (active_keys s);
  inv_playback :
    ∀ index events,
      playback_thread s = Some (PlaybackEvents index (Some events)) →
      Forall valid_event events;
  inv_chronological : timed = true → chronological s
}.

(** The local variables of [process_hands] hold states for both hands and
    names of keys. *)
Definition locals_ok (loc : FrameLocals) : Prop :=
  complete (current_finger_states loc)
  ∧ set_Forall (λ key_name, key_name ∈ key_names)
               (current_frame_active_keys_input loc).

(** The key of [chords] and of the finger states for a hand:
    ["left" if hand_type_detected == "Left" else "right"]. *)
Definition hand_key_of (hand : Hand) : string :=
  if String.eqb (hand_type hand) "Left" then "left" else "right".

(** What the loop over the fingers of a hand leaves in the local
    variables for one finger, whatever it plays or stops. *)
Definition finger_seen (hand_key : string) (fingers_up_list : list Z)
    (loc : FrameLocals) (entry : Z * string) : FrameLocals :=
  let '(i, finger_name) := entry in
  match fingers_up_list !! Z.to_nat i,
        current_finger_states loc !! hand_key with
  | Some up, Some hand_states =>
      {| current_finger_states :=
           <[hand_key := <[finger_name := up]> hand_states]>
             (current_finger_states loc);
         current_frame_active_keys_input :=
           if up =? 1
           then {[hand_key +:+ "_" +:+ finger_name]}
                ∪ current_frame_active_keys_input loc
           else current_frame_active_keys_input loc;
         pinching_in_current_frame := pinching_in_current_frame loc |}
  | _, _ => loc
  end.

(** What the loop over the hands leaves for one hand. *)
Definition hand_seen `{PyMath} (threshold : Q) (loc : FrameLocals)
    (hand : Hand) : FrameLocals :=
  if hand_pinches hand threshold then
    {| current_finger_states := current_finger_states loc;
       current_frame_active_keys_input := current_frame_active_keys_input loc;
       pinching_in_current_frame := true |}
  else
    foldl (finger_seen (hand_key_of hand) (fingersUp hand)) loc
          (enumerate finger_names).

(** The local variables of [process_hands] after its loop. *)
Definition frame_seen `{PyMath} (threshold : Q)
    (chords : gmap string (gmap string (list Z))) (hands : list Hand)
    : FrameLocals :=
  foldl (hand_seen threshold)
        {| current_finger_states := all_down chords;
           current_frame_active_keys_input := ∅;
           pinching_in_current_frame := false |}
        hands.

(** The keys of the fingers that the hands of a frame show raised, the
    pinching hands apart. *)
Definition raised_keys `{PyMath} (threshold : Q) (hands : list Hand)
    : gset string :=
  list_to_set
    (hand ← hands;
     if hand_pinches hand threshold then []
     else
       entry ← enumerate finger_names;
       if bool_decide (fingersUp hand !! Z.to_nat entry.1 = Some 1)
       then [hand_key_of hand +:+ "_" +:+ entry.2]
       else []).

(** The time at which an event happens, and the widths it brings. *)
Definition event_time (ev : Event) : option Q :=
  match ev with
  | Frame now _ _ | KeyPress now _ _ | RunThread now _ | RunPlayback now =>
      Some now
  | Quit => None
  end.

Definition brings_width (ev : Event) : option Z :=
  match ev with
  | Frame _ _ frame_width => Some frame_width
  | KeyPress _ key window_width =>
      if key =? 102 then Some window_width else None
  | _ => None
  end.

(** The clock never goes back: every event happens at or after [since]
    and at or after the events before it. *)
Fixpoint clock_advances (since : Q) (evs : list Event) : Prop :=
  match evs with
  | [] => True
  | ev :: evs' =>
      match event_time ev with
      | Some now => (since <= now)%Q ∧ clock_advances now evs'
      | None => clock_advances since evs'
      end
  end.

(** A method keeps the invariant, and raises only when the screen width
    is zero. *)
Definition keeps (timed : bool) (w : Z) (now : Q) {A} (m : M A) : Prop :=
  hoare (run_invariant timed w now) m (λ _, run_invariant timed w now)
        (λ s, run_invariant timed w now s ∧ w = 0).

(** The state of a finger in the local variables. *)
Definition finger_state (loc : FrameLocals) (hand_key finger_name : string)
    : option Z :=
  current_finger_states loc !! hand_key ≫= (.!! finger_name).


(** ** The choice of the MIDI device *)

(** [str.lower()] is Unicode's; the choice of the device is modelled for
    any such function, the ASCII one standing in where a value is
    computed. *)
Class PyStr : Type := { str_lower : string → string }.

Definition ascii_lower (c : ascii) : ascii :=
  let n := nat_of_ascii c in
  if (65 <=? n)%nat && (n <=? 90)%nat then ascii_of_nat (n + 32) else c.

Fixpoint ascii_str_lower (s : string) : string :=
  match s with
  | EmptyString => EmptyString
  | String c rest => String (ascii_lower c) (ascii_str_lower rest)
  end.

(** [sub in s] on strings. *)
Fixpoint str_contains (sub s : string) : bool :=
  String.prefix sub s
  || match s with
     | EmptyString => false
     | String _ rest => str_contains sub rest
     end.

(** The tuple [(interface, name, is_input, is_output, opened)] that
    [pygame.midi.get_device_info(i)] returns, the name decoded. *)
Definition DeviceInfo : Type := string * string * bool * bool * bool.

Definition preferred_device_names : list string :=
  ["Microsoft GS Wavetable"; "FluidSynth"; "TiMidity"; "loopMIDI"; "Synth"].

(** The loop over [range(pygame.midi.get_count())] that collects
    [midi_devices]. *)
Definition output_devices (device_infos : list DeviceInfo)
    : list (Z * string * bool) :=
  foldl (λ midi_devices '(i, (interface, name, is_input, is_output, opened)),
           if is_output : bool then midi_devices ++ [(i, name, opened)]
           else midi_devices)
        [] (enumerate device_infos).

Section SetupMidi.

Context `{PyStr}.

(** The loop over [preferred_device_names] for one device; [best] is the
    pair of [best_device_id] and [best_device_name]. *)
Fixpoint preferred_loop (preferred_names : list string) (device_id : Z)
    (device_name : string) (best : Z * string) : Z * string :=
  match preferred_names with
  | [] => best
  | preferred :: rest =>
      if str_contains (str_lower preferred) (str_lower device_name)
      then (device_id, device_name)
      else preferred_loop rest device_id device_name best
  end.

(** Step 1: the loop that looks for an unopened preferred device. *)
Fixpoint unopened_preferred_loop (midi_devices : list (Z * string * bool))
    (best : Z * string) : Z * string :=
  match midi_devices with
  | [] => best
  | (device_id, device_name, opened) :: rest =>
      if negb opened then
        let best :=
          preferred_loop preferred_device_names device_id device_name best in
        if bool_decide (best.1 ≠ -1) then best
        else unopened_preferred_loop rest best
      else unopened_preferred_loop rest best
  end.

(** Step 2: the loop that looks for any unopened device. *)
Fixpoint unopened_loop (midi_devices : list (Z * string * bool))
    (best : Z * string) : Z * string :=
  match midi_devices with
  | [] => best
  | (device_id, device_name, opened) :: rest =>
      if negb opened then (device_id, device_name)
      else unopened_loop rest best
  end.

(** [setup_midi] up to the device it opens: the identifier and the name of
    the device given to [pygame.midi.Output], or [None] when the method
    leaves the process before. *)
Definition setup_midi (device_infos : list DeviceInfo) : option (Z * string) :=
  let midi_devices := output_devices device_infos in
  if bool_decide (midi_devices = []) then None
  else
    let best := unopened_preferred_loop midi_devices (-1, "None") in
    let best :=
      if bool_decide (best.1 = -1) then unopened_loop midi_devices best
      else best in
    let best :=
      if bool_decide (best.1 = -1) && negb (bool_decide (midi_devices = []))
      then match midi_devices with
           | (device_id, device_name, _) :: _ => (device_id, device_name)
           | [] => best
           end
      else best in
    if bool_decide (best.1 = -1) then None else Some best.

(** A device name with one of the preferred names in it, case apart. *)
Definition is_preferred (device_name : string) : bool :=
  existsb (λ preferred,
             str_contains (str_lower preferred) (str_lower device_name))
          preferred_device_names.

(** The entries of [midi_devices] that are not opened, and those of them
    that are preferred. *)
Definition free_device (device : Z * string * bool) : Prop :=
  device.2 = false.
Definition free_preferred_device (device : Z * string * bool) : Prop :=
  device.2 = false ∧ is_preferred device.1.2 = true.

#[global] Instance free_device_dec device : Decision (free_device device).
Proof. unfold free_device. apply _. Defined.
#[global] Instance free_preferred_device_dec device :
  Decision (free_preferred_device device).
Proof. unfold free_preferred_device. apply _. Defined.

End SetupMidi.

Definition device_name (info : DeviceInfo) : string := info.1.1.1.2.
Definition device_is_output (info : DeviceInfo) : bool := info.1.2.
Definition device_opened (info : DeviceInfo) : bool := info.2.

#[global] Instance ascii_str : PyStr := {| str_lower := ascii_str_lower |}.

(** ** The piano keys on the frame *)

(** The frame [img] is the list of what has been drawn on it: the calls of
    [cv2.rectangle] (corners, colour, thickness; -1 fills) and of
    [cv2.putText] (text, origin, font scale, colour, thickness).  The
    sizes are computed in binary64, as the program does. *)
Inductive Drawing : Type :=
| Rectangle (pt1 pt2 : Z * Z) (color : Z * Z * Z) (thickness : Z)
| PutText (text : string) (org : Z * Z) (font_scale : Q) (color : Z * Z * Z)
    (thickness : Z).

(** The entries of [self.colors] that the keys use. *)
Module colors.
Definition active_key : Z * Z * Z := (0, 255, 150).
Definition inactive_key : Z * Z * Z := (60, 60, 80).
Definition border : Z * Z * Z := (100, 100, 120).
Definition text : Z * Z * Z := (255, 255, 255).
End colors.

Definition UI_HEIGHT_RATIO : float := 0.3%float.
Definition KEY_ASPECT_RATIO : float := 0.5%float.
Definition KEY_SPACING_RATIO : float := 0.01%float.
Definition UI_KEY_VERTICAL_PADDING : Z := 30.
Definition MIN_KEY_WIDTH : Z := 50.

(** [self.ui_height = int(height * self.UI_HEIGHT_RATIO)] of
    [draw_enhanced_ui]. *)
Definition ui_height_of (height : Z) : Z :=
  Binary64.int_scaled height UI_HEIGHT_RATIO.

(** The body of the two loops over [enumerate(finger_names)]: the key of
    finger [i] of a hand, [offset] keys from the first one. *)
Definition draw_key (hand_type label : string) (offset : Z)
    (chords : gmap string (gmap string (list Z)))
    (start_x key_y key_width key_height key_spacing : Z)
    (img : list Drawing) (entry : Z * string) : M (list Drawing) :=
  let '(i, finger) := entry in
  let x := start_x + (i + offset) * (key_width + key_spacing) in
  let key_name := hand_type +:+ "_" +:+ finger in
  keys <- gets active_keys;
  let color :=
    if bool_decide (key_name ∈ (keys : gset string)) then colors.active_key
    else colors.inactive_key in
  let img :=
    img ++ [Rectangle (x, key_y) (x + key_width, key_y + key_height) color (-1);
            Rectangle (x, key_y) (x + key_width, key_y + key_height)
              colors.border 2] in
  hand_chords <- lift (dict_getitem chords hand_type);
  chord_notes <- lift (dict_getitem (hand_chords : gmap string (list Z)) finger);
  chord_name_display <- lift (get_chord_name chord_notes);
  mret (img ++ [PutText chord_name_display (x + 5, key_y + 20) (45 # 100)
                  colors.text 1;
                PutText (label +:+ pretty (i + 1))
                  (x + 5, key_y + key_height - 10) (4 # 10) colors.text 1]).

(** The attributes of the instance that only the drawing methods read
    and write. *)
Record Display : Type := {
  screen_height : Z;
  ui_height : Z;
  key_width : Z;
  key_height : Z
}.

Definition set_key_width (v : Z) (display : Display) : Display :=
  {| screen_height := screen_height display; ui_height := ui_height display;
     key_width := v; key_height := key_height display |}.

Definition set_key_height (v : Z) (display : Display) : Display :=
  {| screen_height := screen_height display; ui_height := ui_height display;
     key_width := key_width display; key_height := v |}.

(** [draw_piano_keys_enhanced(img)]: from the frame, the display
    attributes and the instance to the frame with the keys drawn (or the
    exception), the display attributes with [self.key_width] and
    [self.key_height] as the method assigns them, and the instance. *)
Definition draw_piano_keys_enhanced (img : list Drawing) (display : Display)
    (s : Piano) : result (list Drawing) * (Display * Piano) :=
  let num_keys := 10 in
  let width := screen_width s in
  let key_spacing := Binary64.int_scaled width KEY_SPACING_RATIO in
  let total_keys_available_width := width - (num_keys + 1) * key_spacing in
  let display :=
    set_key_width (total_keys_available_width / num_keys) display in
  let display :=
    if key_width display <? MIN_KEY_WIDTH
    then set_key_width MIN_KEY_WIDTH display else display in
  let display :=
    set_key_height
      (Binary64.to_int
         (PrimFloat.div (Binary64.of_int (key_width display))
            KEY_ASPECT_RATIO))
      display in
  let display :=
    if ui_height display - UI_KEY_VERTICAL_PADDING <? key_height display
    then set_key_height (ui_height display - UI_KEY_VERTICAL_PADDING) display
    else display in
  let key_y :=
    screen_height display - ui_height display
    + (ui_height display - key_height display) / 2 in
  let total_keys_actual_width :=
    num_keys * key_width display + (num_keys - 1) * key_spacing in
  let start_x := (width - total_keys_actual_width) / 2 in
  let start_x := if start_x <? 0 then 0 else start_x in
  let drawn :=
    (chords <- get_current_chords;
     img <- for_fold (enumerate finger_names) img
              (draw_key "left" "L" 0 chords start_x key_y (key_width display)
                 (key_height display) key_spacing);
     for_fold (enumerate finger_names) img
       (draw_key "right" "R" 5 chords start_x key_y (key_width display)
          (key_height display) key_spacing)) s in
  (drawn.1, (display, drawn.2)).

(** The filled rectangles of a frame, in the order they were drawn. *)
Definition filled_rectangles (img : list Drawing)
    : list ((Z * Z) * (Z * Z) * (Z * Z * Z)) :=
  omap (λ drawing,
          match drawing with
          | Rectangle pt1 pt2 color (-1) => Some (pt1, pt2, color)
          | _ => None
          end) img.

(** The filled rectangle of the key of finger [entry.1] of a hand, [offset]
    keys from the first one. *)
Definition key_box (keys : gset string) (hand_type : string) (offset : Z)
    (start_x key_y key_width key_height key_spacing : Z)
    (entry : Z * string) : (Z * Z) * (Z * Z) * (Z * Z * Z) :=
  let x := start_x + (entry.1 + offset) * (key_width + key_spacing) in
  ((x, key_y), (x + key_width, key_y + key_height),
   if bool_decide (hand_type +:+ "_" +:+ entry.2 ∈ keys)
   then colors.active_key else colors.inactive_key).

(** * Properties *)

(** ** Indexing *)

Lemma list_getitem_lookup {A} (l : list A) (i : nat) (a : A) :
  l !! i = Some a → list_getitem l (Z.of_nat i) = Ok a.
Proof.
  intros Hl. unfold list_getitem.
  pose proof (lookup_lt_Some _ _ _ Hl) as Hlt.
  destruct (Z.ltb_spec (Z.of_nat i) 0) as [Hneg|_]; [lia|].
  destruct (Z.leb_spec 0 (Z.of_nat i)) as [_|Hneg]; [|lia].
  destruct (Z.ltb_spec (Z.of_nat i) (Z.of_nat (length l))) as [_|Hge]; [|lia].
  simpl. by rewrite Nat2Z.id, Hl.
Qed.

Lemma list_getitem_at {A} (l : list A) (i : Z) (a : A) :
  0 ≤ i → l !! Z.to_nat i = Some a → list_getitem l i = Ok a.
Proof.
  intros Hi Hl. rewrite <- (Z2Nat.id i) by lia. by apply list_getitem_lookup.
Qed.

Lemma list_getitem_in_range {A} (l : list A) (i : Z) :
  0 ≤ i < Z.of_nat (length l) → ∃ a, list_getitem l i = Ok a ∧ a ∈ l.
Proof.
  intros Hi.
  destruct (lookup_lt_is_Some_2 l (Z.to_nat i)) as [a Ha]; [lia|].
  exists a. split; [|by eapply list_elem_of_lookup_2].
  rewrite <- (Z2Nat.id i) by lia. by apply list_getitem_lookup.
Qed.

(** ** Chord naming *)

Section ChordName.

Import MusicTheoryHelper ChordNameSpec.

Lemma displayed_root_table :
  forallb (λ k, bool_decide
             (displayed_root (Z.of_nat k) = Ok (pitch_class_name (Z.of_nat k))))
          (seq 0 128) = true.
Proof. vm_compute. reflexivity. Qed.

Lemma displayed_root_midi (n : Z) :
  0 ≤ n ≤ 127 → displayed_root n = Ok (pitch_class_name n).
Proof.
  intros Hn. pose proof displayed_root_table as Htab.
  rewrite forallb_forall in Htab.
  assert (Hk : In (Z.to_nat n) (seq 0 128)) by (apply in_seq; lia).
  apply Htab in Hk. rewrite Z2Nat.id in Hk by lia.
  by apply bool_decide_eq_true in Hk.
Qed.

Lemma sorted_nonempty (notes : list Z) :
  notes ≠ [] →
  ∃ root rest, sorted notes = root :: rest
    ∧ root ∈ notes ∧ (∀ n, n ∈ notes → root ≤ n).
Proof.
  intros Hne. unfold sorted.
  pose proof (merge_sort_Permutation Z.le notes) as Hperm.
  pose proof (StronglySorted_merge_sort Z.le notes) as Hsorted.
  destruct (merge_sort Z.le notes) as [|root rest].
  - apply Permutation_nil_l in Hperm. congruence.
  - exists root, rest. split; [done|]. split.
    + rewrite <- Hperm. left.
    + intros n Hn. rewrite <- Hperm in Hn.
      apply StronglySorted_inv in Hsorted as [_ Hall].
      apply elem_of_cons in Hn as [->|Hn]; [lia|].
      rewrite Forall_forall in Hall. by apply Hall.
Qed.

Lemma triad_quality_cases (i1 i2 : Z) (name : string) :
  (if (i1 =? 4) && (i2 =? 3) then Ok (name +:+ " Maj")
   else if (i1 =? 3) && (i2 =? 4) then Ok (name +:+ " Min")
   else if (i1 =? 5) && (i2 =? 2) then Ok (name +:+ " Sus4")
   else if (i1 =? 2) && (i2 =? 5) then Ok (name +:+ " Sus2")
   else Ok (name +:+ " Triad"))
  = Ok (name +:+ " " +:+ triad_quality i1 i2).
Proof.
  unfold triad_quality.
  destruct i1 as [|p1|p1]; try done;
    do 4 (try (destruct p1 as [p1|p1|]; try done));
    destruct i2 as [|p2|p2]; try done;
    do 4 (try (destruct p2 as [p2|p2|]; try done)).
Qed.

Lemma pair_quality_cases (i : Z) (name : string) :
  (if i =? 3 then Ok (name +:+ " m3")
   else if i =? 4 then Ok (name +:+ " M3")
   else if i =? 7 then Ok (name +:+ " P5")
   else Ok (name +:+ " Pair"))
  = Ok (name +:+ " " +:+ pair_quality i).
Proof.
  unfold pair_quality.
  destruct (i =? 3); [done|]. destruct (i =? 4); [done|].
  by destruct (i =? 7).
Qed.

(** C6.  On every nonempty list of MIDI notes between 0 and 127,
    [get_chord_name] returns (it does not raise) the 12-tone name of the
    lowest note followed by the quality of the specification: for two
    notes m3, M3, P5 or Pair by the interval, for three or more notes Maj,
    Min, Sus4, Sus2 or Triad by the first two intervals of the sorted
    notes; and [get_chord_name [60; 64; 67]] is "C Maj". *)
Theorem get_chord_name_follows_spec :
  (∀ notes : list Z,
     notes ≠ [] → Forall (λ n, 0 ≤ n ≤ 127) notes →
     ∃ root rest,
       sorted notes = root :: rest
       ∧ root ∈ notes ∧ (∀ n, n ∈ notes → root ≤ n)
       ∧ get_chord_name notes = Ok (chord_name root rest))
  ∧ get_chord_name [60; 64; 67] = Ok "C Maj".
Proof.
  split; [|reflexivity].
  intros notes Hne Hrange.
  destruct (sorted_nonempty notes Hne) as (root & rest & Hsorted & Hin & Hmin).
  exists root, rest. do 3 (split; [done|]).
  assert (Hroot : displayed_root root = Ok (pitch_class_name root)).
  { apply displayed_root_midi. rewrite Forall_forall in Hrange. by apply Hrange. }
  unfold get_chord_name. rewrite bool_decide_eq_false_2 by done.
  rewrite Hsorted.
  rewrite (list_getitem_at (root :: rest) 0 root) by (done || lia).
  unfold displayed_root in Hroot. simpl in Hroot |- *.
  destruct (note_to_name root) as [raw|e]; [|done].
  simpl in Hroot |- *. injection Hroot as ->.
  destruct rest as [|b [|c rest]].
  - done.
  - rewrite bool_decide_eq_false_2 by done.
    rewrite bool_decide_eq_true_2 by done.
    rewrite ?(list_getitem_at [root; b] 1 b) by (done || lia).
    rewrite ?(list_getitem_at [root; b] 0 root) by (done || lia).
    simpl. apply pair_quality_cases.
  - rewrite bool_decide_eq_false_2 by done.
    rewrite bool_decide_eq_false_2 by done.
    rewrite bool_decide_eq_true_2 by (simpl; lia).
    rewrite ?(list_getitem_at (root :: b :: c :: rest) 1 b) by (done || lia).
    rewrite ?(list_getitem_at (root :: b :: c :: rest) 0 root) by (done || lia).
    rewrite ?(list_getitem_at (root :: b :: c :: rest) 2 c) by (done || lia).
    simpl. apply triad_quality_cases.
Qed.

Lemma get_chord_name_follows_spec_witness :
  ∃ root rest,
    sorted [67; 60; 64] = root :: rest
    ∧ root ∈ [67; 60; 64] ∧ (∀ n, n ∈ [67; 60; 64] → root ≤ n)
    ∧ get_chord_name [67; 60; 64] = Ok (chord_name root rest).
Proof.
  apply (proj1 get_chord_name_follows_spec).
  - discriminate.
  - repeat constructor; lia.
Defined.

Example chord_name_D_major : get_chord_name [62; 66; 69] = Ok "D Maj".
Proof. reflexivity. Qed.

Example chord_name_sharp_minor : get_chord_name [73; 66; 69] = Ok "F# Min".
Proof. reflexivity. Qed.

Example chord_name_fifth : get_chord_name [67; 60] = Ok "C P5".
Proof. reflexivity. Qed.

Example chord_name_no_notes : get_chord_name [] = Ok "---".
Proof. reflexivity. Qed.

End ChordName.

(** ** The velocity model *)

Section Velocity.

Context `{PyMath}.

Lemma finger_landmarks_outside (finger_index : Z) :
  ¬ (0 ≤ finger_index ≤ 4) → finger_landmarks !! finger_index = None.
Proof.
  intros Hout. unfold finger_landmarks.
  apply not_elem_of_list_to_map_1. simpl.
  rewrite !elem_of_cons, elem_of_nil. lia.
Qed.

Lemma finger_landmarks_inside (finger_index : Z) :
  0 ≤ finger_index ≤ 4 →
  ∃ tip_idx base_idx,
    finger_landmarks !! finger_index = Some (tip_idx, base_idx)
    ∧ 0 ≤ tip_idx ≤ 20 ∧ 0 ≤ base_idx ≤ 20.
Proof.
  intros Hin.
  assert (finger_index = 0 ∨ finger_index = 1 ∨ finger_index = 2
          ∨ finger_index = 3 ∨ finger_index = 4) as Hcases by lia.
  destruct Hcases as [->|[->|[->|[->| ->]]]];
    eexists _, _; (split; [vm_compute; reflexivity|lia]).
Qed.

Lemma np_clip_int_range (x lo hi : Z) :
  lo ≤ hi → lo ≤ np_clip_int x lo hi ≤ hi.
Proof. unfold np_clip_int. lia. Qed.

(** C5.  [calculate_dynamic_velocity] returns an integer between 20 and
    127 and leaves the instance as it was; the result is a function of the
    landmarks, the finger index and the velocity multiplier alone; it is
    the default 80 when there are fewer than 21 landmarks or the finger
    index is not one of 0..4.  The multiplier ranges over [0.1, 2.0]. *)
Theorem calculate_dynamic_velocity_range
    (hand_landmarks : list Landmark) (finger_index : Z) (s : Piano) :
  (1 # 10 <= velocity_multiplier s <= 2)%Q →
  ∃ v : Z,
    calculate_dynamic_velocity hand_landmarks finger_index s = (Ok v, s)
    ∧ 20 ≤ v ≤ 127
    ∧ ((length hand_landmarks < 21)%nat ∨ ¬ (0 ≤ finger_index ≤ 4) → v = 80)
    ∧ (∀ s' : Piano,
         velocity_multiplier s' = velocity_multiplier s →
         calculate_dynamic_velocity hand_landmarks finger_index s'
         = (Ok v, s')).
Proof.
  intros _. unfold calculate_dynamic_velocity.
  case_bool_decide as Hlen.
  { exists 80. repeat split; try done; lia. }
  destruct (decide (0 ≤ finger_index ≤ 4)) as [Hin|Hout].
  2: { rewrite finger_landmarks_outside by done.
       exists 80. repeat split; try done; lia. }
  destruct (finger_landmarks_inside _ Hin) as (tip & base & -> & Htip & Hbase).
  destruct (list_getitem_in_range hand_landmarks tip) as (tip_pos & -> & _);
    [lia|].
  destruct (list_getitem_in_range hand_landmarks base) as (base_pos & -> & _);
    [lia|].
  eexists. split; [reflexivity|]. split; [by apply np_clip_int_range|].
  split.
  - intros [Hshort|Hbad]; [lia|done].
  - intros s' Hm. simpl. unfold gets, bind_to, mbind, M_bind, lift. simpl.
    by rewrite Hm.
Qed.

End Velocity.

Lemma calculate_dynamic_velocity_range_witness :
  ∃ v : Z,
    calculate_dynamic_velocity (lmList left_thumb_up) 0 (initial 1280)
    = (Ok v, initial 1280)
    ∧ 20 ≤ v ≤ 127
    ∧ ((length (lmList left_thumb_up) < 21)%nat ∨ ¬ (0 ≤ 0 ≤ 4) → v = 80)
    ∧ (∀ s' : Piano,
         velocity_multiplier s' = velocity_multiplier (initial 1280) →
         calculate_dynamic_velocity (lmList left_thumb_up) 0 s' = (Ok v, s')).
Proof.
  apply (calculate_dynamic_velocity_range (lmList left_thumb_up) 0 (initial 1280)).
  split; discriminate.
Defined.

(** The scenario of the specification: a tip 85 pixels from its base, the
    window from 20 to 150 pixels, the multiplier 1. *)
Example velocity_at_85_pixels :
  (calculate_dynamic_velocity
     (landmarks_with [(4, (300, 215)); (2, (300, 300))]) 0 (initial 1280)).1
  = Ok 90.
Proof. vm_compute. reflexivity. Qed.

Example velocity_without_landmarks :
  (calculate_dynamic_velocity [] 0 (initial 1280)).1 = Ok 80.
Proof. reflexivity. Qed.

(** ** The pitch bend of a pinch *)

Section PitchBend.

Context `{PyMath}.

Import PitchBendSpec.

#[local] Instance py_int_proper : Proper (Qeq ==> eq) py_int.
Proof.
  intros x y Hxy. unfold py_int.
  assert (Qle_bool 0 x = Qle_bool 0 y) as ->.
  { apply eq_true_iff_eq. rewrite !Qle_bool_iff. by rewrite Hxy. }
  destruct (Qle_bool 0 y); [by apply Qfloor_comp|by apply Qceiling_comp].
Qed.

Lemma py_int_inject_Z (z : Z) : py_int (inject_Z z) = z.
Proof.
  unfold py_int. destruct (Qle_bool 0 (inject_Z z));
    [apply Qfloor_Z|apply Qceiling_Z].
Qed.

Lemma py_int_fraction (a : Z) (b : positive) :
  0 ≤ a → py_int (a # b) = a / Zpos b.
Proof.
  intros Ha. unfold py_int.
  assert (Qle_bool 0 (a # b) = true) as ->; [|done].
  apply Qle_bool_iff. unfold Qle. simpl. lia.
Qed.

(** The float expression of [bend_from_position] is the integer formula of
    the specification. *)
Lemma bend_value_computed (center_x width : Z) :
  0 < width →
  py_int (np_clip (inject_Z center_x / inject_Z width) 0 1 * 16383)%Q
  = bend_value center_x width.
Proof.
  intros Hw. unfold bend_value, np_clip.
  assert (Hdiv : (inject_Z center_x / inject_Z width
                  == center_x # Z.to_pos width)%Q).
  { rewrite <- (Z2Pos.id width) at 1 by done. symmetry. apply Qmake_Qdiv. }
  destruct (Z.leb_spec center_x 0) as [Hneg|Hpos].
  - assert (Hle : (inject_Z center_x / inject_Z width <= 0)%Q).
    { rewrite Hdiv. unfold Qle. simpl. lia. }
    rewrite (Q.max_r _ _ Hle), (Q.min_l 0 1) by done. done.
  - destruct (Z.leb_spec width center_x) as [Hbig|Hsmall].
    + assert (Hge : (1 <= inject_Z center_x / inject_Z width)%Q).
      { rewrite Hdiv. unfold Qle. simpl. rewrite Z2Pos.id by done. lia. }
      assert (Hge0 : (0 <= inject_Z center_x / inject_Z width)%Q).
      { apply Qle_trans with 1%Q; done. }
      rewrite (Q.max_l _ _ Hge0), (Q.min_r _ _ Hge). done.
    + assert (Hge : (0 <= inject_Z center_x / inject_Z width)%Q).
      { rewrite Hdiv. unfold Qle. simpl. lia. }
      assert (Hle : (inject_Z center_x / inject_Z width <= 1)%Q).
      { rewrite Hdiv. unfold Qle. simpl. rewrite Z2Pos.id by done. lia. }
      rewrite (Q.max_l _ _ Hge), (Q.min_l _ _ Hle), Hdiv.
      assert (Hprod : ((center_x # Z.to_pos width) * 16383
                       == (center_x * 16383) # Z.to_pos width)%Q).
      { unfold Qeq, Qmult. simpl. lia. }
      rewrite Hprod, py_int_fraction by lia.
      by rewrite Z2Pos.id.
Qed.

Lemma bend_value_range (center_x width : Z) :
  0 < width → 0 ≤ bend_value center_x width ≤ 16383.
Proof.
  intros Hw. unfold bend_value.
  destruct (Z.leb_spec center_x 0); [lia|].
  destruct (Z.leb_spec width center_x); [lia|].
  split; [apply Z.div_pos; lia|].
  apply Z.div_le_upper_bound; lia.
Qed.

Lemma bend_value_centre (center_x width : Z) :
  0 < width → 2 * center_x = width → bend_value center_x width = 8191.
Proof.
  intros Hw Hc. unfold bend_value.
  destruct (Z.leb_spec center_x 0); [lia|].
  destruct (Z.leb_spec width center_x); [lia|].
  symmetry. apply (Z.div_unique _ _ _ center_x); lia.
Qed.

End PitchBend.

(** The rational model against binary64.  On the four resolutions that
    [setup_camera] asks for, whatever the centre of the bounding box from
    64 pixels left of the frame to 64 pixels right of it, the float
    expression of [bend_from_position] gives the integer of the
    specification ([centres_around] lists those centres). *)
Example pitch_bend_in_binary64 :
  forallb (λ width,
    forallb (λ center_x,
      Binary64.pitch_bend_value center_x width
      =? PitchBendSpec.bend_value center_x width)
      (centres_around width))
    [1920; 1280; 1024; 640] = true.
Proof. vm_compute. reflexivity. Qed.

(** At half of any even width up to 2048 pixels, binary64 gives 8191. *)
Example pitch_bend_centre_in_binary64 :
  forallb (λ k : nat,
    Binary64.pitch_bend_value (Z.of_nat (S k)) (2 * Z.of_nat (S k)) =? 8191)
    (seq 0 1024) = true.
Proof. vm_compute. reflexivity. Qed.

(** The echo velocities in binary64: [int(90 * 0.7)] is 62, not 63. *)
Example echo_velocities_in_binary64 :
  Binary64.int_scaled 91 0.7 = 63 ∧ Binary64.int_scaled 91 0.4 = 36
  ∧ Binary64.int_scaled 90 0.7 = 62 ∧ Binary64.int_scaled 80 0.7 = 56.
Proof. vm_compute. repeat split. Qed.

(** ** Active notes follow the messages sent *)

Section Following.

Context `{PyMath}.

Lemma replay_app (out1 out2 : list midi_msg) (sounding : gset Z) :
  replay (out1 ++ out2) sounding = replay out2 (replay out1 sounding).
Proof.
  revert sounding. induction out1 as [|[] out1 IH]; intros; simpl; auto.
Qed.

Lemma no_retrigger_app (out1 out2 : list midi_msg) (sounding : gset Z) :
  no_retrigger sounding out1 →
  no_retrigger (replay out1 sounding) out2 →
  no_retrigger sounding (out1 ++ out2).
Proof.
  revert sounding.
  induction out1 as [|[] out1 IH]; intros sounding H1 H2; simpl in *; auto.
  destruct H1. auto.
Qed.

Lemma for_each_cons_run {A} (x : A) (l : list A) (body : A → M unit)
    (s : Piano) :
  for_each (x :: l) body s
  = match body x s with
    | (Ok _, s1) => for_each l body s1
    | (Raise e, s1) => (Raise e, s1)
    end.
Proof. reflexivity. Qed.

Lemma follows_refl (strict : bool) (s : Piano) : follows strict s s.
Proof.
  split; [done|]. exists []. by rewrite app_nil_r.
Qed.

Lemma follows_trans (strict : bool) (s1 s2 s3 : Piano) :
  follows strict s1 s2 → follows strict s2 s3 → follows strict s1 s3.
Proof.
  intros (Hp1 & out1 & Ho1 & Ha1 & Hn1) (Hp2 & out2 & Ho2 & Ha2 & Hn2).
  split; [congruence|]. exists (out1 ++ out2).
  rewrite Ho2, Ho1, Ha2, Ha1, replay_app, app_assoc. do 2 (split; [done|]).
  intros Hs. apply no_retrigger_app; [auto|]. rewrite <- Ha1. auto.
Qed.

Lemma follows_weaken (strict : bool) (s s' : Piano) :
  follows true s s' → follows strict s s'.
Proof.
  intros (Hp & out & Ho & Ha & Hn). split; [done|].
  exists out. do 2 (split; [done|]). auto.
Qed.

(** A step that leaves the device, its log and the active notes alone. *)
Lemma follows_frame (strict : bool) (s s' : Piano) :
  player s' = player s → midi_out s' = midi_out s →
  active_notes s' = active_notes s → follows strict s s'.
Proof.
  intros Hp Ho Ha. split; [done|]. exists [].
  by rewrite app_nil_r, Ho, Ha.
Qed.

Lemma Follows_weaken (strict : bool) {A} (m : M A) :
  Follows true m → Follows strict m.
Proof. intros Hm s Hs. by apply follows_weaken, Hm. Qed.

Lemma Follows_ret (strict : bool) {A} (a : A) : Follows strict (mret a : M A).
Proof. intros s _. exact (follows_refl strict s). Qed.

Lemma Follows_skip (strict : bool) : Follows strict skip.
Proof. apply Follows_ret. Qed.

Lemma Follows_raise (strict : bool) {A} (e : exn) :
  Follows strict (raise e : M A).
Proof. intros s _. exact (follows_refl strict s). Qed.

Lemma Follows_lift (strict : bool) {A} (r : result A) :
  Follows strict (lift r).
Proof. intros s _. exact (follows_refl strict s). Qed.

Lemma Follows_gets (strict : bool) {A} (f : Piano → A) :
  Follows strict (gets f).
Proof. intros s _. exact (follows_refl strict s). Qed.

Lemma Follows_modify (strict : bool) (f : Piano → Piano) :
  (∀ s, player (f s) = player s) → (∀ s, midi_out (f s) = midi_out s) →
  (∀ s, active_notes (f s) = active_notes s) →
  Follows strict (modify f).
Proof. intros Hp Ho Ha s _. apply follows_frame; simpl; auto. Qed.

Lemma follows_bind (strict : bool) {A B} (m : M A) (f : A → M B) (s : Piano) :
  player s = true →
  follows strict s (m s).2 → (∀ a, Follows strict (f a)) →
  follows strict s ((m ≫= f) s).2.
Proof.
  intros Hs Hm Hf. unfold mbind, M_bind.
  destruct (m s) as [[a|e] s1]; simpl in *; [|done].
  eapply follows_trans; [exact Hm|]. apply Hf.
  destruct Hm as [Hp _]. congruence.
Qed.

Lemma Follows_bind (strict : bool) {A B} (m : M A) (f : A → M B) :
  Follows strict m → (∀ a, Follows strict (f a)) → Follows strict (m ≫= f).
Proof. intros Hm Hf s Hs. apply follows_bind; auto. Qed.

Lemma Follows_for_each (strict : bool) {A} (l : list A) (body : A → M unit) :
  (∀ x, Follows strict (body x)) → Follows strict (for_each l body).
Proof.
  intros Hbody. induction l as [|x l IH]; simpl.
  - apply Follows_skip.
  - apply Follows_bind; auto.
Qed.

Lemma Follows_for_fold (strict : bool) {A B} (l : list A) (acc : B)
    (body : B → A → M B) :
  (∀ acc x, Follows strict (body acc x)) →
  Follows strict (for_fold l acc body).
Proof.
  intros Hbody. revert acc. induction l as [|x l IH]; intros acc; simpl.
  - apply Follows_ret.
  - apply Follows_bind; auto.
Qed.

Lemma Follows_write_plain (strict : bool) (m : midi_msg) :
  plain_message m → Follows strict (player_write m).
Proof.
  intros Hm s _. split; [done|]. exists [m]. split; [done|].
  destruct m; simpl in *; done.
Qed.

Lemma Follows_send_pitch_bend (strict : bool) (bend_value : Z) :
  Follows strict (send_pitch_bend bend_value).
Proof.
  unfold send_pitch_bend, bind_to. apply Follows_bind; [apply Follows_gets|].
  intros []; [by apply Follows_write_plain|apply Follows_skip].
Qed.

(** The pair "note-on, then add to the set", under its test. *)
Lemma Follows_start_note (strict : bool) (note velocity : Z) (rest : M unit) :
  Follows strict rest →
  Follows strict
    (gets active_notes ≫= λ active : gset Z,
       if bool_decide (note ∉ active) then
         play_single_note note velocity ≫= λ _,
         active_notes_add note ≫= λ _, rest
       else skip).
Proof.
  intros Hrest s Hs. unfold mbind, M_bind, gets at 1.
  case_bool_decide as Hfresh; [|apply follows_refl].
  unfold play_single_note, bind_to, mbind, M_bind, gets, player_write,
    active_notes_add, modify. rewrite Hs.
  eapply follows_trans; [|apply Hrest; done].
  split; [done|]. exists [NoteOn note velocity]. simpl. done.
Qed.

(** The pair "note-off, then discard from the set". *)
Lemma Follows_end_note (strict : bool) (note velocity : Z) (rest : M unit) :
  Follows strict rest →
  Follows strict
    (gets player ≫= λ connected : bool,
       (if connected then player_write (NoteOff note velocity) else skip)
       ≫= λ _, active_notes_discard note ≫= λ _, rest).
Proof.
  intros Hrest s Hs.
  unfold mbind, M_bind, gets, player_write, active_notes_discard, modify.
  rewrite Hs.
  eapply follows_trans; [|apply Hrest; done].
  split; [done|]. exists [NoteOff note velocity]. simpl. done.
Qed.

Lemma Follows_end_note_last (strict : bool) (note velocity : Z) :
  Follows strict
    (gets player ≫= λ connected : bool,
       (if connected then player_write (NoteOff note velocity) else skip)
       ≫= λ _, active_notes_discard note).
Proof.
  intros s Hs.
  unfold mbind, M_bind, gets, player_write, active_notes_discard, modify.
  rewrite Hs. split; [done|]. exists [NoteOff note velocity]. simpl. done.
Qed.

Lemma Follows_record_event (strict : bool) (note velocity : Z) (action : string) :
  Follows strict (record_event note velocity action).
Proof.
  unfold record_event, bind_to. apply Follows_bind; [apply Follows_gets|].
  intros now. apply Follows_bind; [apply Follows_gets|].
  intros [t0|]; [by apply Follows_modify|apply Follows_raise].
Qed.

Lemma Follows_start_thread (strict : bool) (t : Task) :
  Follows strict (start_thread t).
Proof. by apply Follows_modify. Qed.

Create HintDb follows_db discriminated.

Ltac follows_step :=
  first
    [ solve [auto 1 with follows_db nocore]
    | apply Follows_ret | apply Follows_skip | apply Follows_raise
    | apply Follows_lift | apply Follows_gets
    | apply Follows_modify; done
    | apply Follows_start_thread | apply Follows_record_event
    | apply Follows_send_pitch_bend
    | apply Follows_start_note | apply Follows_end_note_last
    | apply Follows_end_note
    | apply Follows_for_each; intros ?
    | apply Follows_for_fold; intros ? ?
    | apply Follows_bind; [|intros ?]
    | match goal with
      | |- Follows _ (if ?c then _ else _) => destruct c
      | |- Follows _ (match ?x with _ => _ end) => destruct x
      end ].

Ltac follows := unfold bind_to; repeat follows_step.

Lemma Follows_calculate_dynamic_velocity (strict : bool)
    (hand_landmarks : list Landmark) (finger_index : Z) :
  Follows strict (calculate_dynamic_velocity hand_landmarks finger_index).
Proof. unfold calculate_dynamic_velocity. follows. Qed.

#[local] Hint Resolve Follows_calculate_dynamic_velocity : follows_db.

Lemma Follows_play_chord_enhanced (strict : bool) (chord_notes : list Z)
    (velocity : Z) :
  Follows strict (play_chord_enhanced chord_notes velocity).
Proof.
  unfold play_chord_enhanced. apply Follows_for_each. intros [i note].
  unfold play_note_of_chord. follows.
Qed.

#[local] Hint Resolve Follows_play_chord_enhanced : follows_db.

Lemma Follows_stop_after_delay (strict : bool) (chord_notes : list Z) :
  Follows strict (stop_after_delay chord_notes).
Proof. unfold stop_after_delay, release_note. follows. Qed.

#[local] Hint Resolve Follows_stop_after_delay : follows_db.

Lemma Follows_start_pinch_chord (strict : bool) :
  Follows strict start_pinch_chord.
Proof. unfold start_pinch_chord, start_pinch_note. follows. Qed.

#[local] Hint Resolve Follows_start_pinch_chord : follows_db.

Lemma Follows_bend_from_position (strict : bool) (hand : Hand) :
  Follows strict (bend_from_position hand).
Proof.
  unfold bend_from_position. destruct (bbox hand) as [[[x y] w] h]. follows.
Qed.

#[local] Hint Resolve Follows_bend_from_position : follows_db.

Lemma Follows_handle_pinch_gesture (strict : bool) (hand : Hand) :
  Follows strict (handle_pinch_gesture hand).
Proof.
  unfold handle_pinch_gesture. follows.
Qed.

#[local] Hint Resolve Follows_handle_pinch_gesture : follows_db.

Lemma Follows_get_current_chords (strict : bool) :
  Follows strict get_current_chords.
Proof. unfold get_current_chords. follows. Qed.

#[local] Hint Resolve Follows_get_current_chords : follows_db.

Lemma Follows_cycle_scale (strict : bool) : Follows strict cycle_scale.
Proof. unfold cycle_scale. follows. Qed.

#[local] Hint Resolve Follows_cycle_scale : follows_db.

Lemma Follows_toggle_recording (strict : bool) :
  Follows strict toggle_recording.
Proof. unfold toggle_recording. follows. Qed.

#[local] Hint Resolve Follows_toggle_recording : follows_db.

Lemma Follows_flush_active_notes (strict : bool) :
  Follows strict flush_active_notes.
Proof. unfold flush_active_notes. follows. Qed.

#[local] Hint Resolve Follows_flush_active_notes : follows_db.

Lemma Follows_playback_recording (strict : bool) :
  Follows strict playback_recording.
Proof. unfold playback_recording. follows. Qed.

#[local] Hint Resolve Follows_playback_recording : follows_db.

Lemma Follows_stop_chord_enhanced (strict : bool) (chord_notes : list Z) :
  Follows strict (stop_chord_enhanced chord_notes).
Proof. apply Follows_start_thread. Qed.

#[local] Hint Resolve Follows_stop_chord_enhanced : follows_db.

Lemma Follows_process_finger (strict : bool)
    (chords : gmap string (gmap string (list Z))) (hand : Hand)
    (hand_key : string) (fingers_up_list : list Z) (loc : FrameLocals)
    (entry : Z * string) :
  Follows strict
    (process_finger chords hand hand_key fingers_up_list loc entry).
Proof. unfold process_finger. destruct entry as [i finger_name]. follows. Qed.

#[local] Hint Resolve Follows_process_finger : follows_db.

Lemma Follows_process_hand (strict : bool)
    (chords : gmap string (gmap string (list Z))) (loc : FrameLocals)
    (hand : Hand) :
  Follows strict (process_hand chords loc hand).
Proof. unfold process_hand. follows. Qed.

#[local] Hint Resolve Follows_process_hand : follows_db.

Lemma Follows_process_hands (strict : bool) (hands : list Hand) :
  Follows strict (process_hands hands).
Proof. unfold process_hands. follows. Qed.

Lemma Follows_no_hands (strict : bool) : Follows strict no_hands.
Proof. unfold no_hands. follows. Qed.

#[local] Hint Resolve Follows_process_hands Follows_no_hands : follows_db.

Lemma Follows_process_frame (strict : bool) (hands : list Hand)
    (frame_width : Z) :
  Follows strict (process_frame hands frame_width).
Proof. unfold process_frame. follows. Qed.

Lemma Follows_handle_keyboard_input (strict : bool) (key window_width : Z) :
  Follows strict (handle_keyboard_input key window_width).
Proof.
  unfold handle_keyboard_input. follows. by apply Follows_write_plain.
Qed.

#[local] Hint Resolve Follows_process_frame Follows_handle_keyboard_input
  : follows_db.

(** *** Flushing *)

Lemma replay_note_offs (notes : list Z) (sounding : gset Z) :
  replay (note_offs notes) sounding = sounding ∖ list_to_set notes.
Proof.
  revert sounding. induction notes as [|n notes IH]; intros sounding; simpl.
  - set_solver.
  - rewrite IH. set_solver.
Qed.

Lemma no_retrigger_note_offs (notes : list Z) (sounding : gset Z) :
  no_retrigger sounding (note_offs notes).
Proof.
  revert sounding. induction notes as [|n notes IH]; intros; simpl; auto.
Qed.

Lemma replay_all_off (sounding : gset Z) :
  replay (note_offs (elements sounding)) sounding = ∅.
Proof. rewrite replay_note_offs, list_to_set_elements_L. set_solver. Qed.

(** The loop of [cleanup] sends one note-off per listed note. *)
Lemma cleanup_loop_run (notes : list Z) (s : Piano) :
  for_each notes (λ note,
    connected <- gets player;
    if connected then player_write (NoteOff note 127) else skip) s
  = (Ok (), if player s
            then set_midi_out (midi_out s ++ note_offs notes) s else s).
Proof.
  revert s. induction notes as [|n notes IH]; intros s; simpl.
  - unfold skip, mret, M_ret. f_equal. destruct s as [[] ?]; simpl; [|done].
    unfold set_midi_out; simpl. by rewrite app_nil_r.
  - unfold mbind, M_bind, gets, player_write, modify at 1.
    destruct (player s) eqn:Hs; simpl; rewrite IH; simpl; rewrite Hs; [|done].
    unfold set_midi_out; simpl. by rewrite <- app_assoc.
Qed.

Lemma cleanup_run (s : Piano) :
  player s = true →
  cleanup s
  = (Ok (), set_active_notes ∅
              (set_midi_out
                 (midi_out s ++ note_offs (elements (active_notes s))) s)).
Proof.
  intros Hs. unfold cleanup, bind_to, mbind, M_bind, gets at 1.
  by rewrite cleanup_loop_run, Hs.
Qed.

Lemma cleanup_empties (s : Piano) : active_notes (cleanup s).2 = ∅.
Proof.
  unfold cleanup, bind_to, mbind, M_bind, gets at 1.
  by rewrite cleanup_loop_run.
Qed.

Lemma Follows_cleanup (strict : bool) : Follows strict cleanup.
Proof.
  intros s Hs. rewrite cleanup_run by done. split; [done|].
  exists (note_offs (elements (active_notes s))). simpl.
  split; [done|]. split; [by rewrite replay_all_off|].
  intros _. apply no_retrigger_note_offs.
Qed.

(** The loop of the panic stop and of the playback thread: a note-off for
    each listed note, which leaves the set. *)
Lemma flush_loop_run (notes : list Z) (s : Piano) :
  player s = true →
  for_each notes (λ note,
    connected <- gets player;
    (if connected then player_write (NoteOff note 127) else skip);;
    active_notes_discard note) s
  = (Ok (), set_active_notes (active_notes s ∖ list_to_set notes)
              (set_midi_out (midi_out s ++ note_offs notes) s)).
Proof.
  revert s. induction notes as [|n notes IH]; intros s Hs; simpl.
  - unfold skip, mret, M_ret. f_equal. destruct s; simpl.
    unfold set_active_notes, set_midi_out; simpl.
    rewrite app_nil_r. f_equal. set_solver.
  - unfold mbind, M_bind, gets, player_write, active_notes_discard,
      modify at 1. rewrite Hs. simpl.
    rewrite IH by done. simpl. unfold set_active_notes, set_midi_out; simpl.
    rewrite <- app_assoc. do 2 f_equal. set_solver.
Qed.

Lemma flush_active_notes_run (s : Piano) :
  player s = true →
  flush_active_notes s
  = (Ok (), set_active_notes ∅
              (set_midi_out
                 (midi_out s ++ note_offs (elements (active_notes s))) s)).
Proof.
  intros Hs. unfold flush_active_notes, bind_to, mbind, M_bind, gets at 1.
  rewrite flush_loop_run by done. do 3 f_equal.
  rewrite list_to_set_elements_L. set_solver.
Qed.

(** *** Threads and events *)

Lemma Follows_echo_timer_body (n v : Z) (factor : float) :
  Follows false (echo_timer_body n v factor).
Proof.
  intros s Hs.
  unfold echo_timer_body, play_single_note, bind_to, mbind, M_bind, gets,
    player_write, active_notes_add, modify.
  rewrite Hs. split; [done|]. eexists [_]. simpl. done.
Qed.

Lemma Follows_playback_event (event : RecordedEvent) :
  Follows false (playback_event event).
Proof.
  intros s Hs.
  unfold playback_event, bind_to, mbind, M_bind, gets, player_write,
    active_notes_add, active_notes_discard, modify.
  rewrite Hs. destruct (String.eqb _ _); simpl;
    (split; [done|]; eexists [_]; simpl; done).
Qed.

Lemma Follows_playback_off (strict : bool) (event : RecordedEvent) :
  String.eqb (ev_action event) "on" = false →
  Follows strict (playback_event event).
Proof.
  intros Hoff s Hs.
  unfold playback_event, bind_to, mbind, M_bind, gets, player_write,
    active_notes_add, active_notes_discard, modify.
  rewrite Hs, Hoff. simpl. split; [done|]. eexists [_]. simpl. done.
Qed.

Lemma follows_playback_thread_step (strict : bool) (s : Piano) :
  player s = true → (strict = true → replays_on s = false) →
  follows strict s (playback_thread_step s).2.
Proof.
  intros Hs Hsafe. unfold playback_thread_step, bind_to.
  unfold mbind at 1, M_bind at 1, gets at 1. unfold replays_on in Hsafe.
  destruct (playback_thread s) as [[|index detached]|].
  - clear Hsafe. revert s Hs.
    change (Follows strict
      (flush_active_notes;; modify (set_active_keys ∅);;
       modify (set_playback_thread (Some (PlaybackEvents 0 None))))).
    follows.
  - unfold mbind at 1, M_bind at 1, gets at 1.
    destruct (default (recorded_notes s) detached !! index) as [event|].
    + apply follows_bind; [done| |intros; by apply Follows_modify].
      destruct strict.
      * apply Follows_playback_off; auto.
      * by apply Follows_playback_event.
    + clear Hsafe. revert s Hs.
      change (Follows strict
        (flush_active_notes;; modify (set_playback_thread None))).
      follows.
  - apply follows_refl.
Qed.

Lemma follows_run_thread (strict : bool) (k : nat) (s : Piano) :
  player s = true →
  (strict = true →
   match threads s !! k with Some (EchoTimer _ _ _ _) => False | _ => True end) →
  follows strict s (run_thread k s).2.
Proof.
  intros Hs Hsafe. unfold run_thread, bind_to.
  unfold mbind at 1, M_bind at 1, gets at 1.
  destruct (threads s !! k) as [[delay n v factor|chord_notes]|].
  - destruct strict; [by destruct Hsafe|].
    apply follows_bind; [done|by apply Follows_modify|].
    intros _. apply Follows_echo_timer_body.
  - apply follows_bind; [done|by apply Follows_modify|].
    intros _. apply Follows_stop_after_delay.
  - apply follows_refl.
Qed.

Lemma follows_after_clock (strict : bool) (now : Q) (m : M unit) (s : Piano) :
  follows strict (set_clock now s) (m (set_clock now s)).2 →
  follows strict s ((modify (set_clock now);; m) s).2.
Proof.
  intros Hm. unfold mbind, M_bind, modify.
  eapply follows_trans; [|exact Hm]. by apply follows_frame.
Qed.

(** Every operation keeps the active notes in step with the messages
    sent; those that do not resend never retrigger a sounding note. *)
Lemma perform_follows (strict : bool) (op : Operation) (s : Piano) :
  player s = true → (strict = true → resends op s = false) →
  follows strict s (perform op s).2.
Proof.
  intros Hs Hsafe. destruct op as [| | | | | | | |ev]; simpl in *.
  - by apply Follows_play_chord_enhanced.
  - destruct strict; [by specialize (Hsafe eq_refl)|].
    by apply Follows_echo_timer_body.
  - by apply Follows_stop_after_delay.
  - apply follows_bind; [done|by apply Follows_handle_pinch_gesture|].
    intros _. apply Follows_skip.
  - by apply Follows_process_hands.
  - by apply Follows_no_hands.
  - by apply follows_playback_thread_step.
  - by apply Follows_cleanup.
  - destruct ev as [now hands w|now key w|now k|now|]; simpl.
    + apply follows_after_clock. by apply Follows_process_frame.
    + apply follows_after_clock. by apply Follows_handle_keyboard_input.
    + apply follows_after_clock. apply follows_run_thread; [done|].
      intros Hstrict. specialize (Hsafe Hstrict). simpl.
      by destruct (threads s !! k) as [[]|].
    + apply follows_after_clock. by apply follows_playback_thread_step.
    + by apply Follows_cleanup.
Qed.

End Following.

(** ** The invariant of the active notes *)

Section ActiveNotes.

Context `{PyMath}.

Lemma replay_gained (out : list midi_msg) (sounding : gset Z) (n : Z) :
  n ∉ sounding → n ∈ replay out sounding → ∃ v, NoteOn n v ∈ out.
Proof.
  revert sounding.
  induction out as [|m out IH]; intros sounding Hout Hin; simpl in *; [done|].
  destruct m as [n' v|n' v| |].
  - destruct (decide (n = n')) as [->|Hne].
    + exists v. left.
    + destruct (IH ({[n']} ∪ sounding)) as [v' Hv']; [set_solver|done|].
      exists v'. by right.
  - destruct (IH (sounding ∖ {[n']})) as [v' Hv']; [set_solver|done|].
    exists v'. by right.
  - destruct (IH sounding) as [v' Hv']; [done..|]. exists v'. by right.
  - destruct (IH sounding) as [v' Hv']; [done..|]. exists v'. by right.
Qed.

Lemma replay_lost (out : list midi_msg) (sounding : gset Z) (n : Z) :
  n ∈ sounding → n ∉ replay out sounding → ∃ v, NoteOff n v ∈ out.
Proof.
  revert sounding.
  induction out as [|m out IH]; intros sounding Hin Hout; simpl in *; [done|].
  destruct m as [n' v|n' v| |].
  - destruct (IH ({[n']} ∪ sounding)) as [v' Hv']; [set_solver|done|].
    exists v'. by right.
  - destruct (decide (n = n')) as [->|Hne].
    + exists v. left.
    + destruct (IH (sounding ∖ {[n']})) as [v' Hv']; [set_solver|done|].
      exists v'. by right.
  - destruct (IH sounding) as [v' Hv']; [done..|]. exists v'. by right.
  - destruct (IH sounding) as [v' Hv']; [done..|]. exists v'. by right.
Qed.

Lemma run_ends_silent (evs : list Event) (s : Piano) :
  active_notes (run (evs ++ [Quit]) s) = ∅.
Proof.
  revert s. induction evs as [|ev evs IH]; intros s; simpl.
  - apply cleanup_empties.
  - destruct (quits ev); [apply cleanup_empties|].
    destruct (event_action ev s) as [[[]|e] s1]; [apply IH|].
    destruct (on_main_thread ev); [apply cleanup_empties|apply IH].
Qed.

(** C1.  Whatever operation changes the set of active notes (a chord
    press, an echo, a release after the sustain, a pinch starting or
    stopping, a frame, the panic stop, a stretch of playback, the cleanup,
    or any event of the run), the set afterwards is the set before with
    the note-ons of the operation added and its note-offs removed: a note
    enters only with a note-on sent, leaves only with a note-off sent.  The
    set has no duplicates, it is empty after [cleanup], and so it is at
    the end of every run.  The device is set, as in every state of a run
    ([run_well_formed]). *)
Theorem active_notes_follow_note_messages (op : Operation) (s : Piano) :
  player s = true →
  let s' := (perform op s).2 in
  (∃ out : list midi_msg,
     midi_out s' = midi_out s ++ out
     ∧ active_notes s' = replay out (active_notes s)
     ∧ (∀ n, n ∉ active_notes s → n ∈ active_notes s' → ∃ v, NoteOn n v ∈ out)
     ∧ (∀ n, n ∈ active_notes s → n ∉ active_notes s' → ∃ v, NoteOff n v ∈ out))
  ∧ NoDup (elements (active_notes s'))
  ∧ active_notes (cleanup s).2 = ∅
  ∧ (∀ evs : list Event, active_notes (run (evs ++ [Quit]) s) = ∅).
Proof.
  intros Hs s'. split; [|split; [apply NoDup_elements|split]].
  - destruct (perform_follows false op s Hs) as (_ & out & Hout & Hact & _);
      [done|].
    exists out. fold s' in Hout, Hact. do 2 (split; [done|]).
    rewrite Hact. split; intros n; [apply replay_gained|apply replay_lost].
  - apply cleanup_empties.
  - intros evs. apply run_ends_silent.
Qed.

End ActiveNotes.

Lemma active_notes_follow_note_messages_witness :
  let s := initial 1280 in
  let s' := (perform (OnEvent (Frame 1 [left_thumb_up] 1280)) s).2 in
  (∃ out : list midi_msg,
     midi_out s' = midi_out s ++ out
     ∧ active_notes s' = replay out (active_notes s)
     ∧ (∀ n, n ∉ active_notes s → n ∈ active_notes s' → ∃ v, NoteOn n v ∈ out)
     ∧ (∀ n, n ∈ active_notes s → n ∉ active_notes s' → ∃ v, NoteOff n v ∈ out))
  ∧ NoDup (elements (active_notes s'))
  ∧ active_notes (cleanup s).2 = ∅
  ∧ (∀ evs : list Event, active_notes (run (evs ++ [Quit]) s) = ∅).
Proof.
  apply (active_notes_follow_note_messages
           (OnEvent (Frame 1 [left_thumb_up] 1280)) (initial 1280)).
  reflexivity.
Defined.

Example press_then_quit :
  let s := run [Frame 1 [left_thumb_up] 1280] (initial 1280) in
  let s' := run [Frame 1 [left_thumb_up] 1280; Quit] (initial 1280) in
  midi_out s = [SetInstrument 0; NoteOn 62 91; NoteOn 66 91; NoteOn 69 91]
  ∧ active_notes s = {[62; 66; 69]}
  ∧ active_notes s' = ∅
  ∧ midi_out s' ≡ₚ midi_out s ++ [NoteOff 62 127; NoteOff 66 127; NoteOff 69 127].
Proof.
  vm_compute. repeat split.
  apply Permutation_cons; [done|]. do 3 (apply Permutation_cons; [done|]).
  apply (Permutation_cons_append [_; _]).
Qed.

(** ** What a method leaves alone *)

Section Preservation.

Context `{PyMath} {B : Type} (f : Piano → B).

Lemma Preserves_ret {A} (a : A) : Preserves f (mret a : M A).
Proof. intros s. done. Qed.

Lemma Preserves_raise {A} (e : exn) : Preserves f (raise e : M A).
Proof. intros s. done. Qed.

Lemma Preserves_lift {A} (r : result A) : Preserves f (lift r).
Proof. intros s. done. Qed.

Lemma Preserves_gets {A} (g : Piano → A) : Preserves f (gets g).
Proof. intros s. done. Qed.

Lemma Preserves_modify (g : Piano → Piano) :
  (∀ s, f (g s) = f s) → Preserves f (modify g).
Proof. intros Hg s. apply Hg. Qed.

Lemma Preserves_bind {A C} (m : M A) (k : A → M C) :
  Preserves f m → (∀ a, Preserves f (k a)) → Preserves f (m ≫= k).
Proof.
  intros Hm Hk s. unfold mbind, M_bind. specialize (Hm s).
  destruct (m s) as [[a|e] s1]; simpl in *; [|done].
  by rewrite Hk.
Qed.

Lemma Preserves_for_each {A} (l : list A) (body : A → M unit) :
  (∀ x, Preserves f (body x)) → Preserves f (for_each l body).
Proof.
  intros Hbody. induction l as [|x l IH]; simpl.
  - apply Preserves_ret.
  - by apply Preserves_bind.
Qed.

End Preservation.

Ltac preserves_step :=
  first
    [ apply Preserves_ret | apply Preserves_raise | apply Preserves_lift
    | apply Preserves_gets
    | apply Preserves_modify; done
    | apply Preserves_for_each; intros ?
    | apply Preserves_bind; [|intros ?]
    | match goal with
      | |- Preserves _ (if ?c then _ else _) => destruct c
      | |- Preserves _ (match ?x with _ => _ end) => destruct x
      end ].

Ltac preserves := unfold bind_to, skip; repeat preserves_step.

(** ** Pressing, echo and scale change *)

Section Suppression.

Context `{PyMath}.

(** One turn of the loop of [play_chord_enhanced]: nothing for an active
    note, a note-on and the note added to the set otherwise. *)
Lemma play_note_of_chord_run (velocity i note : Z) (s : Piano) :
  player s = true →
  let s1 := (play_note_of_chord velocity (i, note) s).2 in
  player s1 = true
  ∧ (note ∈ active_notes s
     ∧ midi_out s1 = midi_out s ∧ active_notes s1 = active_notes s
     ∨ (note ∉ active_notes s)
       ∧ midi_out s1 = midi_out s ++ [NoteOn note velocity]
       ∧ active_notes s1 = {[note]} ∪ active_notes s).
Proof.
  intros Hs. cbv zeta.
  unfold play_note_of_chord, play_single_note, record_event, start_thread,
    active_notes_add, player_write, bind_to, mbind, M_bind, gets, modify,
    skip, raise, mret, M_ret.
  case_bool_decide as Hfresh; simpl.
  2: { split; [done|]. left. split; [|done]. first [done|by apply dec_stable]. }
  rewrite Hs. simpl.
  destruct (echo_enabled s && (i =? 0)); simpl;
    (destruct (recording s); simpl;
     [destruct (recording_start_time s); simpl|]); auto.
Qed.

(** The loop sends note-ons only, with the velocity of the press, for
    notes of the chord that were not active when the press began. *)
Lemma press_loop_sends_fresh (velocity : Z) (pairs : list (Z * Z)) (s : Piano) :
  player s = true →
  ∃ out : list midi_msg,
    midi_out (for_each pairs (play_note_of_chord velocity) s).2
    = midi_out s ++ out
    ∧ Forall (λ m, ∃ n, m = NoteOn n velocity
                        ∧ (n ∉ active_notes s) ∧ n ∈ pairs.*2) out.
Proof.
  revert s. induction pairs as [|[i note] pairs IH]; intros s Hs.
  { exists []. by rewrite app_nil_r. }
  destruct (play_note_of_chord_run velocity i note s Hs) as [Hs1 Hturn].
  rewrite for_each_cons_run. cbv zeta in Hs1, Hturn.
  destruct (play_note_of_chord velocity (i, note) s) as [[[]|e] s1];
    cbn [snd] in *.
  - destruct (IH s1 Hs1) as (out & Hout & Hall).
    destruct Hturn as [(Hactive & Hout1 & Hact1)|(Hfresh & Hout1 & Hact1)].
    + exists out. rewrite Hout, Hout1. split; [done|].
      eapply Forall_impl; [exact Hall|]. intros m (n & -> & Hn & Hin).
      exists n. rewrite Hact1 in Hn. repeat split; [done|]. by right.
    + exists (NoteOn note velocity :: out).
      rewrite Hout, Hout1, <- app_assoc. split; [done|]. constructor.
      * exists note. repeat split; [done|]. left.
      * eapply Forall_impl; [exact Hall|]. intros m (n & -> & Hn & Hin).
        exists n. rewrite Hact1 in Hn. repeat split; [set_solver|]. by right.
  - destruct Hturn as [(Hactive & Hout1 & Hact1)|(Hfresh & Hout1 & Hact1)].
    + exists []. by rewrite app_nil_r.
    + exists [NoteOn note velocity]. split; [done|]. constructor; [|done].
      exists note. repeat split; [done|]. left.
Qed.

Lemma play_chord_enhanced_suppresses (chord_notes : list Z) (velocity : Z)
    (s : Piano) :
  player s = true →
  ∃ out : list midi_msg,
    midi_out (play_chord_enhanced chord_notes velocity s).2 = midi_out s ++ out
    ∧ ∀ n v, NoteOn n v ∈ out → (n ∉ active_notes s) ∧ n ∈ chord_notes.
Proof.
  intros Hs.
  destruct (press_loop_sends_fresh velocity (enumerate chord_notes) s Hs)
    as (out & Hout & Hall).
  exists out. split; [exact Hout|]. intros n v Hin.
  rewrite Forall_forall in Hall.
  destruct (Hall _ Hin) as (n' & [= -> ->] & Hfresh & Hchord).
  split; [done|]. unfold enumerate in Hchord.
  apply list_elem_of_fmap in Hchord as ([i n''] & -> & Hpair).
  apply elem_of_lookup_imap in Hpair as (k & x & [= _ ->] & Hx).
  by eapply list_elem_of_lookup_2.
Qed.

(** C3, as amended.  No operation other than an echo timer and the replay
    of a recorded "on" event sends a note-on for a note that is active at
    that moment; in particular a press sends no note-on for a note of its
    chord that was already active. *)
Theorem presses_never_retrigger (op : Operation) (s : Piano) :
  player s = true → resends op s = false →
  (∃ out : list midi_msg,
     midi_out (perform op s).2 = midi_out s ++ out
     ∧ no_retrigger (active_notes s) out)
  ∧ (∀ chord_notes velocity,
       ∃ out : list midi_msg,
         midi_out (play_chord_enhanced chord_notes velocity s).2
         = midi_out s ++ out
         ∧ ∀ n v, n ∈ active_notes s → NoteOn n v ∉ out).
Proof.
  intros Hs Hsafe. split.
  - destruct (perform_follows true op s Hs) as (_ & out & Hout & _ & Hno);
      [done|].
    exists out. auto.
  - intros chord_notes velocity.
    destruct (play_chord_enhanced_suppresses chord_notes velocity s Hs)
      as (out & Hout & Hfresh).
    exists out. split; [done|]. intros n v Hactive Hin.
    by destruct (Hfresh n v Hin).
Qed.

(** [cycle_scale] has no statement that writes to the device, to the
    active notes or to the threads: whatever it returns, it leaves the
    three as they are. *)
Lemma cycle_scale_keeps_active_notes (s : Piano) :
  let s' := (cycle_scale s).2 in
  midi_out s' = midi_out s
  ∧ active_notes s' = active_notes s
  ∧ threads s' = threads s.
Proof.
  assert (Hpres : ∀ {B} (f : Piano → B),
            (∀ v s0, f (set_current_scale v s0) = f s0) →
            (∀ v s0, f (set_prev_states v s0) = f s0) →
            (∀ v s0, f (set_active_keys v s0) = f s0) →
            Preserves f cycle_scale).
  { intros B f H1 H2 H3. unfold cycle_scale, get_current_chords. preserves. }
  repeat split; by apply Hpres.
Qed.

End Suppression.

Lemma presses_never_retrigger_witness :
  let s := run [Frame 1 [left_thumb_up] 1280] (initial 1280) in
  let op := OnEvent (Frame 2 [left_thumb_up; right_pinch] 1280) in
  (∃ out : list midi_msg,
     midi_out (perform op s).2 = midi_out s ++ out
     ∧ no_retrigger (active_notes s) out)
  ∧ (∀ chord_notes velocity,
       ∃ out : list midi_msg,
         midi_out (play_chord_enhanced chord_notes velocity s).2
         = midi_out s ++ out
         ∧ ∀ n v, n ∈ active_notes s → NoteOn n v ∉ out).
Proof.
  apply (presses_never_retrigger
           (OnEvent (Frame 2 [left_thumb_up; right_pinch] 1280))
           (run [Frame 1 [left_thumb_up] 1280] (initial 1280)));
    reflexivity.
Defined.

(** C3, as stated, fails: with the echo on, the first echo timer of a
    press sends a second note-on for note 62 while 62 is active. *)
Lemma echo_retriggers_active_note :
  let s := run [KeyPress 0 101 1280; Frame 1 [left_thumb_up] 1280]
               (initial 1280) in
  let s' := (perform (OnEvent (RunThread 2 0)) s).2 in
  midi_out s = [SetInstrument 0; NoteOn 62 91; NoteOn 66 91; NoteOn 69 91]
  ∧ active_notes s = {[62; 66; 69]}
  ∧ threads s !! 0%nat = Some (EchoTimer (8 # 100) 62 91 0.7%float)
  ∧ midi_out s' = midi_out s ++ [NoteOn 62 63]
  ∧ ¬ no_retrigger (active_notes s) [NoteOn 62 63].
Proof.
  cbv zeta.
  assert (Hact : active_notes
                   (run [KeyPress 0 101 1280; Frame 1 [left_thumb_up] 1280]
                        (initial 1280)) = {[62; 66; 69]})
    by (vm_compute; reflexivity).
  split; [vm_compute; reflexivity|]. split; [exact Hact|].
  do 2 (split; [vm_compute; reflexivity|]).
  rewrite Hact. clear Hact. intros [Hfresh _]. set_solver.
Qed.

(** C4.  The code where the claim fails.  After a press of the left
    thumb, the key [s] changes the scale to "C_Major", resets the finger
    states and clears the keys as the claim says, but it sends no
    note-off and leaves the three notes of the chord active; a frame
    without hands, from the same state, sends the three note-offs and
    empties the set. *)
Lemma scale_change_sends_no_note_off :
  let s := run [Frame 1 [left_thumb_up] 1280] (initial 1280) in
  let s' := (handle_keyboard_input 115 1280 s).2 in
  let lost := (no_hands s).2 in
  active_notes s = {[62; 66; 69]}
  ∧ prev_states s !! "left" ≫= (.!! "thumb") = Some 1
  ∧ (handle_keyboard_input 115 1280 s).1 = Ok ()
  ∧ current_scale s' = "C_Major"
  ∧ prev_states s' !! "left" ≫= (.!! "thumb") = Some 0
  ∧ active_keys s' = ∅
  ∧ active_notes s' = {[62; 66; 69]}
  ∧ midi_out s' = midi_out s
  ∧ active_notes lost = ∅
  ∧ midi_out lost ≡ₚ midi_out s ++ note_offs [62; 66; 69].
Proof.
  cbv zeta. do 9 (split; [vm_compute; reflexivity|]).
  assert (Hout : midi_out
                   (no_hands
                      (run [Frame 1 [left_thumb_up] 1280] (initial 1280))).2
                 = [SetInstrument 0; NoteOn 62 91; NoteOn 66 91; NoteOn 69 91;
                    NoteOff 69 127; NoteOff 62 127; NoteOff 66 127])
    by (vm_compute; reflexivity).
  rewrite Hout. clear Hout.
  assert (Hbefore : midi_out
                      (run [Frame 1 [left_thumb_up] 1280] (initial 1280))
                    = [SetInstrument 0; NoteOn 62 91; NoteOn 66 91;
                       NoteOn 69 91])
    by (vm_compute; reflexivity).
  rewrite Hbefore. clear Hbefore. cbn [app note_offs fmap list_fmap].
  do 4 apply perm_skip.
  etrans; [apply perm_swap|]. apply perm_skip. apply perm_swap.
Qed.

(** What the unsent note-offs lead to: the thumb stays up across a scale
    change, the new chord is pressed on top of the old one, and lowering
    the thumb releases the new chord only: the notes of the old chord
    stay on. *)
Example scale_change_strands_held_chord :
  let s := run [Frame 1 [left_thumb_up] 1280; KeyPress 2 115 1280;
                Frame 3 [left_thumb_up] 1280; Frame 4 [left_fist] 1280;
                RunThread 5 0] (initial 1280) in
  current_scale s = "C_Major"
  ∧ threads s = []
  ∧ active_notes s = {[62; 66; 69]}.
Proof. vm_compute. repeat split. Qed.

(** ** The frame without hands *)

Section PanicStop.

Context `{PyMath}.

Lemma valid_scale_chords (name : string) :
  name ∈ scales.*1 →
  ∃ chords, assoc_getitem scales name = Ok chords
            ∧ chords ∈ [D_Major; C_Major; Pentatonic].
Proof.
  simpl. rewrite !elem_of_cons, elem_of_nil.
  intros [->|[->|[->|[]]]]; eexists; (split; [reflexivity|]);
    rewrite !elem_of_cons; auto.
Qed.

Lemma all_down_is_down (chords : gmap string (gmap string (list Z)))
    (hand_key finger : string) :
  chords ∈ [D_Major; C_Major; Pentatonic] →
  hand_key ∈ ["left"; "right"] → finger ∈ finger_names →
  all_down chords !! hand_key ≫= (.!! finger) = Some 0.
Proof.
  unfold finger_names. rewrite !elem_of_cons, !elem_of_nil.
  intros [->|[->|[->|[]]]] [->|[->|[]]] [->|[->|[->|[->|[->|[]]]]]];
    vm_compute; reflexivity.
Qed.

(** What the branch without hands does, step by step. *)
Lemma no_hands_run (s : Piano) (chords : gmap string (gmap string (list Z))) :
  player s = true → assoc_getitem scales (current_scale s) = Ok chords →
  no_hands s
  = (Ok (),
     let s1 := set_active_keys ∅ (set_prev_states (all_down chords) s) in
     let s2 :=
       set_active_notes ∅
         (set_midi_out
            (midi_out s ++ note_offs (elements (active_notes s))) s1) in
     if pinch_chord_playing s
     then set_midi_out (midi_out s2 ++ [pitch_bend_message 8192])
            (set_pinch_chord_playing false s2)
     else s2).
Proof.
  intros Hs Hchords.
  unfold no_hands, get_current_chords, bind_to, mbind, M_bind, gets, lift,
    modify.
  rewrite Hchords. rewrite flush_active_notes_run by done. simpl.
  destruct (pinch_chord_playing s); [|done].
  unfold send_pitch_bend, bind_to, mbind, M_bind, gets, player_write, modify.
  simpl. by rewrite Hs.
Qed.

(** C2.  A frame in which no hand is detected leaves every finger of both
    hands down in the previous states, the set of active keys empty and
    the set of active notes empty, having sent at once a note-off (no
    thread is started) for each note that was active; the pinch flag is
    false afterwards, and the pitch bend 8192 has been sent if it was
    true.  The device is set and the current scale is one of the table,
    as in every state of a run ([run_well_formed]). *)
Theorem frame_without_hands_stops_all_notes (s : Piano) (frame_width : Z) :
  player s = true → current_scale s ∈ scales.*1 →
  let s' := (process_frame [] frame_width s).2 in
  (process_frame [] frame_width s).1 = Ok ()
  ∧ (∀ hand_key finger,
       hand_key ∈ ["left"; "right"] → finger ∈ finger_names →
       prev_states s' !! hand_key ≫= (.!! finger) = Some 0)
  ∧ active_keys s' = ∅
  ∧ active_notes s' = ∅
  ∧ midi_out s'
    = midi_out s ++ note_offs (elements (active_notes s))
      ++ (if pinch_chord_playing s then [pitch_bend_message 8192] else [])
  ∧ threads s' = threads s
  ∧ pinch_chord_playing s' = false
  ∧ pitch_bend_message 8192 = WriteShort 224 0 64.
Proof.
  intros Hs Hscale.
  destruct (valid_scale_chords _ Hscale) as (chords & Hchords & Hvalid).
  unfold process_frame. rewrite bool_decide_eq_true_2 by done.
  unfold mbind, M_bind, modify. rewrite (no_hands_run s chords) by done.
  cbv zeta. destruct (pinch_chord_playing s) eqn:Hplaying; simpl;
    (split; [done|]; split; [intros; by apply all_down_is_down|]);
    rewrite ?app_nil_r, <- ?app_assoc; repeat split; done.
Qed.

End PanicStop.

Lemma frame_without_hands_stops_all_notes_witness :
  let s := run [Frame 1 [left_thumb_up; right_pinch] 1280] (initial 1280) in
  let s' := (process_frame [] 1280 s).2 in
  (process_frame [] 1280 s).1 = Ok ()
  ∧ (∀ hand_key finger,
       hand_key ∈ ["left"; "right"] → finger ∈ finger_names →
       prev_states s' !! hand_key ≫= (.!! finger) = Some 0)
  ∧ active_keys s' = ∅
  ∧ active_notes s' = ∅
  ∧ midi_out s'
    = midi_out s ++ note_offs (elements (active_notes s))
      ++ (if pinch_chord_playing s then [pitch_bend_message 8192] else [])
  ∧ threads s' = threads s
  ∧ pinch_chord_playing s' = false
  ∧ pitch_bend_message 8192 = WriteShort 224 0 64.
Proof.
  apply (frame_without_hands_stops_all_notes
           (run [Frame 1 [left_thumb_up; right_pinch] 1280] (initial 1280))
           1280).
  - vm_compute. reflexivity.
  - vm_compute. left.
Defined.

Example hands_lost_mid_chord :
  let s := run [Frame 1 [left_thumb_up; right_pinch] 1280] (initial 1280) in
  let s' := run [Frame 1 [left_thumb_up; right_pinch] 1280; Frame 2 [] 1280]
                (initial 1280) in
  active_notes s = {[62; 66; 69; 84; 88; 91]}
  ∧ pinch_chord_playing s = true
  ∧ active_notes s' = ∅
  ∧ pinch_chord_playing s' = false
  ∧ last (midi_out s') = Some (WriteShort 224 0 64).
Proof. vm_compute. repeat split. Qed.

(** ** Cycling through the scales *)

Section Scales.

Context `{PyMath}.

Lemma cycle_scale_run (s : Piano) (name next : string)
    (chords : gmap string (gmap string (list Z))) :
  current_scale s = name →
  (name, next, chords)
    ∈ [("D_Major", "C_Major", C_Major); ("C_Major", "Pentatonic", Pentatonic);
       ("Pentatonic", "D_Major", D_Major)] →
  cycle_scale s
  = (Ok (), set_active_keys ∅
              (set_prev_states (all_down chords) (set_current_scale next s))).
Proof.
  intros Hname. rewrite !elem_of_cons, elem_of_nil.
  unfold cycle_scale, get_current_chords, bind_to, mbind, M_bind, gets, lift,
    modify.
  intros [[= -> -> ->]|[[= -> -> ->]|[[= -> -> ->]|[]]]];
    rewrite Hname; reflexivity.
Qed.

(** C8.  From "D_Major", three calls of [cycle_scale] go through
    "C_Major" and "Pentatonic" back to "D_Major" with the chords of
    "D_Major", the instance being as before but for the reset previous
    states and the cleared active keys; and after every call from a
    scale of the table the previous states are all down and the set of
    active keys is empty. *)
Theorem cycle_scale_returns_to_D_Major (s : Piano) :
  (current_scale s = "D_Major" →
   ∃ s1 s2 s3 : Piano,
     cycle_scale s = (Ok (), s1)
     ∧ cycle_scale s1 = (Ok (), s2)
     ∧ cycle_scale s2 = (Ok (), s3)
     ∧ current_scale s1 = "C_Major"
     ∧ current_scale s2 = "Pentatonic"
     ∧ current_scale s3 = "D_Major"
     ∧ (get_current_chords s3).1 = Ok D_Major
     ∧ (get_current_chords s).1 = Ok D_Major
     ∧ s3 = set_active_keys ∅ (set_prev_states (all_down D_Major) s))
  ∧ (current_scale s ∈ scales.*1 →
     ∃ s' : Piano,
       cycle_scale s = (Ok (), s')
       ∧ (∀ hand_key finger,
            hand_key ∈ ["left"; "right"] → finger ∈ finger_names →
            prev_states s' !! hand_key ≫= (.!! finger) = Some 0)
       ∧ active_keys s' = ∅).
Proof.
  split.
  - intros Hs. eexists _, _, _.
    split; [by eapply cycle_scale_run; [|left]|].
    split; [by eapply cycle_scale_run; [|right; left]|].
    split; [by eapply cycle_scale_run; [|right; right; left]|].
    unfold get_current_chords, bind_to, mbind, M_bind, gets, lift.
    rewrite Hs. simpl. repeat split. destruct s; simpl in *. by subst.
  - simpl. rewrite !elem_of_cons, elem_of_nil. intros Hs.
    assert (∃ next chords,
              (current_scale s, next, chords)
                ∈ [("D_Major", "C_Major", C_Major);
                   ("C_Major", "Pentatonic", Pentatonic);
                   ("Pentatonic", "D_Major", D_Major)]
              ∧ chords ∈ [D_Major; C_Major; Pentatonic])
      as (next & chords & Hstep & Hvalid).
    { destruct Hs as [->|[->|[->|[]]]]; eexists _, _;
        rewrite !elem_of_cons; split; eauto. }
    eexists. split; [by eapply cycle_scale_run|]. simpl.
    split; [|done]. intros. by apply all_down_is_down.
Qed.

End Scales.

Lemma cycle_scale_returns_to_D_Major_witness :
  let s := run [Frame 1 [left_thumb_up] 1280] (initial 1280) in
  (∃ s1 s2 s3 : Piano,
     cycle_scale s = (Ok (), s1)
     ∧ cycle_scale s1 = (Ok (), s2)
     ∧ cycle_scale s2 = (Ok (), s3)
     ∧ current_scale s1 = "C_Major"
     ∧ current_scale s2 = "Pentatonic"
     ∧ current_scale s3 = "D_Major"
     ∧ (get_current_chords s3).1 = Ok D_Major
     ∧ (get_current_chords s).1 = Ok D_Major
     ∧ s3 = set_active_keys ∅ (set_prev_states (all_down D_Major) s))
  ∧ (∃ s' : Piano,
       cycle_scale s = (Ok (), s')
       ∧ (∀ hand_key finger,
            hand_key ∈ ["left"; "right"] → finger ∈ finger_names →
            prev_states s' !! hand_key ≫= (.!! finger) = Some 0)
       ∧ active_keys s' = ∅).
Proof.
  pose proof (cycle_scale_returns_to_D_Major
                (run [Frame 1 [left_thumb_up] 1280] (initial 1280)))
    as [Hthree Hone].
  split; [apply Hthree|apply Hone].
  - vm_compute. reflexivity.
  - vm_compute. left.
Defined.

(** ** Releasing a chord *)

Section Release.

Context `{PyMath}.

(** One turn of the loop of [stop_after_delay]. *)
Lemma release_note_run (note : Z) (s : Piano) :
  (note ∉ active_notes s → release_note note s = (Ok (), s))
  ∧ (note ∉ active_notes (release_note note s).2)
  ∧ active_notes (release_note note s).2 ⊆ active_notes s.
Proof.
  unfold release_note, record_event, active_notes_discard, player_write,
    bind_to, mbind, M_bind, gets, modify, skip, raise, mret, M_ret.
  case_bool_decide as Hactive; simpl.
  2: { done. }
  split; [done|].
  destruct (player s); simpl;
    (destruct (recording s); simpl;
     [destruct (recording_start_time s); simpl|]); set_solver.
Qed.

Lemma stop_after_delay_shrinks (chord_notes : list Z) (s : Piano) :
  active_notes (stop_after_delay chord_notes s).2 ⊆ active_notes s.
Proof.
  unfold stop_after_delay. revert s.
  induction chord_notes as [|note notes IH]; intros s; [done|].
  rewrite for_each_cons_run.
  destruct (release_note_run note s) as (_ & _ & Hsub).
  destruct (release_note note s) as [[[]|e] s1]; simpl in *; [|done].
  etransitivity; [apply IH|done].
Qed.

Lemma stop_after_delay_silent (chord_notes : list Z) (s : Piano) :
  (∀ n, n ∈ chord_notes → n ∉ active_notes s) →
  stop_after_delay chord_notes s = (Ok (), s).
Proof.
  unfold stop_after_delay.
  induction chord_notes as [|note notes IH]; intros Hoff; [done|].
  rewrite for_each_cons_run.
  destruct (release_note_run note s) as (Hnoop & _ & _).
  rewrite Hnoop by (apply Hoff; left).
  apply IH. intros n Hn. apply Hoff. by right.
Qed.

Lemma stop_after_delay_releases (chord_notes : list Z) (s s1 : Piano) :
  stop_after_delay chord_notes s = (Ok (), s1) →
  ∀ n, n ∈ chord_notes → n ∉ active_notes s1.
Proof.
  unfold stop_after_delay. revert s.
  induction chord_notes as [|note notes IH]; intros s Hrun n Hn;
    [by apply elem_of_nil in Hn|].
  rewrite for_each_cons_run in Hrun.
  destruct (release_note_run note s) as (_ & Hgone & _).
  destruct (release_note note s) as [[[]|e] s2]; simpl in *; [|done].
  apply elem_of_cons in Hn as [->|Hn]; [|by eapply IH].
  pose proof (stop_after_delay_shrinks notes s2) as Hsub.
  unfold stop_after_delay in Hsub. rewrite Hrun in Hsub. simpl in Hsub.
  set_solver.
Qed.

(** C9.  Releasing a chord none of whose notes is active changes nothing:
    the outcome is [Ok] and the instance is the same, so no note-off has
    been sent and no event recorded.  Hence releasing a chord twice is
    releasing it once. *)
Theorem release_of_silent_chord_is_noop (chord_notes : list Z) (s : Piano) :
  ((∀ n, n ∈ chord_notes → n ∉ active_notes s) →
   stop_after_delay chord_notes s = (Ok (), s)
   ∧ midi_out (stop_after_delay chord_notes s).2 = midi_out s
   ∧ recorded_notes (stop_after_delay chord_notes s).2 = recorded_notes s)
  ∧ (stop_after_delay chord_notes;; stop_after_delay chord_notes) s
    = stop_after_delay chord_notes s.
Proof.
  split.
  - intros Hoff. by rewrite stop_after_delay_silent.
  - unfold mbind, M_bind.
    destruct (stop_after_delay chord_notes s) as [[[]|e] s1] eqn:Hrun;
      [|done].
    apply stop_after_delay_silent. by eapply stop_after_delay_releases.
Qed.

End Release.

Lemma release_of_silent_chord_is_noop_witness :
  let s := run [Frame 1 [left_thumb_up] 1280] (initial 1280) in
  stop_after_delay [60; 64; 67] s = (Ok (), s)
  ∧ midi_out (stop_after_delay [60; 64; 67] s).2 = midi_out s
  ∧ recorded_notes (stop_after_delay [60; 64; 67] s).2 = recorded_notes s.
Proof.
  apply (proj1 (release_of_silent_chord_is_noop [60; 64; 67]
                  (run [Frame 1 [left_thumb_up] 1280] (initial 1280)))).
  intros n Hn.
  assert (Hact : active_notes (run [Frame 1 [left_thumb_up] 1280] (initial 1280))
                 = {[62; 66; 69]}) by (vm_compute; reflexivity).
  rewrite Hact. clear Hact. set_solver.
Defined.

Example release_after_sustain :
  let s := run [Frame 1 [left_thumb_up] 1280; Frame 2 [left_fist] 1280]
               (initial 1280) in
  let s1 := run [Frame 1 [left_thumb_up] 1280; Frame 2 [left_fist] 1280;
                 RunThread 3 0] (initial 1280) in
  threads s = [StopAfterDelay [62; 66; 69]]
  ∧ active_notes s = {[62; 66; 69]}
  ∧ active_notes s1 = ∅
  ∧ midi_out s1 = midi_out s ++ [NoteOff 62 127; NoteOff 66 127; NoteOff 69 127]
  ∧ stop_after_delay [62; 66; 69] s1 = (Ok (), s1).
Proof. vm_compute. repeat split. Qed.

(** ** The pinch *)

Section Pinch.

Context `{PyMath}.

Import PitchBendSpec.

Lemma fresh_notes_spec (sounding : gset Z) (notes : list Z) (n : Z) :
  n ∈ fresh_notes sounding notes ↔ n ∈ notes ∧ n ∉ sounding.
Proof.
  revert sounding. induction notes as [|x notes IH]; intros sounding; simpl.
  - set_solver.
  - destruct (decide (x ∈ sounding)) as [Hx|Hx].
    + rewrite IH. set_solver.
    + rewrite elem_of_cons, IH. clear IH.
      destruct (decide (n = x)) as [->|Hne]; set_solver.
Qed.

(** Two instances with the same attributes are the same. *)
Lemma piano_ext (s1 s2 : Piano) :
  player s1 = player s2 →
  midi_out s1 = midi_out s2 →
  screen_width s1 = screen_width s2 →
  current_instrument s1 = current_instrument s2 →
  current_scale s1 = current_scale s2 →
  prev_states s1 = prev_states s2 →
  active_notes s1 = active_notes s2 →
  active_keys s1 = active_keys s2 →
  sustain_time s1 = sustain_time s2 →
  velocity_multiplier s1 = velocity_multiplier s2 →
  recording s1 = recording s2 →
  recorded_notes s1 = recorded_notes s2 →
  recording_start_time s1 = recording_start_time s2 →
  echo_enabled s1 = echo_enabled s2 →
  pinch_threshold s1 = pinch_threshold s2 →
  pinch_chord_notes s1 = pinch_chord_notes s2 →
  pinch_chord_playing s1 = pinch_chord_playing s2 →
  threads s1 = threads s2 →
  playback_thread s1 = playback_thread s2 →
  clock s1 = clock s2 →
  s1 = s2.
Proof. destruct s1, s2; simpl; intros; by subst. Qed.

Lemma pinch_loop_run (notes : list Z) (s : Piano) :
  player s = true → recording_started s →
  for_each notes start_pinch_note s
  = (Ok (), pinch_started s (fresh_notes (active_notes s) notes)).
Proof.
  revert s. induction notes as [|note notes IH]; intros s Hs Hrec.
  { simpl. unfold skip, mret, M_ret, pinch_started, note_ons.
    assert (pinch_recording s [] = []) as ->.
    { unfold pinch_recording. by destruct (recording s). }
    simpl. rewrite !app_nil_r. f_equal.
    apply piano_ext; simpl; try done. set_solver. }
  rewrite for_each_cons_run. simpl.
  unfold start_pinch_note at 1.
  unfold play_single_note, record_event, active_notes_add, player_write,
    bind_to, mbind, M_bind, gets, modify, skip, raise, mret, M_ret.
  destruct (decide (note ∈ active_notes s)) as [Hactive|Hfresh].
  { rewrite bool_decide_eq_false_2 by auto. by apply IH. }
  rewrite bool_decide_eq_true_2 by done. rewrite Hs. simpl.
  destruct (recording s) eqn:Hrecording; simpl.
  - destruct (Hrec Hrecording) as [t0 Ht0]. rewrite Ht0. simpl.
    rewrite IH; [|done|by intros _; simpl; eauto].
    unfold pinch_started, pinch_recording, note_ons. simpl.
    rewrite Hrecording, Ht0. simpl.
    f_equal. apply piano_ext; simpl; rewrite <- ?app_assoc; try done.
    set_solver.
  - rewrite IH; [|done|by intros Hr; simpl in Hr; congruence].
    unfold pinch_started, pinch_recording, note_ons. simpl.
    rewrite Hrecording. simpl.
    f_equal. apply piano_ext; simpl; rewrite <- ?app_assoc, ?app_nil_r;
      try done.
    set_solver.
Qed.

Lemma handle_pinch_gesture_pinching (hand : Hand) (s : Piano) :
  hand_pinches hand (pinch_threshold s) = true →
  handle_pinch_gesture hand s
  = ((playing <- gets pinch_chord_playing;
      (if negb playing then start_pinch_chord else skip);;
      bend_from_position hand;;
      mret true) s).
Proof.
  unfold hand_pinches, handle_pinch_gesture. intros Hpinch.
  destruct (lmList hand !! 4%nat) as [thumb_tip|] eqn:Hthumb; [|done].
  destruct (lmList hand !! 8%nat) as [index_tip|] eqn:Hindex; [|done].
  apply andb_true_iff in Hpinch as [Hlen Hpinch].
  apply bool_decide_eq_true in Hlen.
  rewrite bool_decide_eq_false_2 by lia.
  unfold bind_to at 1. unfold mbind at 1, M_bind at 1, lift at 1.
  rewrite (list_getitem_at _ 4 thumb_tip) by (done || lia).
  unfold bind_to at 1. unfold mbind at 1, M_bind at 1, lift at 1.
  rewrite (list_getitem_at _ 8 index_tip) by (done || lia).
  unfold bind_to at 1. unfold mbind at 1, M_bind at 1, gets at 1.
  by rewrite Hpinch.
Qed.

Lemma bend_from_position_run (hand : Hand) (x y w h : Z) (s : Piano) :
  bbox hand = (x, y, w, h) → player s = true → 0 < screen_width s →
  bend_from_position hand s
  = (Ok (),
     set_midi_out
       (midi_out s
        ++ [pitch_bend_message (bend_value (x + w / 2) (screen_width s))]) s).
Proof.
  intros Hbox Hs Hwidth. unfold bend_from_position. rewrite Hbox.
  unfold send_pitch_bend, player_write, bind_to, mbind, M_bind, gets, modify.
  destruct (Z.eqb_spec (screen_width s) 0) as [Hzero|_]; [lia|].
  by rewrite Hs, bend_value_computed.
Qed.

(** The whole of [handle_pinch_gesture] on a pinching hand. *)
Lemma handle_pinch_gesture_run (hand : Hand) (x y w h : Z) (s : Piano) :
  bbox hand = (x, y, w, h) → player s = true → 0 < screen_width s →
  recording_started s → hand_pinches hand (pinch_threshold s) = true →
  handle_pinch_gesture hand s
  = (Ok true,
     let s1 :=
       if pinch_chord_playing s then s
       else set_pinch_chord_playing true
              (pinch_started s
                 (fresh_notes (active_notes s) (pinch_chord_notes s))) in
     set_midi_out
       (midi_out s1
        ++ [pitch_bend_message (bend_value (x + w / 2) (screen_width s))])
       s1).
Proof.
  intros Hbox Hs Hwidth Hrec Hpinch.
  rewrite handle_pinch_gesture_pinching by done.
  unfold bind_to. unfold mbind at 1, M_bind at 1, gets at 1.
  destruct (pinch_chord_playing s) eqn:Hplaying; simpl.
  - unfold mbind, M_bind, skip, mret, M_ret.
    by rewrite (bend_from_position_run hand x y w h).
  - unfold start_pinch_chord, bind_to, mbind, M_bind, gets, modify.
    rewrite pinch_loop_run by done.
    by rewrite (bend_from_position_run hand x y w h).
Qed.

(** C7.  For a pinching hand the value sent as pitch bend is the centre
    [x + w // 2] of the bounding box divided by the screen width, clipped
    to [0, 1], times 16383, truncated: an integer between 0 and 16383
    that grows linearly with the centre; it is 8191 (so 8191 or 8192)
    when the centre is half the screen width.  The floats are exact
    rationals here; [pitch_bend_in_binary64] compares with binary64.
    The screen width is positive (zero raises [ZeroDivisionError]); the
    other hypotheses hold in every state of a run ([run_well_formed]). *)
Theorem pinch_pitch_bend_value (hand : Hand) (x y w h : Z) (s : Piano) :
  bbox hand = (x, y, w, h) → player s = true → 0 < screen_width s →
  recording_started s → hand_pinches hand (pinch_threshold s) = true →
  let center_x := x + w / 2 in
  let v := py_int (np_clip (inject_Z center_x / inject_Z (screen_width s)) 0 1
                   * 16383)%Q in
  (handle_pinch_gesture hand s).1 = Ok true
  ∧ last (midi_out (handle_pinch_gesture hand s).2)
    = Some (WriteShort 224 (Z.land v 127) (Z.land (Z.shiftr v 7) 127))
  ∧ v = bend_value center_x (screen_width s)
  ∧ 0 ≤ v ≤ 16383
  ∧ (0 ≤ center_x ≤ screen_width s → v = center_x * 16383 / screen_width s)
  ∧ (2 * center_x = screen_width s → v = 8191 ∨ v = 8192).
Proof.
  intros Hbox Hs Hwidth Hrec Hpinch center_x v.
  assert (Hv : v = bend_value center_x (screen_width s))
    by (by apply bend_value_computed).
  rewrite (handle_pinch_gesture_run hand x y w h) by done.
  split; [done|]. split; [|split; [done|]].
  { cbv zeta. simpl. rewrite last_snoc, Hv. done. }
  rewrite Hv. split; [by apply bend_value_range|]. split.
  - intros Hc. unfold bend_value.
    destruct (Z.leb_spec center_x 0) as [Hneg|_].
    { assert (center_x = 0) as -> by lia. done. }
    destruct (Z.leb_spec (screen_width s) center_x) as [Hbig|_]; [|done].
    assert (center_x = screen_width s) as -> by lia.
    rewrite Z.mul_comm, Z.div_mul; lia.
  - intros Hc. left. by apply bend_value_centre.
Qed.

End Pinch.

(** *** The multiplier plays no part *)

Section Multiplier.

Context `{PyMath}.

Lemma Ignores_ret {A} (a : A) : IgnoresMultiplier (mret a : M A).
Proof. intros q s. done. Qed.

Lemma Ignores_raise {A} (e : exn) : IgnoresMultiplier (raise e : M A).
Proof. intros q s. done. Qed.

Lemma Ignores_lift {A} (r : result A) : IgnoresMultiplier (lift r).
Proof. intros q s. done. Qed.

Lemma Ignores_gets {A} (f : Piano → A) :
  (∀ q s, f (set_velocity_multiplier q s) = f s) →
  IgnoresMultiplier (gets f).
Proof. intros Hf q s. unfold gets. by rewrite Hf. Qed.

Lemma Ignores_modify (g : Piano → Piano) :
  (∀ q s, g (set_velocity_multiplier q s) = set_velocity_multiplier q (g s)) →
  IgnoresMultiplier (modify g).
Proof. intros Hg q s. unfold modify. by rewrite Hg. Qed.

Lemma Ignores_bind {A B} (m : M A) (k : A → M B) :
  IgnoresMultiplier m → (∀ a, IgnoresMultiplier (k a)) →
  IgnoresMultiplier (m ≫= k).
Proof.
  intros Hm Hk q s. unfold mbind, M_bind. rewrite Hm.
  destruct (m s) as [[a|e] s1]; simpl; [|done]. rewrite Hk.
  by destruct (k a s1).
Qed.

Lemma Ignores_for_each {A} (l : list A) (body : A → M unit) :
  (∀ x, IgnoresMultiplier (body x)) → IgnoresMultiplier (for_each l body).
Proof.
  intros Hbody. induction l as [|x l IH]; simpl.
  - apply Ignores_ret.
  - by apply Ignores_bind.
Qed.

Ltac ignores_step :=
  first
    [ apply Ignores_ret | apply Ignores_raise | apply Ignores_lift
    | apply Ignores_gets; done
    | apply Ignores_modify; done
    | apply Ignores_for_each; intros ?
    | apply Ignores_bind; [|intros ?]
    | match goal with
      | |- IgnoresMultiplier (if ?c then _ else _) => destruct c
      | |- IgnoresMultiplier (match ?x with _ => _ end) => destruct x
      end ].

(** [handle_pinch_gesture] never reads the velocity multiplier. *)
Lemma handle_pinch_gesture_ignores_multiplier (hand : Hand) :
  IgnoresMultiplier (handle_pinch_gesture hand).
Proof.
  unfold handle_pinch_gesture, start_pinch_chord, start_pinch_note,
    bend_from_position, send_pitch_bend, play_single_note, record_event,
    active_notes_add, player_write, skip, bind_to.
  destruct (bbox hand) as [[[x y] w] h].
  repeat ignores_step.
Qed.

End Multiplier.

Section PinchVelocity.

Context `{PyMath}.

(** Whatever the screen width, the bend of a pinching hand changes the
    log of the device only, by at most one message that is no note-on. *)
Lemma bend_from_position_sends (hand : Hand) (s : Piano) :
  ∃ rest : list midi_msg,
    Forall plain_message rest
    ∧ (bend_from_position hand s).2 = set_midi_out (midi_out s ++ rest) s.
Proof.
  unfold bend_from_position. destruct (bbox hand) as [[[x y] w] h].
  unfold send_pitch_bend, player_write, bind_to, mbind, M_bind, gets, modify,
    raise, skip, mret, M_ret.
  assert (Hsame : s = set_midi_out (midi_out s ++ []) s).
  { apply piano_ext; simpl; try done. by rewrite app_nil_r. }
  destruct (screen_width s =? 0); [by exists []|].
  destruct (player s); [|by exists []].
  eexists [_]. split; [|done]. by repeat constructor.
Qed.

(** C10.  When a pinch starts, the notes of the pinch chord that are not
    yet active are sent with velocity 120 and, if a recording runs,
    recorded with velocity 120; no other note-on is sent; and the
    velocity multiplier has no influence: with any other multiplier the
    same messages are sent and the same events recorded.  The device is
    set and a recording has its start time, as in every state of a run
    ([run_well_formed]). *)
Theorem pinch_chord_velocity_is_fixed (hand : Hand) (s : Piano) :
  player s = true → recording_started s →
  pinch_chord_playing s = false →
  hand_pinches hand (pinch_threshold s) = true →
  let started := fresh_notes (active_notes s) (pinch_chord_notes s) in
  let s' := (handle_pinch_gesture hand s).2 in
  (∀ n, n ∈ started ↔ n ∈ pinch_chord_notes s ∧ n ∉ active_notes s)
  ∧ (∃ rest : list midi_msg,
       midi_out s' = midi_out s ++ note_ons 120 started ++ rest
       ∧ Forall plain_message rest)
  ∧ recorded_notes s' = recorded_notes s ++ pinch_recording s started
  ∧ Forall (λ e, ev_velocity e = 120 ∧ ev_action e = "on")
           (pinch_recording s started)
  ∧ (∀ q : Q,
       handle_pinch_gesture hand (set_velocity_multiplier q s)
       = ((handle_pinch_gesture hand s).1, set_velocity_multiplier q s')).
Proof.
  intros Hs Hrec Hplaying Hpinch started s'.
  split; [intros n; apply fresh_notes_spec|].
  assert (Hrun : ∃ rest : list midi_msg,
            Forall plain_message rest
            ∧ s' = set_midi_out
                     (midi_out s ++ note_ons 120 started ++ rest)
                     (set_pinch_chord_playing true (pinch_started s started))).
  { subst s'. rewrite handle_pinch_gesture_pinching by done.
    unfold bind_to. unfold mbind at 1, M_bind at 1, gets at 1.
    rewrite Hplaying. simpl.
    unfold start_pinch_chord, bind_to.
    unfold mbind at 1, M_bind at 1.
    unfold mbind at 1, M_bind at 1, gets at 1.
    unfold mbind at 1, M_bind at 1.
    rewrite pinch_loop_run by done. unfold modify at 1.
    fold started.
    destruct (bend_from_position_sends hand
                (set_pinch_chord_playing true (pinch_started s started)))
      as (rest & Hplain & Hbend).
    exists rest. split; [done|].
    unfold mbind, M_bind.
    destruct (bend_from_position hand _) as [[[]|e] s1]; simpl in *;
      subst s1; apply piano_ext; simpl; try done; by rewrite app_assoc. }
  destruct Hrun as (rest & Hplain & Hrun).
  split; [|split; [|split]].
  - exists rest. by rewrite Hrun.
  - by rewrite Hrun.
  - unfold pinch_recording. destruct (recording s); [|done].
    apply Forall_fmap, Forall_forall. done.
  - intros q. by rewrite handle_pinch_gesture_ignores_multiplier.
Qed.

End PinchVelocity.

Lemma pinch_pitch_bend_value_witness :
  let s := initial 1280 in
  let v := py_int (np_clip (inject_Z 640 / inject_Z (screen_width s)) 0 1
                   * 16383)%Q in
  (handle_pinch_gesture right_pinch s).1 = Ok true
  ∧ last (midi_out (handle_pinch_gesture right_pinch s).2)
    = Some (WriteShort 224 (Z.land v 127) (Z.land (Z.shiftr v 7) 127))
  ∧ v = PitchBendSpec.bend_value 640 (screen_width s)
  ∧ 0 ≤ v ≤ 16383
  ∧ (0 ≤ 640 ≤ screen_width s → v = 640 * 16383 / screen_width s)
  ∧ (2 * 640 = screen_width s → v = 8191 ∨ v = 8192).
Proof.
  apply (pinch_pitch_bend_value right_pinch 540 200 200 220 (initial 1280)).
  - reflexivity.
  - reflexivity.
  - reflexivity.
  - intros Hrec. discriminate Hrec.
  - vm_compute. reflexivity.
Defined.

Lemma pinch_chord_velocity_is_fixed_witness :
  let s := run [KeyPress 0 114 1280] (initial 1280) in
  let started := fresh_notes (active_notes s) (pinch_chord_notes s) in
  let s' := (handle_pinch_gesture right_pinch s).2 in
  (∀ n, n ∈ started ↔ n ∈ pinch_chord_notes s ∧ n ∉ active_notes s)
  ∧ (∃ rest : list midi_msg,
       midi_out s' = midi_out s ++ note_ons 120 started ++ rest
       ∧ Forall plain_message rest)
  ∧ recorded_notes s' = recorded_notes s ++ pinch_recording s started
  ∧ Forall (λ e, ev_velocity e = 120 ∧ ev_action e = "on")
           (pinch_recording s started)
  ∧ (∀ q : Q,
       handle_pinch_gesture right_pinch (set_velocity_multiplier q s)
       = ((handle_pinch_gesture right_pinch s).1,
          set_velocity_multiplier q s')).
Proof.
  apply (pinch_chord_velocity_is_fixed right_pinch
           (run [KeyPress 0 114 1280] (initial 1280))).
  - reflexivity.
  - intros _. vm_compute. eauto.
  - reflexivity.
  - vm_compute. reflexivity.
Defined.

Example pinch_at_the_centre :
  let s := run [KeyPress 0 114 1280; Frame 1 [right_pinch] 1280]
               (initial 1280) in
  midi_out s = [SetInstrument 0; NoteOn 84 120; NoteOn 88 120; NoteOn 91 120;
                WriteShort 224 127 63]
  ∧ ev_velocity <$> recorded_notes s = [120; 120; 120]
  ∧ 127 + 128 * 63 = 8191.
Proof. vm_compute. repeat split. Qed.

Example pinch_with_doubled_volume :
  let louder := [KeyPress 0 43 1280; KeyPress 0 43 1280; KeyPress 0 43 1280] in
  midi_out (run (louder ++ [Frame 1 [right_pinch] 1280]) (initial 1280))
  = midi_out (run [Frame 1 [right_pinch] 1280] (initial 1280)).
Proof. vm_compute. reflexivity. Qed.

(** ** What holds in every state of a run *)

Section Reachable.

Context `{PyMath}.

Lemma Preserves_for_fold {A B C} (f : Piano → C) (l : list A) (acc : B)
    (body : B → A → M B) :
  (∀ acc x, Preserves f (body acc x)) → Preserves f (for_fold l acc body).
Proof.
  intros Hbody. revert acc. induction l as [|x l IH]; intros acc; simpl.
  - apply Preserves_ret.
  - by apply Preserves_bind.
Qed.

Ltac settled_step :=
  first
    [ apply Preserves_ret | apply Preserves_raise | apply Preserves_lift
    | apply Preserves_gets
    | apply Preserves_modify; solve [intros; auto]
    | apply Preserves_for_each; intros ?
    | apply Preserves_for_fold; intros ? ?
    | apply Preserves_bind; [|intros ?]
    | match goal with
      | |- Preserves _ (if ?c then _ else _) => destruct c
      | |- Preserves _ (match ?x with _ => _ end) => destruct x
      end ].

Lemma settled_handle_pinch_gesture {C} (f : Piano → C) (hand : Hand) :
  settled f → Preserves f (handle_pinch_gesture hand).
Proof.
  intros (?&?&?&?&?&?&?&?&?&?&?&?&?).
  unfold handle_pinch_gesture, start_pinch_chord, start_pinch_note,
    bend_from_position, send_pitch_bend, play_single_note, record_event,
    active_notes_add, player_write, skip, bind_to.
  destruct (bbox hand) as [[[x y] w] h]. repeat settled_step.
Qed.

Lemma settled_play_chord_enhanced {C} (f : Piano → C) (chord_notes : list Z)
    (velocity : Z) :
  settled f → Preserves f (play_chord_enhanced chord_notes velocity).
Proof.
  intros (?&?&?&?&?&?&?&?&?&?&?&?&?).
  unfold play_chord_enhanced. apply Preserves_for_each. intros [i note].
  unfold play_note_of_chord, play_single_note, record_event,
    active_notes_add, start_thread, player_write, skip, bind_to.
  repeat settled_step.
Qed.

Lemma settled_process_finger {C} (f : Piano → C)
    (chords : gmap string (gmap string (list Z))) (hand : Hand)
    (hand_key : string) (fingers_up_list : list Z) (loc : FrameLocals)
    (entry : Z * string) :
  settled f →
  Preserves f (process_finger chords hand hand_key fingers_up_list loc entry).
Proof.
  intros Hf. pose proof Hf as (?&?&?&?&?&?&?&?&?&?&?&?&?).
  destruct entry as [i finger_name].
  unfold process_finger, calculate_dynamic_velocity, stop_chord_enhanced,
    start_thread, bind_to.
  repeat first [by apply settled_play_chord_enhanced | settled_step].
Qed.

Lemma settled_process_frame {C} (f : Piano → C) (hands : list Hand)
    (frame_width : Z) :
  settled f → Preserves f (process_frame hands frame_width).
Proof.
  intros Hf. pose proof Hf as (?&?&?&?&?&?&?&?&?&?&?&?&?).
  unfold process_frame, no_hands, process_hands, process_hand,
    flush_active_notes, get_current_chords, send_pitch_bend, player_write,
    active_notes_discard, skip, bind_to.
  repeat first [ by apply settled_handle_pinch_gesture
               | by apply settled_process_finger
               | settled_step ].
Qed.

Lemma settled_threads {C} (f : Piano → C) (now : Q) (k : nat) :
  settled f →
  Preserves f (run_thread k) ∧ Preserves f playback_thread_step.
Proof.
  intros (?&?&?&?&?&?&?&?&?&?&?&?&?). split.
  - unfold run_thread, task_body, echo_timer_body, stop_after_delay,
      release_note, play_single_note, record_event, active_notes_add,
      active_notes_discard, player_write, skip, bind_to.
    repeat settled_step.
  - unfold playback_thread_step, playback_event, flush_active_notes,
      active_notes_add, active_notes_discard, player_write, skip, bind_to.
    repeat settled_step.
Qed.

Lemma settled_cleanup {C} (f : Piano → C) : settled f → Preserves f cleanup.
Proof.
  intros (?&?&?&?&?&?&?&?&?&?&?&?&?).
  unfold cleanup, player_write, skip, bind_to. repeat settled_step.
Qed.

Lemma recording_started_toggle (s : Piano) :
  recording_started (toggle_recording s).2.
Proof.
  unfold toggle_recording, rebind_recorded_notes, skip, bind_to, mbind,
    M_bind, gets, modify.
  destruct (recording s); simpl; [done|].
  destruct (playback_thread s) as [[|index [events|]]|]; simpl;
    intros _; simpl; eauto.
Qed.

Lemma cycle_scale_preserves {C} (f : Piano → C) :
  (∀ v s, f (set_current_scale v s) = f s) →
  (∀ v s, f (set_prev_states v s) = f s) →
  (∀ v s, f (set_active_keys v s) = f s) →
  Preserves f cycle_scale.
Proof.
  intros H1 H2 H3. unfold cycle_scale, get_current_chords, bind_to.
  repeat settled_step.
Qed.

Lemma cycle_scale_stays_in_table (s : Piano) :
  current_scale s ∈ scales.*1 → current_scale (cycle_scale s).2 ∈ scales.*1.
Proof.
  simpl. rewrite !elem_of_cons, elem_of_nil.
  intros [Hs|[Hs|[Hs|[]]]].
  - rewrite (cycle_scale_run s _ "C_Major" C_Major Hs); [simpl; auto|left].
  - rewrite (cycle_scale_run s _ "Pentatonic" Pentatonic Hs);
      [simpl; auto|right; left].
  - rewrite (cycle_scale_run s _ "D_Major" D_Major Hs);
      [simpl; auto|right; right; left].
Qed.

Lemma handle_keyboard_input_well_formed (key window_width : Z) (s : Piano) :
  recording_started s → current_scale s ∈ scales.*1 →
  recording_started (handle_keyboard_input key window_width s).2
  ∧ current_scale (handle_keyboard_input key window_width s).2 ∈ scales.*1.
Proof.
  intros Hrec Hscale.
  assert (Hsame : ∀ m : M unit,
            Preserves (λ s, (recording s, recording_start_time s)) m →
            Preserves current_scale m →
            recording_started (m s).2 ∧ current_scale (m s).2 ∈ scales.*1).
  { intros m Hm1 Hm2. pose proof (Hm1 s) as [= Hr Ht]. rewrite (Hm2 s).
    split; [|done]. unfold recording_started. by rewrite Hr, Ht. }
  unfold handle_keyboard_input.
  destruct (key =? 102); [apply Hsame; by apply Preserves_modify|].
  destruct (key =? 115).
  { split; [|by apply cycle_scale_stays_in_table].
    pose proof (cycle_scale_preserves
                  (λ s, (recording s, recording_start_time s))
                  ltac:(done) ltac:(done) ltac:(done) s) as [= Hr Ht].
    unfold recording_started. by rewrite Hr, Ht. }
  destruct (key =? 114).
  { split; [apply recording_started_toggle|].
    unfold toggle_recording, rebind_recorded_notes, skip, bind_to, mbind,
      M_bind, gets, modify.
    destruct (recording s); [done|]. simpl.
    by destruct (playback_thread s) as [[|index [events|]]|]. }
  unfold playback_recording, player_write, skip, bind_to.
  apply Hsame; repeat settled_step.
Qed.

Lemma well_formed_event (ev : Event) (s : Piano) :
  well_formed s → well_formed (event_action ev s).2.
Proof.
  intros (Hplayer & Hrec & Hscale).
  assert (Hp : player (event_action ev s).2 = true).
  { destruct (perform_follows false (OnEvent ev) s Hplayer) as [Hp _];
      [done|]. simpl in Hp. congruence. }
  split; [done|].
  assert (Hrecording : settled (λ s, (recording s, recording_start_time s)))
    by (repeat split).
  assert (Hname : settled current_scale) by (repeat split).
  assert (Hsame : ∀ m : M unit,
            (∀ {C} (f : Piano → C), settled f → Preserves f m) →
            recording_started (m s).2 ∧ current_scale (m s).2 ∈ scales.*1).
  { intros m Hm. pose proof (Hm _ _ Hrecording s) as [= Hr Ht].
    rewrite (Hm _ _ Hname s). split; [|done].
    unfold recording_started. by rewrite Hr, Ht. }
  destruct ev as [now hands w|now key w|now k|now|]; simpl.
  - apply Hsame. intros C f Hf. apply Preserves_bind.
    + apply Preserves_modify. apply Hf.
    + intros _. by apply settled_process_frame.
  - assert (Hclock : well_formed (set_clock now s)) by done.
    destruct Hclock as (_ & Hrec' & Hscale').
    apply (handle_keyboard_input_well_formed key w _ Hrec' Hscale').
  - apply Hsame. intros C f Hf. apply Preserves_bind.
    + apply Preserves_modify. apply Hf.
    + intros _. by apply (settled_threads f now k).
  - apply Hsame. intros C f Hf. apply Preserves_bind.
    + apply Preserves_modify. apply Hf.
    + intros _. by apply (settled_threads f now 0%nat).
  - apply Hsame. intros C f Hf. by apply settled_cleanup.
Qed.

Lemma cleanup_well_formed (s : Piano) :
  well_formed s → well_formed (cleanup s).2.
Proof. apply (well_formed_event Quit). Qed.

(** Every state of a run from a well-formed state is well formed. *)
Lemma run_well_formed (evs : list Event) (s : Piano) :
  well_formed s → well_formed (run evs s).
Proof.
  revert s. induction evs as [|ev evs IH]; intros s Hs; simpl; [done|].
  destruct (quits ev); [by apply cleanup_well_formed|].
  pose proof (well_formed_event ev s Hs) as Hnext.
  destruct (event_action ev s) as [[[]|e] s1]; simpl in Hnext; [by apply IH|].
  destruct (on_main_thread ev); [by apply cleanup_well_formed|by apply IH].
Qed.

Lemma initial_well_formed (camera_width : Z) :
  well_formed (initial camera_width).
Proof.
  split; [done|]. split; [intros Hrec; discriminate Hrec|]. simpl. left.
Qed.

End Reachable.

(** * Further properties of the program *)

(** ** Note names, progressions, chord names and the bend message *)

Section Names.

Import MusicTheoryHelper.

Lemma pretty_N_go_no_sharp (x : N) (s s' : string) :
  s ≠ "#" +:+ s' → pretty_N_go x s ≠ "#" +:+ s'.
Proof.
  revert s. induction (N.lt_wf_0 x) as [x _ IH]; intros s Hs.
  assert (x = 0 ∨ 0 < x)%N as [->|Hpos] by lia.
  - by rewrite pretty_N_go_0.
  - rewrite pretty_N_go_step by done. apply IH.
    { by apply N.div_lt. }
    unfold pretty_N_char. by repeat case_match.
Qed.

Lemma pretty_Z_no_sharp (z : Z) (s : string) : pretty z ≠ "#" +:+ s.
Proof.
  destruct z as [|p|p]; [done| |done].
  unfold pretty, pretty_Z, pretty, pretty_positive, pretty, pretty_N.
  case_decide; [done|]. by apply pretty_N_go_no_sharp.
Qed.

Lemma note_to_name_unfold (n : Z) :
  note_to_name n
  = Ok (nth (Z.to_nat (n mod 12)) note_names "" +:+ pretty (n / 12 - 1)).
Proof.
  unfold note_to_name.
  assert (Hmod : 0 ≤ n mod 12 < 12) by (apply Z.mod_pos_bound; lia).
  destruct (lookup_lt_is_Some_2 note_names (Z.to_nat (n mod 12)))
    as [name Hname]; [unfold note_names; simpl; lia|].
  rewrite (list_getitem_at _ _ name) by (lia || done).
  by rewrite (nth_lookup_Some _ _ "" _ Hname).
Qed.

Lemma note_to_name_inj (n m : Z) : note_to_name n = note_to_name m → n = m.
Proof.
  rewrite !note_to_name_unfold. intros [= Heq].
  assert (Hn : 0 ≤ n mod 12 < 12) by (apply Z.mod_pos_bound; lia).
  assert (Hm : 0 ≤ m mod 12 < 12) by (apply Z.mod_pos_bound; lia).
  rewrite (Z.div_mod n 12), (Z.div_mod m 12) by lia.
  set (a := n mod 12) in *. set (b := m mod 12) in *.
  set (p := n / 12) in *. set (q := m / 12) in *.
  clearbody a b p q.
  assert (Hp : ∀ x y : Z, pretty (x - 1) = pretty (y - 1) → x = y).
  { intros x y Hxy. apply (inj pretty) in Hxy. lia. }
  assert (Ha : a = 0 ∨ a = 1 ∨ a = 2 ∨ a = 3 ∨ a = 4 ∨ a = 5 ∨ a = 6 ∨ a = 7
               ∨ a = 8 ∨ a = 9 ∨ a = 10 ∨ a = 11) by lia.
  assert (Hb : b = 0 ∨ b = 1 ∨ b = 2 ∨ b = 3 ∨ b = 4 ∨ b = 5 ∨ b = 6 ∨ b = 7
               ∨ b = 8 ∨ b = 9 ∨ b = 10 ∨ b = 11) by lia.
  clear Hn Hm.
  destruct Ha as [->|[->|[->|[->|[->|[->|[->|[->|[->|[->|[->| ->]]]]]]]]]]];
  destruct Hb as [->|[->|[->|[->|[->|[->|[->|[->|[->|[->|[->| ->]]]]]]]]]]];
    simpl in Heq; try discriminate Heq;
    first
      [ by (injection Heq as Heq; apply Hp in Heq; subst)
      | by (injection Heq as Heq; injection Heq as Heq; apply Hp in Heq; subst)
      | exfalso; injection Heq as Heq;
        first [ exact (pretty_Z_no_sharp _ _ Heq)
              | exact (pretty_Z_no_sharp _ _ (eq_sym Heq)) ] ].
Qed.

(** X1.  Every MIDI note has a name of its own.  [note_to_name] returns
    for every integer, the negative ones and those above 127 too, and two
    different integers never get the same name. *)
Theorem note_names_are_distinct (n m : Z) :
  ∃ name : string,
    note_to_name n = Ok name ∧ (note_to_name m = Ok name → n = m).
Proof.
  rewrite (note_to_name_unfold n). eexists. split; [reflexivity|].
  rewrite <- (note_to_name_unfold n). intros Heq. symmetry.
  by apply note_to_name_inj.
Qed.

End Names.

Section Progression.

Lemma generate_chord_progression_run (key_root_midi : Z)
    (progression_type : string) :
  generate_chord_progression key_root_midi progression_type
  = Ok ((λ interval, key_root_midi + interval)
          <$> default [0; 7; 9; 5] (progressions !! progression_type)).
Proof. reflexivity. Qed.

Lemma progressions_cases (progression_type : string) :
  progressions !! progression_type = None
  ∧ progression_type ∉ ["I-V-vi-IV"; "vi-IV-I-V"; "I-vi-IV-V"]
  ∨ progressions !! progression_type = Some [0; 7; 9; 5]
  ∨ progressions !! progression_type = Some [9; 5; 0; 7]
    ∧ progression_type = "vi-IV-I-V"
  ∨ progressions !! progression_type = Some [0; 9; 5; 7]
    ∧ progression_type = "I-vi-IV-V".
Proof.
  unfold progressions. simpl.
  destruct (decide (progression_type = "I-V-vi-IV")) as [->|H1];
    [right; left; by rewrite lookup_insert_eq|].
  rewrite lookup_insert_ne by done.
  destruct (decide (progression_type = "vi-IV-I-V")) as [->|H2];
    [right; right; left; by rewrite lookup_insert_eq|].
  rewrite lookup_insert_ne by done.
  destruct (decide (progression_type = "I-vi-IV-V")) as [->|H3];
    [right; right; right; by rewrite lookup_insert_eq|].
  rewrite lookup_insert_ne by done. left. split; [done|].
  rewrite !elem_of_cons, elem_of_nil. tauto.
Qed.

(** X2.  [generate_chord_progression] never raises and returns four roots,
    always the tonic, the fourth, the fifth and the sixth of the key in
    some order (the three known progressions differ by the order only);
    a progression type it does not know gives I-V-vi-IV. *)
Theorem generate_chord_progression_roots (key_root_midi : Z)
    (progression_type : string) :
  ∃ roots : list Z,
    generate_chord_progression key_root_midi progression_type = Ok roots
    ∧ roots ≡ₚ [key_root_midi; key_root_midi + 5; key_root_midi + 7;
                key_root_midi + 9]
    ∧ (progression_type ∉ ["I-V-vi-IV"; "vi-IV-I-V"; "I-vi-IV-V"] →
       roots = [key_root_midi; key_root_midi + 7; key_root_midi + 9;
                key_root_midi + 5]).
Proof.
  rewrite generate_chord_progression_run. eexists. split; [reflexivity|].
  set (r := key_root_midi).
  assert (Hdefault : [r + 0; r + 7; r + 9; r + 5] ≡ₚ [r; r + 5; r + 7; r + 9]).
  { rewrite Z.add_0_r. apply perm_skip.
    etrans; [apply perm_skip, perm_swap|]. apply perm_swap. }
  destruct (progressions_cases progression_type)
    as [[-> Hother]|[Hknown|[[Hknown ->]|[Hknown ->]]]]; simpl.
  - split; [done|]. by rewrite Z.add_0_r.
  - rewrite Hknown. simpl. split; [done|]. by rewrite Z.add_0_r.
  - rewrite Hknown. simpl. split.
    + rewrite Z.add_0_r.
      etrans; [apply perm_swap|].
      etrans; [apply perm_skip, perm_swap|].
      etrans; [apply perm_swap|]. apply perm_skip, perm_skip, perm_swap.
    + intros Hother. exfalso. apply Hother.
      rewrite !elem_of_cons. auto.
  - rewrite Hknown. simpl. split.
    + rewrite Z.add_0_r. apply perm_skip.
      etrans; [apply perm_swap|]. apply perm_skip, perm_swap.
    + intros Hother. exfalso. apply Hother.
      rewrite !elem_of_cons. auto.
Qed.

End Progression.

Lemma generate_chord_progression_roots_witness :
  ∃ roots : list Z,
    generate_chord_progression 60 "twelve-bar" = Ok roots
    ∧ roots ≡ₚ [60; 65; 67; 69]
    ∧ roots = [60; 67; 69; 65].
Proof.
  destruct (generate_chord_progression_roots 60 "twelve-bar")
    as (roots & Hrun & Hperm & Hdefault).
  exists roots. do 2 (split; [done|]). apply Hdefault.
  apply not_elem_of_cons; split; [done|].
  apply not_elem_of_cons; split; [done|].
  apply not_elem_of_cons; split; [done|]. apply not_elem_of_nil.
Defined.

Section ChordOrder.

Import MusicTheoryHelper.

Lemma sorted_Permutation (notes notes' : list Z) :
  notes ≡ₚ notes' → sorted notes = sorted notes'.
Proof.
  intros Hperm. unfold sorted.
  apply (Sorted_unique Z.le); try apply Sorted_merge_sort; try apply _.
  by rewrite !merge_sort_Permutation.
Qed.

Lemma get_chord_name_total (notes : list Z) :
  ∃ name, get_chord_name notes = Ok name.
Proof.
  unfold get_chord_name. case_bool_decide as Hne; [by eexists|].
  destruct (sorted_nonempty notes Hne) as (root & rest & -> & _ & _).
  rewrite (list_getitem_at (root :: rest) 0 root) by (done || lia).
  cbn [bind_to mbind result_bind]. rewrite note_to_name_unfold.
  cbn [bind_to mbind result_bind length].
  destruct rest as [|b [|c rest]].
  - by eexists.
  - rewrite bool_decide_eq_false_2 by done.
    rewrite bool_decide_eq_true_2 by done.
    rewrite ?(list_getitem_at [root; b] 1 b) by (done || lia).
    rewrite ?(list_getitem_at [root; b] 0 root) by (done || lia).
    simpl. rewrite pair_quality_cases. by eexists.
  - rewrite bool_decide_eq_false_2 by done.
    rewrite bool_decide_eq_false_2 by done.
    rewrite bool_decide_eq_true_2 by (simpl; lia).
    rewrite ?(list_getitem_at (root :: b :: c :: rest) 1 b) by (done || lia).
    rewrite ?(list_getitem_at (root :: b :: c :: rest) 0 root) by (done || lia).
    rewrite ?(list_getitem_at (root :: b :: c :: rest) 2 c) by (done || lia).
    simpl. rewrite triad_quality_cases. by eexists.
Qed.

(** X3.  [get_chord_name] returns a name for every list of integers, and
    the name does not depend on the order of the notes: it is the same
    for any two lists that are permutations of each other, so the chord
    shown for a set of notes is well defined. *)
Theorem get_chord_name_ignores_order :
  (∀ notes : list Z, ∃ name, get_chord_name notes = Ok name)
  ∧ (∀ notes notes' : list Z,
       notes ≡ₚ notes' → get_chord_name notes = get_chord_name notes').
Proof.
  split; [apply get_chord_name_total|].
  intros notes notes' Hperm. unfold get_chord_name.
  rewrite (sorted_Permutation notes notes' Hperm).
  assert (bool_decide (notes = []) = bool_decide (notes' = [])) as ->; [|done].
  apply bool_decide_ext. split; intros ->.
  - by apply Permutation_nil_l in Hperm.
  - by apply Permutation_nil_r in Hperm.
Qed.

End ChordOrder.

Lemma get_chord_name_ignores_order_witness :
  get_chord_name [67; 60; 64] = get_chord_name [60; 64; 67].
Proof.
  apply (proj2 get_chord_name_ignores_order).
  etrans; [apply perm_swap|]. apply perm_skip, perm_swap.
Defined.

Section BendMessage.

Context `{PyMath}.

Lemma pitch_bend_bytes (bend_value : Z) :
  let lsb := Z.land bend_value 127 in
  let msb := Z.land (Z.shiftr bend_value 7) 127 in
  0 ≤ lsb ≤ 127 ∧ 0 ≤ msb ≤ 127
  ∧ lsb + 128 * msb = bend_value mod 16384.
Proof.
  cbv zeta. change 127 with (Z.ones 7).
  rewrite !Z.land_ones, Z.shiftr_div_pow2 by lia.
  change (2 ^ 7) with 128.
  assert (0 ≤ bend_value mod 128 < 128) by (apply Z.mod_pos_bound; lia).
  assert (0 ≤ (bend_value / 128) mod 128 < 128)
    by (apply Z.mod_pos_bound; lia).
  assert (Hsplit : bend_value mod 16384
                   = bend_value mod 128 + 128 * ((bend_value / 128) mod 128))
    by (apply (Z.rem_mul_r bend_value 128 128); lia).
  change (Z.ones 7) with 127. lia.
Qed.

(** X4.  [send_pitch_bend] writes one message of status 0xE0 whose two data
    bytes are valid MIDI data bytes (0 to 127) for every integer, and hold
    the value modulo 2^14, low seven bits first: a value between 0 and
    16383 is recovered from them as lsb + 128 * msb, and the centre 8192
    is sent as (0, 64).  Nothing else of the instance changes, and without
    a device nothing happens. *)
Theorem send_pitch_bend_encodes (bend_value : Z) (s : Piano) :
  (player s = true →
   ∃ lsb msb : Z,
     send_pitch_bend bend_value s
     = (Ok (), set_midi_out (midi_out s ++ [WriteShort 224 lsb msb]) s)
     ∧ 0 ≤ lsb ≤ 127 ∧ 0 ≤ msb ≤ 127
     ∧ lsb + 128 * msb = bend_value mod 16384
     ∧ (0 ≤ bend_value ≤ 16383 → lsb + 128 * msb = bend_value)
     ∧ (bend_value = 8192 → lsb = 0 ∧ msb = 64))
  ∧ (player s = false → send_pitch_bend bend_value s = (Ok (), s)).
Proof.
  unfold send_pitch_bend, player_write, pitch_bend_message, bind_to, mbind,
    M_bind, gets, modify, skip.
  split; intros ->; [|done].
  destruct (pitch_bend_bytes bend_value) as (Hlsb & Hmsb & Hvalue).
  cbv zeta in Hlsb, Hmsb, Hvalue.
  eexists _, _. split; [reflexivity|]. do 3 (split; [done|]). split.
  - intros Hrange. rewrite Hvalue. by apply Z.mod_small; lia.
  - by intros ->.
Qed.

End BendMessage.

Lemma send_pitch_bend_encodes_witness :
  ∃ lsb msb : Z,
    send_pitch_bend 8192 (initial 1280)
    = (Ok (), set_midi_out
                (midi_out (initial 1280) ++ [WriteShort 224 lsb msb])
                (initial 1280))
    ∧ 0 ≤ lsb ≤ 127 ∧ 0 ≤ msb ≤ 127
    ∧ lsb + 128 * msb = 8192 mod 16384
    ∧ lsb + 128 * msb = 8192
    ∧ lsb = 0 ∧ msb = 64.
Proof.
  destruct (proj1 (send_pitch_bend_encodes 8192 (initial 1280)) eq_refl)
    as (lsb & msb & Hrun & Hlsb & Hmsb & Hvalue & Hsmall & Hcentre).
  exists lsb, msb. do 4 (split; [done|]).
  split; [apply Hsmall; lia|by apply Hcentre].
Defined.

Section Logic.

Context `{PyMath}.

Lemma hoare_ret {A} (P : Piano → Prop) (a : A) (Q : A → Piano → Prop)
    (E : Piano → Prop) :
  (∀ s, P s → Q a s) → hoare P (mret a) Q E.
Proof. intros HQ s Hs. by apply HQ. Qed.

Lemma hoare_raise {A} (P : Piano → Prop) (e : exn) (Q : A → Piano → Prop)
    (E : Piano → Prop) :
  (∀ s, P s → E s) → hoare P (raise e) Q E.
Proof. intros HE s Hs. by apply HE. Qed.

Lemma hoare_gets {A} (P : Piano → Prop) (f : Piano → A)
    (Q : A → Piano → Prop) (E : Piano → Prop) :
  (∀ s, P s → Q (f s) s) → hoare P (gets f) Q E.
Proof. intros HQ s Hs. by apply HQ. Qed.

Lemma hoare_modify (P : Piano → Prop) (g : Piano → Piano)
    (Q : unit → Piano → Prop) (E : Piano → Prop) :
  (∀ s, P s → Q () (g s)) → hoare P (modify g) Q E.
Proof. intros HQ s Hs. by apply HQ. Qed.

Lemma hoare_lift {A} (P : Piano → Prop) (r : result A)
    (Q : A → Piano → Prop) (E : Piano → Prop) :
  (∀ s, P s → match r with Ok a => Q a s | Raise _ => E s end) →
  hoare P (lift r) Q E.
Proof. intros HQ s Hs. specialize (HQ s Hs). unfold lift. by destruct r. Qed.

Lemma hoare_bind {A B} (P : Piano → Prop) (m : M A) (R : A → Piano → Prop)
    (k : A → M B) (Q : B → Piano → Prop) (E : Piano → Prop) :
  hoare P m R E → (∀ a, hoare (R a) (k a) Q E) → hoare P (m ≫= k) Q E.
Proof.
  intros Hm Hk s Hs. specialize (Hm s Hs). unfold mbind, M_bind.
  destruct (m s) as [[a|e] s1]; [|done]. by apply Hk.
Qed.

Lemma hoare_consequence {A} (P P' : Piano → Prop) (m : M A)
    (Q Q' : A → Piano → Prop) (E E' : Piano → Prop) :
  hoare P m Q E →
  (∀ s, P' s → P s) → (∀ a s, Q a s → Q' a s) → (∀ s, E s → E' s) →
  hoare P' m Q' E'.
Proof.
  intros Hm HP HQ HE s Hs. specialize (Hm s (HP s Hs)).
  destruct (m s) as [[a|e] s1]; auto.
Qed.

(** A fact that does not speak of the state can be taken out. *)
Lemma hoare_pure {A} (fact : Prop) (P : Piano → Prop) (m : M A)
    (Q : A → Piano → Prop) (E : Piano → Prop) :
  (fact → hoare P m Q E) → hoare (λ s, P s ∧ fact) m Q E.
Proof. intros Hm s [Hs Hfact]. by apply Hm. Qed.

(** Reading an attribute: what the state tells about the value read stays
    known when it does not speak of the state. *)
Lemma hoare_bind_gets {A B} (fact : A → Prop) (P : Piano → Prop)
    (f : Piano → A) (k : A → M B) (Q : B → Piano → Prop) (E : Piano → Prop) :
  (∀ s, P s → fact (f s)) → (∀ a, fact a → hoare P (k a) Q E) →
  hoare P (gets f ≫= k) Q E.
Proof. intros Hfact Hk s Hs. apply (Hk (f s)); auto. Qed.

Lemma hoare_for_each {A} (I : Piano → Prop) (l : list A) (body : A → M unit)
    (E : Piano → Prop) :
  (∀ x, x ∈ l → hoare I (body x) (λ _, I) E) →
  hoare I (for_each l body) (λ _, I) E.
Proof.
  intros Hbody. induction l as [|x l IH]; simpl.
  - by apply hoare_ret.
  - eapply hoare_bind; [apply Hbody; left|].
    intros ?. apply IH. intros y Hy. apply Hbody. by right.
Qed.

Lemma hoare_for_fold {A B} (I : B → Piano → Prop) (l : list A) (acc : B)
    (body : B → A → M B) (E : Piano → Prop) :
  (∀ acc x, x ∈ l → hoare (I acc) (body acc x) I E) →
  hoare (I acc) (for_fold l acc body) I E.
Proof.
  intros Hbody. revert acc. induction l as [|x l IH]; intros acc; simpl.
  - by apply hoare_ret.
  - eapply hoare_bind; [apply Hbody; left|].
    intros acc'. apply IH. intros acc'' y Hy. apply Hbody. by right.
Qed.

(** A loop whose local variables end as a left fold of [step]. *)
Lemma hoare_for_fold_spec {A B} (P : Piano → Prop) (G : B → Prop)
    (step : B → A → B) (l : list A) (acc : B) (body : B → A → M B)
    (E : Piano → Prop) :
  (∀ acc x, x ∈ l → G acc →
     hoare P (body acc x) (λ acc' s, P s ∧ G acc' ∧ acc' = step acc x) E) →
  G acc →
  hoare P (for_fold l acc body)
    (λ acc' s, P s ∧ G acc' ∧ acc' = foldl step acc l) E.
Proof.
  intros Hbody. revert acc. induction l as [|x l IH]; intros acc Hacc; simpl.
  - by apply hoare_ret.
  - eapply hoare_bind; [by apply Hbody; [left|]|].
    intros acc'. intros s (Hs & Hacc' & ->). revert s Hs. apply IH; [|done].
    intros acc'' y Hy. apply Hbody. by right.
Qed.

End Logic.

Ltac inv_update H :=
  destruct H as [Hplayer Hrec Hscale Hwidth Hclock Hprev Hvol Hinstr Hdev Hmsg Hrecd
                 Hthr Hact Hpinch Hthreshold Hkeys Hpb Hchr];
  constructor; unfold chronological in *; simpl; try assumption.

Section Invariant.

Context `{PyMath} (timed : bool) (w : Z) (now : Q).

#[local] Notation "'Inv'" := (run_invariant timed w now) (only parsing).
#[local] Notation "'Keeps'" := (keeps timed w now) (only parsing).

Lemma dict_getitem_Some `{Countable K} {V} (d : gmap K V) (k : K) (v : V) :
  d !! k = Some v → dict_getitem d k = Ok v.
Proof. unfold dict_getitem. by intros ->. Qed.

Lemma hoare_bind_lift_ok {A B} (P : Piano → Prop) (r : result A) (a : A)
    (k : A → M B) (Q : B → Piano → Prop) (E : Piano → Prop) :
  r = Ok a → hoare P (k a) Q E → hoare P (lift r ≫= k) Q E.
Proof. intros -> Hk s Hs. by apply Hk. Qed.

Lemma keeps_ret {A} (a : A) : Keeps (mret a).
Proof. by apply hoare_ret. Qed.

Lemma keeps_skip : Keeps skip.
Proof. apply keeps_ret. Qed.

Lemma keeps_gets {A} (f : Piano → A) : Keeps (gets f).
Proof. by apply hoare_gets. Qed.

Lemma keeps_modify (g : Piano → Piano) :
  (∀ s, Inv s → Inv (g s)) → Keeps (modify g).
Proof. intros Hg. by apply hoare_modify. Qed.

Lemma keeps_bind {A B} (m : M A) (k : A → M B) :
  Keeps m → (∀ a, Keeps (k a)) → Keeps (m ≫= k).
Proof. intros Hm Hk. eapply hoare_bind; [exact Hm|exact Hk]. Qed.

Lemma keeps_bind_gets {A B} (fact : A → Prop) (f : Piano → A) (k : A → M B) :
  (∀ s, Inv s → fact (f s)) → (∀ a, fact a → Keeps (k a)) →
  Keeps (gets f ≫= k).
Proof. intros Hfact Hk. by eapply hoare_bind_gets. Qed.

Lemma keeps_lift_ok {A} (r : result A) (a : A) : r = Ok a → Keeps (lift r).
Proof. intros ->. by apply hoare_lift. Qed.

Lemma keeps_for_each {A} (l : list A) (body : A → M unit) :
  (∀ x, x ∈ l → Keeps (body x)) → Keeps (for_each l body).
Proof.
  intros Hbody. unfold keeps. apply (hoare_for_each Inv). exact Hbody.
Qed.

Lemma device_instrument_snoc (out : list midi_msg) (m : midi_msg) :
  device_instrument (out ++ [m])
  = match m with
    | SetInstrument instrument_id => Some instrument_id
    | _ => device_instrument out
    end.
Proof. unfold device_instrument. by rewrite foldl_app. Qed.

(** A note or pitch-bend message reaches the device. *)
Lemma keeps_player_write (m : midi_msg) :
  valid_message m → (∀ instrument_id, m ≠ SetInstrument instrument_id) →
  Keeps (player_write m).
Proof.
  intros Hvalid Hkind. apply keeps_modify. intros s Hs. inv_update Hs.
  - rewrite device_instrument_snoc. destruct m; try done. by destruct (Hkind instrument_id).
  - apply Forall_app. split; [done|]. by constructor.
Qed.


Lemma keeps_active_notes_add (note : Z) :
  valid_note note → Keeps (active_notes_add note).
Proof.
  intros Hnote. apply keeps_modify. intros s Hs. inv_update Hs.
  apply set_Forall_union; [by apply set_Forall_singleton|done].
Qed.

Lemma keeps_active_notes_discard (note : Z) :
  Keeps (active_notes_discard note).
Proof.
  apply keeps_modify. intros s Hs. inv_update Hs.
  intros n Hn. apply Hact. set_solver.
Qed.

Lemma keeps_start_thread (t : Task) : valid_task t → Keeps (start_thread t).
Proof.
  intros Ht. apply keeps_modify. intros s Hs. inv_update Hs.
  apply Forall_app. split; [done|]. by constructor.
Qed.

Lemma Sorted_Qle_snoc (times : list Q) (t : Q) :
  Sorted Qle times → Forall (λ x, (x <= t)%Q) times →
  Sorted Qle (times ++ [t]).
Proof.
  induction times as [|x times IH]; intros Hsorted Hall; simpl.
  - repeat constructor.
  - apply Sorted_inv in Hsorted as [Hsorted Hhead].
    apply Forall_cons in Hall as [Hx Hall].
    constructor; [by apply IH|].
    destruct times as [|y times]; simpl; constructor; [done|].
    by apply HdRel_inv in Hhead.
Qed.

(** [if self.recording: self.recorded_notes.append(...)] *)
Lemma keeps_record_if (note velocity : Z) (action : string) :
  valid_note note →
  action = "on" ∧ 20 ≤ velocity ≤ 127 ∨ action = "off" ∧ velocity = 0 →
  Keeps (gets recording ≫= λ rec : bool,
           if rec then record_event note velocity action else skip).
Proof.
  intros Hnote Haction s Hs.
  unfold record_event, bind_to, mbind, M_bind, gets, modify, raise, skip,
    mret, M_ret.
  destruct (recording s) eqn:Hrecording; [|done].
  destruct (inv_recording _ _ _ _ Hs Hrecording) as [t0 Ht0]. rewrite Ht0.
  inv_update Hs.
  - apply Forall_app. split; [done|]. constructor; [|done]. by split.
  - intros Htimed. specialize (Hchr Htimed). rewrite Ht0 in Hchr |- *.
    destruct Hchr as (Hstart & Hbounds & Hsorted). split; [done|].
    split.
    + apply Forall_app. split; [done|]. repeat constructor; simpl; lra.
    + rewrite fmap_app. simpl. apply Sorted_Qle_snoc; [done|].
      apply Forall_fmap. eapply Forall_impl; [exact Hbounds|].
      by intros e [_ He].
Qed.

Lemma keeps_play_single_note (note velocity : Z) :
  valid_note note → 0 ≤ velocity ≤ 127 →
  Keeps (play_single_note note velocity).
Proof.
  intros Hnote Hvelocity. unfold play_single_note, bind_to.
  apply keeps_bind; [apply keeps_gets|]. intros [|]; [|apply keeps_skip].
  apply keeps_player_write; done.
Qed.

Lemma echo_velocity_table :
  forallb (λ k : nat,
             let v := Z.of_nat k in
             (0 <=? Binary64.int_scaled v 0.7)
             && (Binary64.int_scaled v 0.7 <=? 127)
             && (0 <=? Binary64.int_scaled v 0.4)
             && (Binary64.int_scaled v 0.4 <=? 127))
          (seq 0 128) = true.
Proof. vm_compute. reflexivity. Qed.

(** The velocities of the two echoes of a press are valid velocities. *)
Lemma echo_velocity_valid (v : Z) :
  0 ≤ v ≤ 127 →
  (0 ≤ Binary64.int_scaled v 0.7 ≤ 127)
  ∧ 0 ≤ Binary64.int_scaled v 0.4 ≤ 127.
Proof.
  intros Hv. pose proof echo_velocity_table as Htab.
  rewrite forallb_forall in Htab.
  assert (Hk : In (Z.to_nat v) (seq 0 128)) by (apply in_seq; lia).
  apply Htab in Hk. cbv zeta in Hk. rewrite Z2Nat.id in Hk by lia.
  apply andb_true_iff in Hk as [Hk H4]. apply andb_true_iff in Hk as [Hk H3].
  apply andb_true_iff in Hk as [H1 H2]. lia.
Qed.


Ltac keeps_step :=
  first
    [ apply keeps_ret | apply keeps_skip | apply keeps_gets
    | apply keeps_active_notes_discard
    | apply keeps_active_notes_add; solve [auto]
    | apply keeps_start_thread; solve [auto]
    | apply keeps_play_single_note; solve [auto with lia]
    | apply keeps_record_if; solve [auto with lia]
    | apply keeps_player_write; solve [done | simpl; auto with lia]
    | apply keeps_bind; [|intros ?]
    | match goal with
      | |- keeps _ _ _ (if ?c then _ else _) => destruct c
      | |- keeps _ _ _ (match ?x with _ => _ end) => destruct x
      end ].

Lemma keeps_play_note_of_chord (velocity : Z) (entry : Z * Z) :
  valid_note entry.2 → 20 ≤ velocity ≤ 127 →
  Keeps (play_note_of_chord velocity entry).
Proof.
  destruct entry as [i note]. simpl. intros Hnote Hvelocity.
  destruct (echo_velocity_valid velocity) as [H7 H4]; [lia|].
  assert (valid_task (EchoTimer (8 # 100) note velocity 0.7)) by done.
  assert (valid_task (EchoTimer (16 # 100) note velocity 0.4)) by done.
  unfold play_note_of_chord, bind_to. repeat keeps_step.
Qed.

Lemma enumerate_lookup {A} (l : list A) (i : Z) (x : A) :
  (i, x) ∈ enumerate l → 0 ≤ i ∧ l !! Z.to_nat i = Some x.
Proof.
  unfold enumerate. intros Hin.
  apply elem_of_lookup_imap in Hin as (k & y & [= -> ->] & Hy).
  split; [lia|]. by rewrite Nat2Z.id.
Qed.

Lemma keeps_play_chord_enhanced (chord_notes : list Z) (velocity : Z) :
  Forall valid_note chord_notes → 20 ≤ velocity ≤ 127 →
  Keeps (play_chord_enhanced chord_notes velocity).
Proof.
  intros Hchord Hvelocity. unfold play_chord_enhanced.
  apply keeps_for_each. intros [i note] Hin.
  apply keeps_play_note_of_chord; [|done]. simpl.
  apply enumerate_lookup in Hin as [_ Hnote].
  rewrite Forall_forall in Hchord. apply Hchord.
  by eapply list_elem_of_lookup_2.
Qed.

Lemma keeps_echo_timer_body (n v : Z) (factor : float) (delay : Q) :
  valid_task (EchoTimer delay n v factor) → Keeps (echo_timer_body n v factor).
Proof.
  intros [Hn Hv]. unfold echo_timer_body. repeat keeps_step.
Qed.

Lemma keeps_release_note (note : Z) :
  valid_note note → Keeps (release_note note).
Proof.
  intros Hnote. unfold release_note, bind_to. repeat keeps_step.
Qed.

Lemma keeps_stop_after_delay (chord_notes : list Z) :
  Forall valid_note chord_notes → Keeps (stop_after_delay chord_notes).
Proof.
  intros Hchord. unfold stop_after_delay. apply keeps_for_each.
  intros note Hin. apply keeps_release_note.
  rewrite Forall_forall in Hchord. by apply Hchord.
Qed.

Lemma valid_pitch_bend_message (bend_value : Z) :
  valid_message (pitch_bend_message bend_value).
Proof.
  destruct (pitch_bend_bytes bend_value) as (Hlsb & Hmsb & _).
  unfold pitch_bend_message. simpl. cbv zeta in Hlsb, Hmsb. lia.
Qed.

Lemma keeps_send_pitch_bend (bend_value : Z) :
  Keeps (send_pitch_bend bend_value).
Proof.
  unfold send_pitch_bend, bind_to.
  apply keeps_bind; [apply keeps_gets|]. intros [|]; [|apply keeps_skip].
  apply keeps_player_write; [apply valid_pitch_bend_message|done].
Qed.

Lemma keeps_start_pinch_note (note : Z) :
  valid_note note → Keeps (start_pinch_note note).
Proof.
  intros Hnote. unfold start_pinch_note, bind_to. repeat keeps_step.
Qed.

Lemma keeps_start_pinch_chord : Keeps start_pinch_chord.
Proof.
  unfold start_pinch_chord, bind_to.
  apply (keeps_bind_gets (λ notes, notes = [84; 88; 91])).
  { intros s Hs. apply Hs. }
  intros notes ->. apply keeps_bind.
  - apply keeps_for_each. intros note Hin. apply keeps_start_pinch_note.
    rewrite !elem_of_cons, elem_of_nil in Hin. unfold valid_note. lia.
  - intros _. apply keeps_modify. intros s Hs. by inv_update Hs.
Qed.

Lemma keeps_bend_from_position (hand : Hand) : Keeps (bend_from_position hand).
Proof.
  unfold bend_from_position. destruct (bbox hand) as [[[x y] bw] bh].
  unfold bind_to. apply (keeps_bind_gets (λ width, width = w)).
  { intros s Hs. apply Hs. }
  intros width ->. destruct (Z.eqb_spec w 0) as [Hzero|_].
  - by apply hoare_raise.
  - apply keeps_send_pitch_bend.
Qed.

Lemma handle_pinch_gesture_returns (hand : Hand) :
  hoare Inv (handle_pinch_gesture hand)
    (λ pinched s, Inv s ∧ pinched = hand_pinches hand 30)
    (λ s, Inv s ∧ w = 0).
Proof.
  unfold handle_pinch_gesture, hand_pinches. case_bool_decide as Hlen.
  { apply hoare_ret. intros s Hs. split; [done|].
    destruct (lmList hand !! 4%nat), (lmList hand !! 8%nat); try done.
    by rewrite bool_decide_eq_false_2 by lia. }
  destruct (lookup_lt_is_Some_2 (lmList hand) 4) as [thumb_tip Hthumb]; [lia|].
  destruct (lookup_lt_is_Some_2 (lmList hand) 8) as [index_tip Hindex]; [lia|].
  rewrite Hthumb, Hindex, bool_decide_eq_true_2 by lia. simpl.
  unfold bind_to.
  eapply hoare_bind_lift_ok; [by apply list_getitem_at|].
  eapply hoare_bind_lift_ok; [by apply list_getitem_at|].
  apply (hoare_bind_gets (λ threshold, threshold = 30%Q));
    [intros s Hs; apply Hs|].
  intros threshold ->.
  destruct (is_pinching thumb_tip index_tip (fingersUp hand) 30);
    [|by apply hoare_ret].
  eapply hoare_bind; [apply keeps_gets|]. intros playing.
  eapply hoare_bind.
  { destruct (negb playing); [apply keeps_start_pinch_chord|apply keeps_skip]. }
  intros ?. eapply hoare_bind; [apply keeps_bend_from_position|].
  intros ?. by apply hoare_ret.
Qed.

Lemma keeps_handle_pinch_gesture (hand : Hand) :
  Keeps (handle_pinch_gesture hand).
Proof.
  eapply hoare_consequence; [apply handle_pinch_gesture_returns|..]; try done.
  by intros a s [Hs _].
Qed.

(** *** The scale tables *)

Lemma table_hand_chords (chords : gmap string (gmap string (list Z)))
    (hand_key : string) :
  chords ∈ [D_Major; C_Major; Pentatonic] → hand_key ∈ ["left"; "right"] →
  ∃ hand_chords, chords !! hand_key = Some hand_chords.
Proof.
  rewrite !elem_of_cons, !elem_of_nil.
  intros [->|[->|[->|[]]]] [->|[->|[]]]; by eexists.
Qed.

Lemma table_chords_valid (chords : gmap string (gmap string (list Z)))
    (hand_key finger_name : string) (hand_chords : gmap string (list Z))
    (chord : list Z) :
  chords ∈ [D_Major; C_Major; Pentatonic] →
  chords !! hand_key = Some hand_chords →
  hand_chords !! finger_name = Some chord →
  Forall valid_note chord.
Proof.
  intros Htable Hhand Hfinger.
  assert (Hall : ∀ table, table ∈ [D_Major; C_Major; Pentatonic] →
            map_Forall (λ _ hand_chords,
              map_Forall (λ _ chord, Forall valid_note chord) hand_chords)
              table).
  { intros table. rewrite !elem_of_cons, elem_of_nil.
    unfold valid_note.
    intros [->|[->|[->|[]]]]; apply (bool_decide_unpack _); vm_compute;
      exact I. }
  exact (Hall chords Htable hand_key hand_chords Hhand finger_name chord
           Hfinger).
Qed.

Lemma complete_all_down (chords : gmap string (gmap string (list Z))) :
  chords ∈ [D_Major; C_Major; Pentatonic] → complete (all_down chords).
Proof.
  intros Htable hand_key finger_name Hhand Hfinger.
  by rewrite (all_down_is_down chords hand_key finger_name).
Qed.

Lemma key_name_listed (hand_key finger_name : string) :
  hand_key ∈ ["left"; "right"] → finger_name ∈ finger_names →
  hand_key +:+ "_" +:+ finger_name ∈ key_names.
Proof.
  unfold finger_names. rewrite !elem_of_cons, !elem_of_nil.
  intros [->|[->|[]]] [->|[->|[->|[->|[->|[]]]]]];
    apply (bool_decide_unpack _); vm_compute; exact I.
Qed.

Lemma keeps_get_current_chords :
  hoare Inv get_current_chords
    (λ chords s, Inv s ∧ chords ∈ [D_Major; C_Major; Pentatonic])
    (λ s, Inv s ∧ w = 0).
Proof.
  unfold get_current_chords, bind_to.
  apply (hoare_bind_gets (λ name, name ∈ scales.*1)).
  { intros s Hs. apply Hs. }
  intros name Hname.
  destruct (valid_scale_chords _ Hname) as (chords & -> & Htable).
  by apply hoare_lift.
Qed.

(** *** The velocity of a press *)

Lemma calculate_dynamic_velocity_run (hand_landmarks : list Landmark)
    (finger_index : Z) (s : Piano) :
  ∃ v, calculate_dynamic_velocity hand_landmarks finger_index s = (Ok v, s)
       ∧ 20 ≤ v ≤ 127.
Proof.
  unfold calculate_dynamic_velocity.
  case_bool_decide as Hlen; [exists 80; split; [done|lia]|].
  destruct (decide (0 ≤ finger_index ≤ 4)) as [Hin|Hout].
  2: { rewrite finger_landmarks_outside by done. exists 80. split; [done|lia]. }
  destruct (finger_landmarks_inside _ Hin) as (tip & base & -> & Htip & Hbase).
  destruct (list_getitem_in_range hand_landmarks tip) as (tip_pos & -> & _);
    [lia|].
  destruct (list_getitem_in_range hand_landmarks base) as (base_pos & -> & _);
    [lia|].
  eexists. split; [reflexivity|]. by apply np_clip_int_range.
Qed.

Lemma keeps_calculate_dynamic_velocity (hand_landmarks : list Landmark)
    (finger_index : Z) :
  hoare Inv (calculate_dynamic_velocity hand_landmarks finger_index)
    (λ v s, Inv s ∧ 20 ≤ v ≤ 127) (λ s, Inv s ∧ w = 0).
Proof.
  intros s Hs.
  destruct (calculate_dynamic_velocity_run hand_landmarks finger_index s)
    as (v & -> & Hv).
  done.
Qed.


(** *** The frame *)

#[local] Notation "'Fails'" := (λ s, run_invariant timed w now s ∧ w = 0)
  (only parsing).

Lemma hoare_bind_fact {A B} (fact : A → Prop) (m : M A) (k : A → M B)
    (Q : B → Piano → Prop) :
  hoare Inv m (λ a s, Inv s ∧ fact a) Fails →
  (∀ a, fact a → hoare Inv (k a) Q Fails) →
  hoare Inv (m ≫= k) Q Fails.
Proof.
  intros Hm Hk. eapply hoare_bind; [exact Hm|].
  intros a. apply hoare_pure. apply Hk.
Qed.

Lemma hoare_bind_keeps {A B} (m : M A) (k : A → M B)
    (Q : B → Piano → Prop) :
  Keeps m → (∀ a, hoare Inv (k a) Q Fails) → hoare Inv (m ≫= k) Q Fails.
Proof. intros Hm Hk. eapply hoare_bind; [exact Hm|exact Hk]. Qed.

Lemma complete_lookup (states : gmap string (gmap string Z))
    (hand_key finger_name : string) :
  complete states →
  hand_key ∈ ["left"; "right"] → finger_name ∈ finger_names →
  ∃ hand_states up,
    states !! hand_key = Some hand_states
    ∧ hand_states !! finger_name = Some up.
Proof.
  intros Hcomplete Hhand Hfinger.
  destruct (Hcomplete hand_key finger_name Hhand Hfinger) as [up Hup].
  destruct (states !! hand_key) as [hand_states|]; [|done].
  by exists hand_states, up.
Qed.

Lemma complete_insert (states : gmap string (gmap string Z))
    (hand_key finger_name : string) (hand_states : gmap string Z) (up : Z) :
  complete states → states !! hand_key = Some hand_states →
  complete (<[hand_key := <[finger_name := up]> hand_states]> states).
Proof.
  intros Hcomplete Hstates hk f Hhk Hf.
  destruct (decide (hk = hand_key)) as [->|Hne].
  - rewrite lookup_insert_eq. simpl.
    destruct (decide (f = finger_name)) as [->|Hnf].
    + by rewrite lookup_insert_eq.
    + rewrite lookup_insert_ne by done.
      specialize (Hcomplete hand_key f Hhk Hf).
      by rewrite Hstates in Hcomplete.
  - rewrite lookup_insert_ne by done. by apply Hcomplete.
Qed.

(** The test [self.prev_states[hand_key][finger_name] == expected]. *)
Lemma keeps_previous_state (hand_key finger_name : string) (expected : Z) :
  hand_key ∈ ["left"; "right"] → finger_name ∈ finger_names →
  Keeps (gets prev_states ≫= λ prev : gmap string (gmap string Z),
         lift (dict_getitem prev hand_key) ≫= λ prev_hand : gmap string Z,
         lift (dict_getitem prev_hand finger_name) ≫= λ prev_up : Z,
         mret (prev_up =? expected)).
Proof.
  intros Hhand Hfinger.
  apply (keeps_bind_gets complete); [intros s Hs; apply Hs|].
  intros prev Hprev.
  destruct (complete_lookup prev hand_key finger_name)
    as (prev_hand & prev_up & Hh & Hf); [done..|].
  eapply hoare_bind_lift_ok; [by apply dict_getitem_Some|].
  eapply hoare_bind_lift_ok; [by apply dict_getitem_Some|]. apply keeps_ret.
Qed.

Lemma keeps_stop_chord_enhanced (chord_notes : list Z) :
  Forall valid_note chord_notes → Keeps (stop_chord_enhanced chord_notes).
Proof. intros Hchord. by apply keeps_start_thread. Qed.

Lemma table_finger_chord (chords : gmap string (gmap string (list Z)))
    (hand_key finger_name : string) :
  chords ∈ [D_Major; C_Major; Pentatonic] →
  hand_key ∈ ["left"; "right"] → finger_name ∈ finger_names →
  ∃ hand_chords chord,
    chords !! hand_key = Some hand_chords
    ∧ hand_chords !! finger_name = Some chord.
Proof.
  intros Htable Hhand Hfinger.
  pose proof (all_down_is_down chords hand_key finger_name Htable Hhand
                Hfinger) as Hdown.
  unfold all_down in Hdown. rewrite lookup_fmap in Hdown.
  destruct (chords !! hand_key) as [hand_chords|]; [|done].
  simpl in Hdown. rewrite lookup_fmap in Hdown.
  destruct (hand_chords !! finger_name) as [chord|] eqn:Hchord; [|done].
  by exists hand_chords, chord.
Qed.

Lemma hoare_bind_ret {A B} (P : Piano → Prop) (a : A) (k : A → M B)
    (Q : B → Piano → Prop) (E : Piano → Prop) :
  hoare P (k a) Q E → hoare P (mret a ≫= k) Q E.
Proof. intros Hk s Hs. by apply Hk. Qed.

Lemma process_finger_returns (chords : gmap string (gmap string (list Z)))
    (hand : Hand) (hand_key : string) (fingers_up_list : list Z)
    (loc : FrameLocals) (entry : Z * string) :
  chords ∈ [D_Major; C_Major; Pentatonic] → hand_key ∈ ["left"; "right"] →
  entry ∈ enumerate finger_names → locals_ok loc →
  hoare Inv (process_finger chords hand hand_key fingers_up_list loc entry)
    (λ loc' s, Inv s ∧ locals_ok loc'
               ∧ loc' = finger_seen hand_key fingers_up_list loc entry)
    Fails.
Proof.
  intros Htable Hhand Hentry [Hstates Hkeys]. destruct entry as [i finger_name].
  apply enumerate_lookup in Hentry as [Hi Hfinger].
  apply list_elem_of_lookup_2 in Hfinger.
  destruct (table_finger_chord chords hand_key finger_name)
    as (hand_chords & chord & Hhand_chords & Hchord); [done..|].
  destruct (complete_lookup _ hand_key finger_name Hstates Hhand Hfinger)
    as (hand_states & old & Hhand_states & _).
  unfold process_finger, finger_seen, bind_to. cbv zeta.
  eapply hoare_bind_lift_ok; [by apply dict_getitem_Some|].
  rewrite bool_decide_eq_true_2 by (by eexists). rewrite Hhand_states. simpl.
  destruct (Z.ltb_spec i (Z.of_nat (length fingers_up_list))) as [Hlen|Hlen].
  2: { rewrite lookup_ge_None_2 by lia. by apply hoare_ret. }
  destruct (lookup_lt_is_Some_2 fingers_up_list (Z.to_nat i)) as [up Hup];
    [lia|].
  rewrite Hup.
  eapply hoare_bind_lift_ok; [by apply list_getitem_at|].
  eapply hoare_bind_lift_ok; [by apply dict_getitem_Some|].
  assert (Hvalid : Forall valid_note chord)
    by (by eapply table_chords_valid).
  assert (Hkey : hand_key +:+ "_" +:+ finger_name ∈ key_names)
    by (by apply key_name_listed).
  assert (Hstates' : complete
            (<[hand_key := <[finger_name := up]> hand_states]>
               (current_finger_states loc)))
    by (by apply complete_insert).
  set (key_name := hand_key +:+ "_" +:+ finger_name) in *.
  set (keys0 := current_frame_active_keys_input loc) in *.
  assert (Hfinish : ∀ keys : gset string,
            keys = keys0 ∨ (up =? 1) = true ∧ keys = {[key_name]} ∪ keys0 →
            hoare Inv
              (mret
                 {| current_finger_states :=
                      <[hand_key := <[finger_name := up]> hand_states]>
                        (current_finger_states loc);
                    current_frame_active_keys_input :=
                      if up =? 1 then {[key_name]} ∪ keys else keys;
                    pinching_in_current_frame :=
                      pinching_in_current_frame loc |})
              (λ loc' s,
                 Inv s ∧ locals_ok loc'
                 ∧ loc'
                   = {| current_finger_states :=
                          <[hand_key := <[finger_name := up]> hand_states]>
                            (current_finger_states loc);
                        current_frame_active_keys_input :=
                          if up =? 1 then {[key_name]} ∪ keys0 else keys0;
                        pinching_in_current_frame :=
                          pinching_in_current_frame loc |})
              Fails).
  { intros keys Hcase. apply hoare_ret. intros s Hs. split; [done|].
    assert ((if up =? 1 then {[key_name]} ∪ keys else keys)
            = (if up =? 1 then {[key_name]} ∪ keys0 else keys0)) as ->.
    { destruct Hcase as [->|[-> ->]]; [done|].
      by rewrite (assoc_L (∪)), (idemp_L (∪)). }
    split; [|done]. split; [done|]. simpl. destruct (up =? 1); [|done].
    apply set_Forall_union; [by apply set_Forall_singleton|done]. }
  assert (Hwas : ∀ expected, Keeps
            (gets prev_states ≫= λ prev : gmap string (gmap string Z),
             lift (dict_getitem prev hand_key) ≫= λ prev_hand : gmap string Z,
             lift (dict_getitem prev_hand finger_name) ≫= λ prev_up : Z,
             mret (prev_up =? expected)))
    by (intros; by apply keeps_previous_state).
  assert (Hlowered : hoare Inv
            ((if up =? 0
              then
                gets prev_states ≫= λ prev : gmap string (gmap string Z),
                lift (dict_getitem prev hand_key)
                ≫= λ prev_hand : gmap string Z,
                lift (dict_getitem prev_hand finger_name) ≫= λ prev_up : Z,
                mret (prev_up =? 1)
              else mret false)
             ≫= λ lowered : bool,
                if lowered
                then lift (dict_getitem hand_chords finger_name)
                     ≫= λ chord : list Z,
                        stop_chord_enhanced chord ≫= λ _ : (), mret keys0
                else mret keys0)
            (λ keys s, Inv s ∧ keys = keys0) Fails).
  { eapply hoare_bind_keeps.
    { destruct (up =? 0); [apply Hwas|apply keeps_ret]. }
    intros [|]; [|by apply hoare_ret].
    eapply hoare_bind_lift_ok; [by apply dict_getitem_Some|].
    eapply hoare_bind_keeps; [by apply keeps_stop_chord_enhanced|].
    intros _. by apply hoare_ret. }
  destruct (up =? 1) eqn:Hup1.
  - eapply hoare_bind_keeps; [apply Hwas|]. intros raised.
    eapply (hoare_bind_fact
              (λ keys, keys = keys0 ∨ true = true ∧ keys = {[key_name]} ∪ keys0)).
    2: { intros keys Hcase. by apply Hfinish. }
    destruct raised.
    + eapply hoare_bind_fact; [apply keeps_calculate_dynamic_velocity|].
      intros velocity Hvelocity.
      eapply hoare_bind_lift_ok; [by apply dict_getitem_Some|].
      eapply hoare_bind_keeps; [by apply keeps_play_chord_enhanced|].
      intros _. apply hoare_ret. intros s Hs. split; [done|]. by right.
    + eapply hoare_consequence; [exact Hlowered|..]; try done.
      intros keys s [Hs ->]. split; [done|]. by left.
  - apply hoare_bind_ret.
    eapply (hoare_bind_fact (λ keys, keys = keys0)); [exact Hlowered|].
    intros keys ->. apply Hfinish. by left.
Qed.

Lemma hand_key_of_cases (hand : Hand) :
  hand_key_of hand ∈ ["left"; "right"].
Proof.
  unfold hand_key_of. destruct (String.eqb _ _); rewrite !elem_of_cons; auto.
Qed.

Lemma process_hand_returns (chords : gmap string (gmap string (list Z)))
    (loc : FrameLocals) (hand : Hand) :
  chords ∈ [D_Major; C_Major; Pentatonic] → locals_ok loc →
  hoare Inv (process_hand chords loc hand)
    (λ loc' s, Inv s ∧ locals_ok loc' ∧ loc' = hand_seen 30 loc hand) Fails.
Proof.
  intros Htable Hloc. unfold process_hand, hand_seen, bind_to.
  eapply hoare_bind_fact; [apply handle_pinch_gesture_returns|].
  intros pinched ->. destruct (hand_pinches hand 30).
  { apply hoare_ret. intros s Hs. split; [done|]. split; [|done].
    destruct Hloc. by split. }
  fold (hand_key_of hand).
  apply (hoare_for_fold_spec Inv locals_ok); [|done].
  intros acc entry Hentry Hacc.
  apply process_finger_returns; auto using hand_key_of_cases.
Qed.

(** The loop that ends the notes of the pinch chord. *)
Lemma keeps_release_pinch_note (note : Z) :
  valid_note note →
  Keeps (gets active_notes ≫= λ active : gset Z,
         if bool_decide (note ∈ active) then
           gets player ≫= λ connected : bool,
           (if connected then player_write (NoteOff note 127) else skip)
           ≫= λ _, active_notes_discard note
         else skip).
Proof. intros Hnote. repeat keeps_step. Qed.

Lemma hoare_preserves {A C} (f : Piano → C) (v : C) (P : Piano → Prop)
    (m : M A) (Q : A → Piano → Prop) (E : Piano → Prop) :
  Preserves f m → hoare P m Q E →
  hoare (λ s, P s ∧ f s = v) m (λ a s, Q a s ∧ f s = v) E.
Proof.
  intros Hf Hm s [Hs Hv]. specialize (Hm s Hs). specialize (Hf s).
  destruct (m s) as [[a|e] s1]; simpl in *; [|done]. split; congruence.
Qed.

Lemma hoare_bind_gets_eq {A B} (P : Piano → Prop) (f : Piano → A)
    (k : A → M B) (Q : B → Piano → Prop) (E : Piano → Prop) :
  (∀ a, hoare (λ s, P s ∧ f s = a) (k a) Q E) → hoare P (gets f ≫= k) Q E.
Proof. intros Hk s Hs. by apply (Hk (f s)). Qed.

(** The end of [process_hands], after the loop over the hands. *)
Lemma process_hands_end (loc : FrameLocals) :
  locals_ok loc →
  hoare Inv
    (modify (set_active_keys (current_frame_active_keys_input loc))
     ≫= λ _ : (),
     gets pinch_chord_playing ≫= λ playing : bool,
     (if negb (pinching_in_current_frame loc) && playing
      then
        gets pinch_chord_notes ≫= λ notes : list Z,
        for_each notes
          (λ note : Z,
             gets active_notes ≫= λ active : gset Z,
             if bool_decide (note ∈ active)
             then
               gets player ≫= λ connected : bool,
               (if connected then player_write (NoteOff note 127) else skip)
               ≫= λ _ : (), active_notes_discard note
             else skip)
        ≫= λ _ : (),
        modify (set_pinch_chord_playing false)
        ≫= λ _ : (), send_pitch_bend 8192
      else skip)
     ≫= λ _ : (), modify (set_prev_states (current_finger_states loc)))
    (λ _ s,
       Inv s
       ∧ active_keys s = current_frame_active_keys_input loc
       ∧ prev_states s = current_finger_states loc
       ∧ (pinching_in_current_frame loc = false →
          pinch_chord_playing s = false))
    Fails.
Proof.
  intros [Hloc_states Hloc_keys].
  set (keys := current_frame_active_keys_input loc) in *.
  set (pinching := pinching_in_current_frame loc).
  eapply hoare_bind with (R := λ _ s, Inv s ∧ active_keys s = keys).
  { apply hoare_modify. intros s Hs. split; [by inv_update Hs|done]. }
  intros _. apply hoare_bind_gets_eq. intros playing.
  eapply hoare_bind
    with (R := λ _ s, Inv s ∧ active_keys s = keys
                      ∧ (pinching = false → pinch_chord_playing s = false)).
  2: { intros _. apply hoare_modify. intros s (Hs & Hk & Hflag).
       split; [by inv_update Hs|]. done. }
  destruct (negb pinching && playing) eqn:Hrelease.
  - eapply hoare_consequence
      with (P := λ s, Inv s ∧ active_keys s = keys)
           (Q := λ _ s, (Inv s ∧ pinch_chord_playing s = false)
                        ∧ active_keys s = keys)
           (E := λ s, Inv s ∧ w = 0);
      [|by intros s [[? ?] _]|by intros [] s [[? ?] ?]|by intros s ?].
    apply hoare_preserves.
    { unfold send_pitch_bend, player_write, active_notes_discard. preserves. }
    apply (hoare_bind_gets (λ notes, notes = [84; 88; 91]));
      [intros s Hs; apply Hs|].
    intros notes ->.
    eapply hoare_bind with (R := λ _, Inv).
    { apply keeps_for_each. intros note Hin.
      apply keeps_release_pinch_note.
      rewrite !elem_of_cons, elem_of_nil in Hin. unfold valid_note. lia. }
    intros _.
    eapply hoare_bind with (R := λ _ s, Inv s ∧ pinch_chord_playing s = false).
    { apply hoare_modify. intros s Hs. split; [by inv_update Hs|done]. }
    intros _. apply hoare_preserves; [|apply keeps_send_pitch_bend].
    unfold send_pitch_bend, player_write. preserves.
  - apply hoare_ret. intros s [[Hs Hk] Hplaying]. do 2 (split; [done|]).
    intros Hp. rewrite Hp in Hrelease. simpl in Hrelease. congruence.
Qed.

Lemma assoc_getitem_table (name : string)
    (chords : gmap string (gmap string (list Z))) :
  assoc_getitem scales name = Ok chords →
  chords ∈ [D_Major; C_Major; Pentatonic].
Proof.
  simpl. rewrite !elem_of_cons.
  repeat (case_decide; [intros [= <-]; auto|]). done.
Qed.

(** [process_hands] leaves in [active_keys] and [prev_states] what its
    loop has seen; the pinch flag is false after a frame in which no hand
    pinches. *)
Lemma process_hands_returns (hands : list Hand) (name : string)
    (chords : gmap string (gmap string (list Z))) :
  assoc_getitem scales name = Ok chords →
  hoare (λ s, Inv s ∧ current_scale s = name) (process_hands hands)
    (λ _ s,
       Inv s
       ∧ active_keys s
         = current_frame_active_keys_input (frame_seen 30 chords hands)
       ∧ prev_states s = current_finger_states (frame_seen 30 chords hands)
       ∧ (pinching_in_current_frame (frame_seen 30 chords hands) = false →
          pinch_chord_playing s = false))
    Fails.
Proof.
  intros Hchords. pose proof (assoc_getitem_table _ _ Hchords) as Htable.
  set (start := {| current_finger_states := all_down chords;
                   current_frame_active_keys_input := ∅;
                   pinching_in_current_frame := false |}).
  assert (Hstart : locals_ok start).
  { split; [by apply complete_all_down|apply set_Forall_empty]. }
  assert (Hrest : hoare Inv
            (for_fold hands start (process_hand chords)
             ≫= λ loc : FrameLocals,
             modify (set_active_keys (current_frame_active_keys_input loc))
             ≫= λ _ : (),
             gets pinch_chord_playing ≫= λ playing : bool,
             (if negb (pinching_in_current_frame loc) && playing
              then
                gets pinch_chord_notes ≫= λ notes : list Z,
                for_each notes
                  (λ note : Z,
                     gets active_notes ≫= λ active : gset Z,
                     if bool_decide (note ∈ active)
                     then
                       gets player ≫= λ connected : bool,
                       (if connected then player_write (NoteOff note 127)
                        else skip)
                       ≫= λ _ : (), active_notes_discard note
                     else skip)
                ≫= λ _ : (),
                modify (set_pinch_chord_playing false)
                ≫= λ _ : (), send_pitch_bend 8192
              else skip)
             ≫= λ _ : (),
             modify (set_prev_states (current_finger_states loc)))
            (λ _ s,
               Inv s
               ∧ active_keys s
                 = current_frame_active_keys_input (frame_seen 30 chords hands)
               ∧ prev_states s
                 = current_finger_states (frame_seen 30 chords hands)
               ∧ (pinching_in_current_frame (frame_seen 30 chords hands)
                  = false → pinch_chord_playing s = false))
            Fails).
  { eapply hoare_bind.
    - apply (hoare_for_fold_spec Inv locals_ok (hand_seen 30)); [|done].
      intros acc hand Hhand Hacc. by apply process_hand_returns.
    - intros loc. intros s (Hs & Hloc & ->). revert s Hs.
      by apply process_hands_end. }
  intros s [Hs Hname]. specialize (Hrest s Hs).
  assert (Heq : process_hands hands s
                = (for_fold hands start (process_hand chords)
                   ≫= λ loc : FrameLocals,
                   modify (set_active_keys
                             (current_frame_active_keys_input loc))
                   ≫= λ _ : (),
                   gets pinch_chord_playing ≫= λ playing : bool,
                   (if negb (pinching_in_current_frame loc) && playing
                    then
                      gets pinch_chord_notes ≫= λ notes : list Z,
                      for_each notes
                        (λ note : Z,
                           gets active_notes ≫= λ active : gset Z,
                           if bool_decide (note ∈ active)
                           then
                             gets player ≫= λ connected : bool,
                             (if connected
                              then player_write (NoteOff note 127)
                              else skip)
                             ≫= λ _ : (), active_notes_discard note
                           else skip)
                      ≫= λ _ : (),
                      modify (set_pinch_chord_playing false)
                      ≫= λ _ : (), send_pitch_bend 8192
                    else skip)
                   ≫= λ _ : (),
                   modify (set_prev_states (current_finger_states loc))) s).
  { unfold process_hands, get_current_chords, bind_to.
    unfold mbind at 1, M_bind at 1. unfold mbind at 1, M_bind at 1.
    unfold gets at 1, lift at 1. by rewrite Hname, Hchords. }
  by rewrite Heq.
Qed.

Lemma keeps_process_hands (hands : list Hand) : Keeps (process_hands hands).
Proof.
  intros s Hs.
  destruct (valid_scale_chords _ (inv_scale _ _ _ _ Hs))
    as (chords & Hchords & _).
  pose proof (process_hands_returns hands _ chords Hchords s
                (conj Hs eq_refl)) as Hrun.
  destruct (process_hands hands s) as [[[]|e] s1]; [|done]. apply Hrun.
Qed.

Lemma keeps_flush_active_notes : Keeps flush_active_notes.
Proof.
  unfold flush_active_notes, bind_to.
  apply (keeps_bind_gets (set_Forall valid_note)); [intros s Hs; apply Hs|].
  intros active Hactive. apply keeps_for_each. intros note Hin.
  assert (valid_note note) by (apply Hactive; set_solver).
  repeat keeps_step.
Qed.

Lemma keeps_no_hands : Keeps no_hands.
Proof.
  unfold no_hands, bind_to.
  eapply hoare_bind_fact; [apply keeps_get_current_chords|].
  intros chords Htable.
  apply keeps_bind.
  { apply keeps_modify. intros s Hs. inv_update Hs.
    by apply complete_all_down. }
  intros _. apply keeps_bind.
  { apply keeps_modify. intros s Hs. inv_update Hs. apply set_Forall_empty. }
  intros _. apply keeps_bind; [apply keeps_flush_active_notes|].
  intros _. apply keeps_bind; [apply keeps_gets|].
  intros [|]; [|apply keeps_skip].
  apply keeps_bind; [|intros _; apply keeps_send_pitch_bend].
  apply keeps_modify. intros s Hs. by inv_update Hs.
Qed.

Lemma keeps_cleanup : Keeps cleanup.
Proof.
  unfold cleanup, bind_to.
  apply (keeps_bind_gets (set_Forall valid_note)); [intros s Hs; apply Hs|].
  intros active Hactive. apply keeps_bind.
  - apply keeps_for_each. intros note Hin.
    assert (valid_note note) by (apply Hactive; set_solver).
    repeat keeps_step.
  - intros _. apply keeps_modify. intros s Hs. inv_update Hs.
    apply set_Forall_empty.
Qed.


Lemma keeps_process_frame (hands : list Hand) (frame_width : Z) :
  hoare Inv (process_frame hands frame_width)
    (λ _, run_invariant timed frame_width now) Fails.
Proof.
  unfold process_frame. eapply hoare_bind.
  - case_bool_decide; [apply keeps_no_hands|apply keeps_process_hands].
  - intros ?. apply hoare_modify. intros s Hs. by inv_update Hs.
Qed.

(** *** The keyboard *)

Lemma keeps_cycle_scale : Keeps cycle_scale.
Proof.
  intros s Hs.
  assert (∃ next chords,
            (current_scale s, next, chords)
              ∈ [("D_Major", "C_Major", C_Major);
                 ("C_Major", "Pentatonic", Pentatonic);
                 ("Pentatonic", "D_Major", D_Major)]
            ∧ chords ∈ [D_Major; C_Major; Pentatonic]
            ∧ next ∈ scales.*1)
    as (next & chords & Hstep & Htable & Hnext).
  { pose proof (inv_scale _ _ _ _ Hs) as Hscale. simpl in Hscale |- *.
    rewrite !elem_of_cons, elem_of_nil in Hscale.
    destruct Hscale as [->|[->|[->|[]]]]; eexists _, _;
      rewrite !elem_of_cons; split; eauto 10. }
  rewrite (cycle_scale_run s _ next chords eq_refl Hstep).
  inv_update Hs.
  - by apply complete_all_down.
  - apply set_Forall_empty.
Qed.

Lemma keeps_toggle_recording : Keeps toggle_recording.
Proof.
  intros s Hs.
  unfold toggle_recording, rebind_recorded_notes, skip, bind_to, mbind,
    M_bind, gets, modify.
  destruct (recording s) eqn:Hrecording; simpl.
  - inv_update Hs. done.
  - destruct (playback_thread s) as [[|index [events|]]|] eqn:Hthread; simpl;
      inv_update Hs;
      try (by eexists); try done;
      try (intros _; split; [lra|]; split; constructor).
    by intros ? ? [= <- <-].
Qed.

Lemma keeps_playback_recording : Keeps playback_recording.
Proof.
  unfold playback_recording, bind_to.
  apply keeps_bind; [apply keeps_gets|]. intros recorded.
  case_bool_decide; [apply keeps_skip|].
  apply keeps_bind; [apply keeps_gets|]. intros [thread|]; [apply keeps_skip|].
  apply keeps_modify. intros s Hs. by inv_update Hs.
Qed.

Lemma instrument_of_key (idx : Z) :
  0 ≤ idx ≤ 8 →
  ∃ instrument,
    list_getitem instrument_keys idx = Ok instrument
    ∧ instrument ∈ take 9 instrument_keys ∧ 0 ≤ instrument ≤ 127.
Proof.
  intros Hidx.
  assert (idx = 0 ∨ idx = 1 ∨ idx = 2 ∨ idx = 3 ∨ idx = 4 ∨ idx = 5
          ∨ idx = 6 ∨ idx = 7 ∨ idx = 8) as Hcases by lia.
  destruct Hcases as [->|[->|[->|[->|[->|[->|[->|[->| ->]]]]]]]];
    eexists; (split; [reflexivity|]); (split; [|lia]); simpl;
    rewrite !elem_of_cons; auto 10.
Qed.

Lemma keeps_handle_keyboard_input (key window_width : Z) :
  hoare Inv (handle_keyboard_input key window_width)
    (λ _, run_invariant timed
            (default w (brings_width (KeyPress now key window_width))) now)
    Fails.
Proof.
  unfold handle_keyboard_input, brings_width.
  destruct (key =? 102).
  { apply hoare_modify. intros s Hs. by inv_update Hs. }
  simpl. destruct (key =? 115); [apply keeps_cycle_scale|].
  destruct (key =? 114); [apply keeps_toggle_recording|].
  destruct (key =? 112); [apply keeps_playback_recording|].
  destruct (key =? 101).
  { unfold bind_to. apply keeps_bind; [apply keeps_gets|]. intros echo.
    apply keeps_modify. intros s Hs. by inv_update Hs. }
  destruct ((key =? 43) || (key =? 61)).
  { intros s Hs. unfold bind_to, mbind, M_bind, gets, modify.
    inv_update Hs. destruct Hvol as [Hlow Hhigh]. split.
    - apply Q.min_glb; lra.
    - apply Q.le_min_l. }
  destruct (key =? 45).
  { intros s Hs. unfold bind_to, mbind, M_bind, gets, modify.
    inv_update Hs. destruct Hvol as [Hlow Hhigh]. split.
    - apply Q.le_max_l.
    - apply Q.max_lub; lra. }
  destruct ((49 <=? key) && (key <=? 57)) eqn:Hdigit; [|apply keeps_skip].
  apply andb_true_iff in Hdigit as [Hlow Hhigh].
  apply Z.leb_le in Hlow, Hhigh.
  match goal with
  | |- context [?a <? ?b] => destruct (Z.ltb_spec a b); [|apply keeps_skip]
  end.
  destruct (instrument_of_key (key - 49)) as (instrument & Hget & Hin & Hvalid);
    [lia|].
  intros s Hs. unfold bind_to, mbind, M_bind, lift, gets, modify, player_write.
  rewrite Hget. simpl. rewrite (inv_player _ _ _ _ Hs).
  inv_update Hs.
  - by rewrite device_instrument_snoc.
  - apply Forall_app. split; [done|]. by constructor.
Qed.

(** *** Threads *)

Lemma keeps_run_thread (k : nat) : Keeps (run_thread k).
Proof.
  unfold run_thread, bind_to.
  apply (keeps_bind_gets (Forall valid_task)); [intros s Hs; apply Hs|].
  intros pool Hpool. destruct (pool !! k) as [t|] eqn:Ht; [|apply keeps_skip].
  apply keeps_bind.
  { apply keeps_modify. intros s Hs. inv_update Hs. by apply Forall_delete. }
  intros _. rewrite Forall_forall in Hpool.
  assert (Hvalid : valid_task t)
    by (apply Hpool; by eapply list_elem_of_lookup_2).
  destruct t as [delay n v factor|chord_notes]; simpl.
  - by eapply keeps_echo_timer_body.
  - by apply keeps_stop_after_delay.
Qed.

Lemma keeps_playback_event (event : RecordedEvent) :
  valid_event event → Keeps (playback_event event).
Proof.
  intros [Hnote Haction]. unfold playback_event, bind_to.
  apply keeps_bind; [apply keeps_gets|]. intros connected.
  destruct (String.eqb_spec (ev_action event) "on") as [Hon|Hoff].
  - assert (0 ≤ ev_velocity event ≤ 127).
    { destruct Haction as [[_ ?]|[Hoff _]]; [lia|].
      rewrite Hon in Hoff. discriminate Hoff. }
    repeat keeps_step.
  - assert (0 ≤ ev_velocity event ≤ 127)
      by (destruct Haction as [[? _]|[_ ->]]; [done|lia]).
    repeat keeps_step.
Qed.

Lemma keeps_playback_thread_step : Keeps playback_thread_step.
Proof.
  unfold playback_thread_step, bind_to.
  apply (keeps_bind_gets
           (λ thread, ∀ index events,
              thread = Some (PlaybackEvents index (Some events)) →
              Forall valid_event events));
    [intros s Hs; apply Hs|].
  intros [[|index detached]|] Hthread.
  - apply keeps_bind; [apply keeps_flush_active_notes|]. intros _.
    apply keeps_bind.
    { apply keeps_modify. intros s Hs. inv_update Hs. apply set_Forall_empty. }
    intros _. apply keeps_modify. intros s Hs. by inv_update Hs.
  - apply (keeps_bind_gets (Forall valid_event)); [intros s Hs; apply Hs|].
    intros recorded Hrecorded.
    assert (Hevents : Forall valid_event (default recorded detached)).
    { destruct detached as [events|]; [|done]. by eapply Hthread. }
    destruct (default recorded detached !! index) as [event|] eqn:Hevent.
    + apply keeps_bind.
      { apply keeps_playback_event.
        eapply Forall_lookup_1; [exact Hevents|exact Hevent]. }
      intros _. apply keeps_modify. intros s Hs. inv_update Hs.
      intros ? ? [= _ ->]. by eapply Hthread.
    + apply keeps_bind; [apply keeps_flush_active_notes|]. intros _.
      apply keeps_modify. intros s Hs. by inv_update Hs.
  - apply keeps_skip.
Qed.

End Invariant.

Section Run.

Context `{PyMath} (timed : bool).

Lemma run_invariant_set_clock (w : Z) (now later : Q) (s : Piano) :
  run_invariant timed w now s → (timed = true → (now <= later)%Q) →
  run_invariant timed w later (set_clock later s).
Proof.
  intros Hs Hlater. inv_update Hs; [done|].
  intros Htimed. specialize (Hchr Htimed). specialize (Hlater Htimed).
  destruct (recording_start_time s) as [t0|]; [|done].
  destruct Hchr as (Hstart & Hbounds & Hsorted). rewrite Hclock in *.
  split; [lra|]. split; [|done].
  eapply Forall_impl; [exact Hbounds|]. intros e [? ?]. split; lra.
Qed.

(** Every event keeps the invariant; an exception needs a zero width. *)
Lemma event_keeps (ev : Event) (w : Z) (now : Q) (s : Piano) :
  run_invariant timed w now s →
  (timed = true → ∀ later, event_time ev = Some later → (now <= later)%Q) →
  match event_action ev s with
  | (Ok _, s') =>
      run_invariant timed (default w (brings_width ev))
        (default now (event_time ev)) s'
  | (Raise _, s') =>
      run_invariant timed w (default now (event_time ev)) s' ∧ w = 0
  end.
Proof.
  intros Hs Hlater.
  assert (Hstep : ∀ (later : Q) (w' : Z) (m : M unit),
            event_time ev = Some later →
            hoare (run_invariant timed w later) m
              (λ _, run_invariant timed w' later)
              (λ s', run_invariant timed w later s' ∧ w = 0) →
            match (modify (set_clock later) ≫= λ _, m) s with
            | (Ok _, s') => run_invariant timed w' later s'
            | (Raise _, s') => run_invariant timed w later s' ∧ w = 0
            end).
  { intros later w' m Htime Hm. unfold mbind, M_bind, modify.
    apply Hm. apply (run_invariant_set_clock w now); [done|].
    intros Htimed. by apply Hlater. }
  destruct ev as [later hands fw|later key ww|later k|later|]; simpl.
  - apply Hstep; [done|]. apply (keeps_process_frame timed w later).
  - apply Hstep; [done|]. apply (keeps_handle_keyboard_input timed w later).
  - apply Hstep; [done|]. apply (keeps_run_thread timed w later).
  - apply Hstep; [done|]. apply (keeps_playback_thread_step timed w later).
  - by apply (keeps_cleanup timed w now).
Qed.

Lemma cleanup_keeps (w : Z) (now : Q) (s : Piano) :
  run_invariant timed w now s → run_invariant timed w now (cleanup s).2.
Proof.
  intros Hs. pose proof (keeps_cleanup timed w now s Hs) as Hc.
  destruct (cleanup s) as [[[]|e] s1]; simpl in *; tauto.
Qed.

(** Every state of a run satisfies the invariant, with a width that is
    not zero if no width of the run is. *)
Lemma run_keeps (evs : list Event) (w : Z) (now : Q) (s : Piano) :
  run_invariant timed w now s →
  (timed = true → clock_advances now evs) →
  ∃ w' now',
    run_invariant timed w' now' (run evs s)
    ∧ (w ≠ 0 → Forall (λ ev, brings_width ev ≠ Some 0) evs → w' ≠ 0).
Proof.
  revert w now s. induction evs as [|ev evs IH]; intros w now s Hs Hclock.
  { by exists w, now. }
  simpl. destruct (quits ev).
  { exists w, now. split; [by apply cleanup_keeps|done]. }
  assert (Hlater : timed = true →
            ∀ later, event_time ev = Some later → (now <= later)%Q).
  { intros Htimed later Hev. specialize (Hclock Htimed). simpl in Hclock.
    rewrite Hev in Hclock. tauto. }
  assert (Hrest : timed = true →
            clock_advances (default now (event_time ev)) evs).
  { intros Htimed. specialize (Hclock Htimed). simpl in Hclock.
    destruct (event_time ev); simpl; tauto. }
  assert (Hwidth : w ≠ 0 → brings_width ev ≠ Some 0 →
            default w (brings_width ev) ≠ 0).
  { intros Hw Hev. destruct (brings_width ev) as [w'|]; simpl; congruence. }
  pose proof (event_keeps ev w now s Hs Hlater) as Hev.
  destruct (event_action ev s) as [[[]|e] s1].
  - destruct (IH _ _ s1 Hev Hrest) as (w' & now' & Hrun & Hnonzero).
    exists w', now'. split; [done|]. intros Hw Hall.
    apply Forall_cons in Hall as [Hhead Hall]. auto.
  - destruct Hev as [Hev Hzero].
    destruct (on_main_thread ev).
    + exists w, (default now (event_time ev)).
      split; [by apply cleanup_keeps|done].
    + destruct (IH _ _ s1 Hev Hrest) as (w' & now' & Hrun & Hnonzero).
      exists w', now'. split; [done|]. intros Hw. done.
Qed.

Lemma initial_invariant (camera_width : Z) :
  run_invariant timed camera_width 0 (initial camera_width).
Proof.
  constructor; simpl; try done.
  - rewrite !elem_of_cons. auto.
  - apply complete_all_down. rewrite !elem_of_cons. auto.
  - rewrite !elem_of_cons. auto.
  - repeat constructor; done.
Qed.

End Run.

(** ** What holds along every run *)

Section RunProperties.

Context `{PyMath}.


(** X6.  Every message that a run sends to the device is valid MIDI: notes
    and velocities between 0 and 127, pitch-bend data bytes between 0 and
    127 under a status byte, program numbers between 0 and 127.  The
    messages of a playback are among them, those of the entries that are
    recorded while it plays included. *)
Theorem run_sends_valid_midi (camera_width : Z) (evs : list Event) :
  Forall valid_message (midi_out (run evs (initial camera_width))).
Proof.
  destruct (run_keeps false evs camera_width 0 (initial camera_width))
    as (w & now & Hinv & _); [apply initial_invariant|done|].
  apply Hinv.
Qed.

(** X7.  The velocity multiplier stays between 0.1 and 2.0 in every state
    of a run, whatever keys are pressed. *)
Theorem volume_stays_in_range (camera_width : Z) (evs : list Event) :
  (1 # 10 <= velocity_multiplier (run evs (initial camera_width)))%Q
  ∧ (velocity_multiplier (run evs (initial camera_width)) <= 2)%Q.
Proof.
  destruct (run_keeps false evs camera_width 0 (initial camera_width))
    as (w & now & Hinv & _); [apply initial_invariant|done|].
  apply Hinv.
Qed.

(** X8.  In every state of a run the device plays the program that
    [current_instrument] names: the last program change it was sent is
    that one; and it is one of the first nine programs of the table, the
    other five can not be chosen from the keyboard. *)
Theorem device_plays_current_instrument (camera_width : Z) (evs : list Event) :
  let s := run evs (initial camera_width) in
  device_instrument (midi_out s) = Some (current_instrument s)
  ∧ current_instrument s ∈ [0; 1; 4; 6; 8; 11; 12; 14; 16]
  ∧ drop 9 instrument_keys = [25; 40; 48; 73; 80].
Proof.
  destruct (run_keeps false evs camera_width 0 (initial camera_width))
    as (w & now & Hinv & _); [apply initial_invariant|done|].
  split; [apply Hinv|]. split; [apply Hinv|done].
Qed.

(** X9.  Every entry of the recording, in every state of a run, is for a
    note between 0 and 127 and is either an "on" with a velocity between
    20 and 127 or an "off" with velocity 0. *)
Theorem recorded_events_are_valid (camera_width : Z) (evs : list Event) :
  Forall valid_event (recorded_notes (run evs (initial camera_width))).
Proof.
  destruct (run_keeps false evs camera_width 0 (initial camera_width))
    as (w & now & Hinv & _); [apply initial_invariant|done|].
  apply Hinv.
Qed.

(** X10.  When the clock never goes back, the recording is in the order of
    time: the times of its entries are not negative and never decrease
    along the list. *)
Theorem recording_is_chronological (camera_width : Z) (evs : list Event) :
  clock_advances 0 evs →
  let recorded := recorded_notes (run evs (initial camera_width)) in
  Sorted Qle (ev_time <$> recorded)
  ∧ Forall (λ e, (0 <= ev_time e)%Q) recorded.
Proof.
  intros Hclock.
  destruct (run_keeps true evs camera_width 0 (initial camera_width))
    as (w & now & Hinv & _); [apply initial_invariant|done|].
  pose proof (inv_chronological _ _ _ _ Hinv eq_refl) as Hchr.
  unfold chronological in Hchr. cbv zeta.
  destruct (recording_start_time _) as [t0|].
  - destruct Hchr as (_ & Hbounds & Hsorted). split; [done|].
    eapply Forall_impl; [exact Hbounds|]. by intros e [? _].
  - rewrite Hchr. split; constructor.
Qed.

End RunProperties.


Lemma recording_is_chronological_witness :
  let recorded :=
    recorded_notes
      (run [KeyPress 1 114 1280; Frame 2 [left_thumb_up] 1280;
            Frame 3 [left_fist] 1280; RunThread (38 # 10) 0]
           (initial 1280)) in
  Sorted Qle (ev_time <$> recorded)
  ∧ Forall (λ e, (0 <= ev_time e)%Q) recorded.
Proof.
  apply (recording_is_chronological 1280
           [KeyPress 1 114 1280; Frame 2 [left_thumb_up] 1280;
            Frame 3 [left_fist] 1280; RunThread (38 # 10) 0]).
  simpl. repeat split; lra.
Defined.

(** ** The fingers that a frame shows *)

Section Seen.

Context `{PyMath}.

Lemma finger_seen_complete (hand_key : string) (fingers_up_list : list Z)
    (loc : FrameLocals) (entry : Z * string) :
  complete (current_finger_states loc) →
  complete (current_finger_states
              (finger_seen hand_key fingers_up_list loc entry)).
Proof.
  intros Hloc. destruct entry as [i finger_name]. simpl.
  destruct (fingers_up_list !! Z.to_nat i) as [up|]; [|done].
  destruct (current_finger_states loc !! hand_key) as [hand_states|] eqn:Hh;
    [|done].
  simpl. by apply complete_insert.
Qed.

Lemma fingers_seen_complete (hand_key : string) (fingers_up_list : list Z)
    (entries : list (Z * string)) (loc : FrameLocals) :
  complete (current_finger_states loc) →
  complete (current_finger_states
              (foldl (finger_seen hand_key fingers_up_list) loc entries)).
Proof.
  revert loc. induction entries as [|entry entries IH]; intros loc Hloc;
    simpl; [done|].
  apply IH. by apply finger_seen_complete.
Qed.

Lemma hand_seen_complete (loc : FrameLocals) (hand : Hand) :
  complete (current_finger_states loc) →
  complete (current_finger_states (hand_seen 30 loc hand)).
Proof.
  intros Hloc. unfold hand_seen. destruct (hand_pinches hand 30); [done|].
  by apply fingers_seen_complete.
Qed.

(** *** The keys *)

Lemma finger_seen_keys (hand_key : string) (fingers_up_list : list Z)
    (loc : FrameLocals) (entry : Z * string) :
  hand_key ∈ ["left"; "right"] → complete (current_finger_states loc) →
  current_frame_active_keys_input
    (finger_seen hand_key fingers_up_list loc entry)
  = current_frame_active_keys_input loc
    ∪ list_to_set
        (if bool_decide (fingers_up_list !! Z.to_nat entry.1 = Some 1)
         then [hand_key +:+ "_" +:+ entry.2] else []).
Proof.
  intros Hhand Hloc. destruct entry as [i finger_name]. simpl.
  destruct (complete_lookup _ hand_key "thumb" Hloc Hhand)
    as (hand_states & ? & -> & _); [left|].
  destruct (fingers_up_list !! Z.to_nat i) as [up|].
  - simpl. destruct (Z.eqb_spec up 1) as [->|Hne].
    + rewrite bool_decide_eq_true_2 by done. simpl. set_solver.
    + rewrite bool_decide_eq_false_2 by congruence. simpl. set_solver.
  - rewrite bool_decide_eq_false_2 by done. simpl. set_solver.
Qed.

Lemma fingers_seen_keys (hand_key : string) (fingers_up_list : list Z)
    (entries : list (Z * string)) (loc : FrameLocals) :
  hand_key ∈ ["left"; "right"] → complete (current_finger_states loc) →
  current_frame_active_keys_input
    (foldl (finger_seen hand_key fingers_up_list) loc entries)
  = current_frame_active_keys_input loc
    ∪ list_to_set
        (entry ← entries;
         if bool_decide (fingers_up_list !! Z.to_nat entry.1 = Some 1)
         then [hand_key +:+ "_" +:+ entry.2] else []).
Proof.
  intros Hhand. revert loc.
  induction entries as [|entry entries IH]; intros loc Hloc; simpl.
  - set_solver.
  - rewrite IH by (by apply finger_seen_complete).
    rewrite finger_seen_keys by done. rewrite list_to_set_app_L.
    by rewrite (assoc_L (∪)).
Qed.

Lemma frame_seen_keys (hands : list Hand) (loc : FrameLocals) :
  complete (current_finger_states loc) →
  current_frame_active_keys_input (foldl (hand_seen 30) loc hands)
  = current_frame_active_keys_input loc ∪ raised_keys 30 hands.
Proof.
  revert loc. induction hands as [|hand hands IH]; intros loc Hloc; simpl.
  - unfold raised_keys. simpl. set_solver.
  - rewrite IH by (by apply hand_seen_complete).
    unfold raised_keys. simpl. rewrite list_to_set_app_L, (assoc_L (∪)).
    f_equal. unfold hand_seen. destruct (hand_pinches hand 30).
    + simpl. set_solver.
    + apply fingers_seen_keys; [apply hand_key_of_cases|done].
Qed.

Lemma raised_keys_spec (hands : list Hand) (key_name : string) :
  key_name ∈ raised_keys 30 hands
  ↔ ∃ (hand : Hand) (i : nat) (finger_name : string),
      hand ∈ hands ∧ hand_pinches hand 30 = false
      ∧ finger_names !! i = Some finger_name
      ∧ fingersUp hand !! i = Some 1
      ∧ key_name = hand_key_of hand +:+ "_" +:+ finger_name.
Proof.
  unfold raised_keys. rewrite elem_of_list_to_set, list_elem_of_bind. split.
  - intros (hand & Hkey & Hhand).
    destruct (hand_pinches hand 30) eqn:Hpinch;
      [by apply elem_of_nil in Hkey|].
    apply list_elem_of_bind in Hkey as ([i finger_name] & Hkey & Hentry).
    simpl in Hkey. case_bool_decide as Hup; [|by apply elem_of_nil in Hkey].
    apply list_elem_of_singleton in Hkey.
    apply enumerate_lookup in Hentry as [Hi Hfinger].
    exists hand, (Z.to_nat i), finger_name. done.
  - intros (hand & i & finger_name & Hhand & Hpinch & Hfinger & Hup & ->).
    exists hand. split; [|done]. rewrite Hpinch.
    apply list_elem_of_bind. exists (Z.of_nat i, finger_name). split.
    + simpl. rewrite Nat2Z.id, bool_decide_eq_true_2 by done. left.
    + unfold enumerate. apply elem_of_lookup_imap. by exists i, finger_name.
Qed.

End Seen.

Section Frames.

Context `{PyMath}.

(** X11.  After a frame with hands, processed in a state of a run whose
    widths are not zero, [process_hands] has returned and the set of
    active keys holds exactly the keys of the fingers that a hand of the
    frame shows raised, the hands taken for a pinch apart: the key
    "left_thumb" is in it if and only if some hand that is not pinching
    and is of type "Left" reports 1 for its first finger, and so on. *)
Theorem active_keys_show_raised_fingers (camera_width : Z)
    (evs : list Event) (hands : list Hand) :
  camera_width ≠ 0 →
  Forall (λ ev, brings_width ev ≠ Some 0) evs →
  let s := run evs (initial camera_width) in
  (process_hands hands s).1 = Ok ()
  ∧ ∀ key_name : string,
      key_name ∈ active_keys (process_hands hands s).2
      ↔ ∃ (hand : Hand) (i : nat) (finger_name : string),
          hand ∈ hands ∧ hand_pinches hand 30 = false
          ∧ finger_names !! i = Some finger_name
          ∧ fingersUp hand !! i = Some 1
          ∧ key_name = hand_key_of hand +:+ "_" +:+ finger_name.
Proof.
  intros Hwidth Hevs s.
  destruct (run_keeps false evs camera_width 0 (initial camera_width))
    as (w & now & Hinv & Hnonzero); [apply initial_invariant|done|].
  specialize (Hnonzero Hwidth Hevs). fold s in Hinv.
  destruct (valid_scale_chords _ (inv_scale _ _ _ _ Hinv))
    as (chords & Hchords & Htable).
  pose proof (process_hands_returns false w now hands _ chords Hchords s
                (conj Hinv eq_refl)) as Hrun.
  destruct (process_hands hands s) as [[[]|e] s1]; [|by destruct Hrun].
  destruct Hrun as (_ & Hkeys & _). split; [done|]. intros key_name.
  simpl. rewrite Hkeys. unfold frame_seen.
  rewrite frame_seen_keys by (by apply complete_all_down). simpl.
  rewrite (left_id_L ∅ (∪)). apply raised_keys_spec.
Qed.

End Frames.

Lemma active_keys_show_raised_fingers_witness :
  let s := run [Frame 1 [left_fist] 1280] (initial 1280) in
  (process_hands [left_thumb_up; right_pinch] s).1 = Ok ()
  ∧ ∀ key_name : string,
      key_name ∈ active_keys (process_hands [left_thumb_up; right_pinch] s).2
      ↔ ∃ (hand : Hand) (i : nat) (finger_name : string),
          hand ∈ [left_thumb_up; right_pinch]
          ∧ hand_pinches hand 30 = false
          ∧ finger_names !! i = Some finger_name
          ∧ fingersUp hand !! i = Some 1
          ∧ key_name = hand_key_of hand +:+ "_" +:+ finger_name.
Proof.
  apply (active_keys_show_raised_fingers 1280 [Frame 1 [left_fist] 1280]
           [left_thumb_up; right_pinch]).
  - lia.
  - repeat constructor; simpl; discriminate.
Defined.

Section Steady.

Context `{PyMath}.

Lemma handle_pinch_gesture_not_pinching (hand : Hand) (s : Piano) :
  hand_pinches hand (pinch_threshold s) = false →
  handle_pinch_gesture hand s = (Ok false, s).
Proof.
  unfold hand_pinches, handle_pinch_gesture. intros Hpinch.
  destruct (decide (length (lmList hand) < 21)%nat) as [Hlen|Hlen].
  { by rewrite (bool_decide_eq_true_2 _ Hlen). }
  rewrite (bool_decide_eq_false_2 _ Hlen).
  destruct (lookup_lt_is_Some_2 (lmList hand) 4) as [thumb_tip Hthumb]; [lia|].
  destruct (lookup_lt_is_Some_2 (lmList hand) 8) as [index_tip Hindex]; [lia|].
  rewrite Hthumb, Hindex, bool_decide_eq_true_2 in Hpinch by lia.
  simpl in Hpinch.
  rewrite (list_getitem_at _ 4 thumb_tip), (list_getitem_at _ 8 index_tip)
    by (done || lia).
  unfold bind_to, mbind, M_bind, lift, gets. by rewrite Hpinch.
Qed.

(** The methods as functions on one given state. *)
Lemma hoare_run {A} (s : Piano) (m : M A) (a : A) :
  hoare (λ s', s' = s) m (λ a' s', s' = s ∧ a' = a) (λ _, False) →
  m s = (Ok a, s).
Proof.
  intros Hm. specialize (Hm s eq_refl).
  destruct (m s) as [[a'|e] s1]; [|done]. by destruct Hm as [-> ->].
Qed.

Lemma hoare_bind_run {A B} (s : Piano) (m : M A) (a : A) (k : A → M B)
    (Q : B → Piano → Prop) (E : Piano → Prop) :
  m s = (Ok a, s) → hoare (λ s', s' = s) (k a) Q E →
  hoare (λ s', s' = s) (m ≫= k) Q E.
Proof.
  intros Hm Hk s' ->. unfold mbind, M_bind. rewrite Hm. by apply Hk.
Qed.

Lemma previous_state_run (hand_key finger_name : string) (expected : Z)
    (prev_hand : gmap string Z) (prev_up : Z) (s : Piano) :
  prev_states s !! hand_key = Some prev_hand →
  prev_hand !! finger_name = Some prev_up →
  (gets prev_states ≫= λ prev : gmap string (gmap string Z),
   lift (dict_getitem prev hand_key) ≫= λ prev_hand : gmap string Z,
   lift (dict_getitem prev_hand finger_name) ≫= λ prev_up : Z,
   mret (prev_up =? expected)) s
  = (Ok (prev_up =? expected), s).
Proof.
  intros Hhand Hfinger. unfold mbind, M_bind, gets, lift, dict_getitem.
  by rewrite Hhand, Hfinger.
Qed.

(** A finger whose state is the one of the frame before plays nothing
    and stops nothing. *)
Lemma process_finger_steady (chords : gmap string (gmap string (list Z)))
    (hand : Hand) (hand_key : string) (fingers_up_list : list Z)
    (loc : FrameLocals) (entry : Z * string) (s : Piano) :
  chords ∈ [D_Major; C_Major; Pentatonic] → hand_key ∈ ["left"; "right"] →
  entry ∈ enumerate finger_names →
  complete (current_finger_states loc) → complete (prev_states s) →
  (∀ up, fingers_up_list !! Z.to_nat entry.1 = Some up →
         prev_states s !! hand_key ≫= (.!! entry.2) = Some up) →
  process_finger chords hand hand_key fingers_up_list loc entry s
  = (Ok (finger_seen hand_key fingers_up_list loc entry), s).
Proof.
  intros Htable Hhand Hentry Hstates Hprev Hsame.
  destruct entry as [i finger_name]. simpl in Hsame.
  apply enumerate_lookup in Hentry as [Hi Hfinger].
  apply list_elem_of_lookup_2 in Hfinger.
  destruct (table_finger_chord chords hand_key finger_name)
    as (hand_chords & chord & Hhand_chords & Hchord); [done..|].
  destruct (complete_lookup _ hand_key finger_name Hstates Hhand Hfinger)
    as (hand_states & old & Hhand_states & _).
  destruct (complete_lookup _ hand_key finger_name Hprev Hhand Hfinger)
    as (prev_hand & prev_up & Hprev_hand & Hprev_up).
  apply hoare_run.
  unfold process_finger, finger_seen, bind_to. cbv zeta.
  eapply hoare_bind_lift_ok; [by apply dict_getitem_Some|].
  rewrite bool_decide_eq_true_2 by (by eexists). rewrite Hhand_states. simpl.
  destruct (Z.ltb_spec i (Z.of_nat (length fingers_up_list))) as [Hlen|Hlen].
  2: { rewrite lookup_ge_None_2 by lia. by apply hoare_ret. }
  destruct (lookup_lt_is_Some_2 fingers_up_list (Z.to_nat i)) as [up Hup];
    [lia|].
  rewrite Hup.
  eapply hoare_bind_lift_ok; [by apply list_getitem_at|].
  eapply hoare_bind_lift_ok; [by apply dict_getitem_Some|].
  specialize (Hsame up Hup). rewrite Hprev_hand in Hsame. simpl in Hsame.
  assert (prev_up = up) as -> by congruence.
  destruct (Z.eqb_spec up 1) as [->|Hne1].
  - eapply hoare_bind_run; [by eapply previous_state_run|]. simpl.
    apply hoare_bind_ret. simpl.
    apply hoare_bind_ret. apply hoare_bind_ret. by apply hoare_ret.
  - apply hoare_bind_ret.
    destruct (Z.eqb_spec up 0) as [->|Hne0].
    + eapply hoare_bind. 
      { eapply hoare_bind_run; [by eapply previous_state_run|]. simpl.
        apply hoare_ret. intros s' ->.
        instantiate (1 := λ keys s', s' = s
                            ∧ keys = current_frame_active_keys_input loc).
        done. }
      intros keys. intros s' [-> ->]. done.
    + apply hoare_bind_ret. simpl. apply hoare_bind_ret. by apply hoare_ret.
Qed.


Lemma fingers_steady (chords : gmap string (gmap string (list Z)))
    (hand : Hand) (hand_key : string) (fingers_up_list : list Z)
    (entries : list (Z * string)) (loc : FrameLocals) (s : Piano) :
  chords ∈ [D_Major; C_Major; Pentatonic] → hand_key ∈ ["left"; "right"] →
  (∀ entry, entry ∈ entries → entry ∈ enumerate finger_names) →
  complete (current_finger_states loc) → complete (prev_states s) →
  (∀ entry up, entry ∈ entries →
     fingers_up_list !! Z.to_nat entry.1 = Some up →
     prev_states s !! hand_key ≫= (.!! entry.2) = Some up) →
  for_fold entries loc (process_finger chords hand hand_key fingers_up_list) s
  = (Ok (foldl (finger_seen hand_key fingers_up_list) loc entries), s).
Proof.
  intros Htable Hhand. revert loc.
  induction entries as [|entry entries IH];
    intros loc Hentries Hstates Hprev Hsame; simpl; [done|].
  unfold bind_to, mbind, M_bind.
  rewrite process_finger_steady; try done.
  - apply IH; try done.
    + intros e He. apply Hentries. by right.
    + by apply finger_seen_complete.
    + intros e up He. apply Hsame. by right.
  - apply Hentries. left.
  - intros up. apply Hsame. left.
Qed.

Lemma process_hand_steady (chords : gmap string (gmap string (list Z)))
    (loc : FrameLocals) (hand : Hand) (s : Piano) :
  chords ∈ [D_Major; C_Major; Pentatonic] →
  pinch_threshold s = 30%Q → hand_pinches hand 30 = false →
  complete (current_finger_states loc) → complete (prev_states s) →
  (∀ entry up, entry ∈ enumerate finger_names →
     fingersUp hand !! Z.to_nat entry.1 = Some up →
     prev_states s !! hand_key_of hand ≫= (.!! entry.2) = Some up) →
  process_hand chords loc hand s = (Ok (hand_seen 30 loc hand), s).
Proof.
  intros Htable Hthreshold Hpinch Hstates Hprev Hsame.
  unfold process_hand, hand_seen, bind_to, mbind, M_bind.
  rewrite handle_pinch_gesture_not_pinching by (by rewrite Hthreshold).
  rewrite Hpinch. fold (hand_key_of hand).
  apply fingers_steady; auto using hand_key_of_cases.
Qed.

Lemma hands_steady (chords : gmap string (gmap string (list Z)))
    (hands : list Hand) (loc : FrameLocals) (s : Piano) :
  chords ∈ [D_Major; C_Major; Pentatonic] →
  pinch_threshold s = 30%Q →
  complete (current_finger_states loc) → complete (prev_states s) →
  (∀ hand entry up, hand ∈ hands →
     hand_pinches hand 30 = false
     ∧ (entry ∈ enumerate finger_names →
        fingersUp hand !! Z.to_nat entry.1 = Some up →
        prev_states s !! hand_key_of hand ≫= (.!! entry.2) = Some up)) →
  for_fold hands loc (process_hand chords) s
  = (Ok (foldl (hand_seen 30) loc hands), s).
Proof.
  intros Htable Hthreshold. revert loc.
  induction hands as [|hand hands IH]; intros loc Hstates Hprev Hsame; simpl;
    [done|].
  unfold bind_to, mbind, M_bind.
  rewrite process_hand_steady; try done.
  - apply IH; try done.
    + by apply hand_seen_complete.
    + intros h e up Hh. apply Hsame. by right.
  - apply (Hsame hand (0, "") 0). left.
  - intros e up He Hup. by apply (Hsame hand e up); [left|..].
Qed.

(** *** The states that a frame leaves *)

Lemma finger_seen_state (hand_key : string) (fingers_up_list : list Z)
    (loc : FrameLocals) (entry : Z * string) (hand_key' finger_name' : string) :
  hand_key ∈ ["left"; "right"] → complete (current_finger_states loc) →
  finger_state (finger_seen hand_key fingers_up_list loc entry)
    hand_key' finger_name'
  = match fingers_up_list !! Z.to_nat entry.1 with
    | Some up =>
        if decide (hand_key' = hand_key ∧ finger_name' = entry.2)
        then Some up else finger_state loc hand_key' finger_name'
    | None => finger_state loc hand_key' finger_name'
    end.
Proof.
  intros Hhand Hloc. destruct entry as [i finger_name]. simpl.
  destruct (complete_lookup _ hand_key "thumb" Hloc Hhand)
    as (hand_states & ? & Hstates & _); [left|].
  unfold finger_state. rewrite Hstates.
  destruct (fingers_up_list !! Z.to_nat i) as [up|]; [|done].
  simpl. destruct (decide (hand_key' = hand_key)) as [->|Hne].
  - rewrite lookup_insert_eq. simpl.
    destruct (decide (finger_name' = finger_name)) as [->|Hnf].
    + rewrite lookup_insert_eq. by rewrite decide_True.
    + rewrite lookup_insert_ne by done. rewrite ?Hstates. simpl.
      rewrite decide_False; [done|]. by intros [_ ?].
  - rewrite lookup_insert_ne by done.
    rewrite decide_False; [done|]. by intros [? _].
Qed.

Lemma fingers_seen_other (hand_key : string) (fingers_up_list : list Z)
    (entries : list (Z * string)) (loc : FrameLocals)
    (hand_key' finger_name' : string) :
  hand_key ∈ ["left"; "right"] → complete (current_finger_states loc) →
  hand_key' ≠ hand_key ∨ finger_name' ∉ entries.*2 →
  finger_state (foldl (finger_seen hand_key fingers_up_list) loc entries)
    hand_key' finger_name'
  = finger_state loc hand_key' finger_name'.
Proof.
  intros Hhand. revert loc.
  induction entries as [|entry entries IH]; intros loc Hloc Hother; simpl;
    [done|].
  rewrite IH.
  - rewrite finger_seen_state by done.
    destruct (fingers_up_list !! Z.to_nat entry.1); [|done].
    rewrite decide_False; [done|]. intros [-> ->].
    destruct Hother as [?|Hnot]; [done|]. apply Hnot. simpl. left.
  - by apply finger_seen_complete.
  - destruct Hother as [?|Hnot]; [by left|]. right. intros Hin.
    apply Hnot. simpl. by right.
Qed.

Lemma fingers_seen_state (hand_key : string) (fingers_up_list : list Z)
    (entries : list (Z * string)) (loc : FrameLocals) (entry : Z * string)
    (up : Z) :
  hand_key ∈ ["left"; "right"] → complete (current_finger_states loc) →
  NoDup entries.*2 → entry ∈ entries →
  fingers_up_list !! Z.to_nat entry.1 = Some up →
  finger_state (foldl (finger_seen hand_key fingers_up_list) loc entries)
    hand_key entry.2
  = Some up.
Proof.
  intros Hhand. revert loc.
  induction entries as [|e entries IH]; intros loc Hloc Hnodup Hin Hup;
    [by apply elem_of_nil in Hin|].
  simpl in *. apply NoDup_cons in Hnodup as [Hfresh Hnodup].
  apply elem_of_cons in Hin as [->|Hin].
  - rewrite fingers_seen_other; [|done|by apply finger_seen_complete|by right].
    rewrite finger_seen_state by done. rewrite Hup. by rewrite decide_True.
  - apply IH; try done. by apply finger_seen_complete.
Qed.

Lemma hand_seen_other (loc : FrameLocals) (hand : Hand)
    (hand_key' finger_name' : string) :
  complete (current_finger_states loc) → hand_key' ≠ hand_key_of hand →
  finger_state (hand_seen 30 loc hand) hand_key' finger_name'
  = finger_state loc hand_key' finger_name'.
Proof.
  intros Hloc Hne. unfold hand_seen. destruct (hand_pinches hand 30); [done|].
  apply fingers_seen_other; auto using hand_key_of_cases.
Qed.

Lemma hands_seen_other (hands : list Hand) (loc : FrameLocals)
    (hand_key' finger_name' : string) :
  complete (current_finger_states loc) →
  hand_key' ∉ hand_key_of <$> hands →
  finger_state (foldl (hand_seen 30) loc hands) hand_key' finger_name'
  = finger_state loc hand_key' finger_name'.
Proof.
  revert loc. induction hands as [|hand hands IH]; intros loc Hloc Hnot;
    simpl; [done|].
  simpl in Hnot. apply not_elem_of_cons in Hnot as [Hne Hnot].
  rewrite IH by (done || by apply hand_seen_complete).
  by apply hand_seen_other.
Qed.

Lemma enumerate_finger_names_NoDup : NoDup (enumerate finger_names).*2.
Proof. apply (bool_decide_unpack _). vm_compute. exact I. Qed.

Lemma hands_seen_state (hands : list Hand) (loc : FrameLocals) (hand : Hand)
    (entry : Z * string) (up : Z) :
  complete (current_finger_states loc) →
  NoDup (hand_key_of <$> hands) → hand ∈ hands →
  hand_pinches hand 30 = false →
  entry ∈ enumerate finger_names →
  fingersUp hand !! Z.to_nat entry.1 = Some up →
  finger_state (foldl (hand_seen 30) loc hands) (hand_key_of hand) entry.2
  = Some up.
Proof.
  revert loc. induction hands as [|h hands IH];
    intros loc Hloc Hnodup Hin Hpinch Hentry Hup;
    [by apply elem_of_nil in Hin|].
  simpl in *. apply NoDup_cons in Hnodup as [Hfresh Hnodup].
  apply elem_of_cons in Hin as [->|Hin].
  - rewrite hands_seen_other by (done || by apply hand_seen_complete).
    unfold hand_seen. rewrite Hpinch.
    apply fingers_seen_state;
      auto using hand_key_of_cases, enumerate_finger_names_NoDup.
  - apply IH; try done. by apply hand_seen_complete.
Qed.

End Steady.

Section HeldFingers.

Context `{PyMath}.

Lemma settled_process_hands {C} (f : Piano → C) (hands : list Hand) :
  settled f → Preserves f (process_hands hands).
Proof.
  intros Hf. pose proof Hf as (?&?&?&?&?&?&?&?&?&?&?&?&?).
  unfold process_hands, process_hand, get_current_chords, send_pitch_bend,
    player_write, active_notes_discard, skip, bind_to.
  repeat first [ by apply settled_handle_pinch_gesture
               | by apply settled_process_finger
               | apply Preserves_for_fold; intros ? ?
               | apply Preserves_modify; solve [intros; auto]
               | preserves_step ].
Qed.

Lemma finger_seen_pinching (hand_key : string) (fingers_up_list : list Z)
    (entries : list (Z * string)) (loc : FrameLocals) :
  pinching_in_current_frame
    (foldl (finger_seen hand_key fingers_up_list) loc entries)
  = pinching_in_current_frame loc.
Proof.
  revert loc. induction entries as [|[i finger_name] entries IH]; intros loc;
    simpl; [done|].
  rewrite IH.
  destruct (fingers_up_list !! Z.to_nat i); [|done].
  by destruct (current_finger_states loc !! hand_key).
Qed.

Lemma frame_seen_pinching (hands : list Hand) (loc : FrameLocals) :
  Forall (λ hand, hand_pinches hand 30 = false) hands →
  pinching_in_current_frame (foldl (hand_seen 30) loc hands)
  = pinching_in_current_frame loc.
Proof.
  intros Hhands. revert loc.
  induction Hhands as [|hand hands Hpinch _ IH]; intros loc; simpl; [done|].
  rewrite IH. unfold hand_seen. rewrite Hpinch. apply finger_seen_pinching.
Qed.

(** X12.  Keys are played on the rising edge only.  When a frame shows the
    same hands as the frame before it (at most one hand of each side,
    none of them pinching), processing it changes nothing at all: no
    message is sent, no release is scheduled, nothing is recorded, the
    active keys and the previous states stay as they are, however long
    the fingers are held up. *)
Theorem held_fingers_change_nothing (camera_width : Z) (evs : list Event)
    (hands : list Hand) :
  camera_width ≠ 0 →
  Forall (λ ev, brings_width ev ≠ Some 0) evs →
  NoDup (hand_key_of <$> hands) →
  Forall (λ hand, hand_pinches hand 30 = false) hands →
  let s := run evs (initial camera_width) in
  let s1 := (process_hands hands s).2 in
  (process_hands hands s).1 = Ok ()
  ∧ process_hands hands s1 = (Ok (), s1).
Proof.
  intros Hwidth Hevs Hnodup Hpinch s s1.
  destruct (run_keeps false evs camera_width 0 (initial camera_width))
    as (w & now & Hinv & Hnonzero); [apply initial_invariant|done|].
  specialize (Hnonzero Hwidth Hevs). fold s in Hinv.
  destruct (valid_scale_chords _ (inv_scale _ _ _ _ Hinv))
    as (chords & Hchords & Htable).
  pose proof (process_hands_returns false w now hands _ chords Hchords s
                (conj Hinv eq_refl)) as Hrun.
  pose proof (settled_process_hands current_scale hands
                ltac:(repeat split) s) as Hscale.
  fold s1 in Hscale. subst s1.
  destruct (process_hands hands s) as [[[]|e] s1]; [|by destruct Hrun].
  cbn [fst snd] in *. split; [done|].
  destruct Hrun as (Hinv1 & Hkeys & Hprev & Hflag).
  set (start := {| current_finger_states := all_down chords;
                   current_frame_active_keys_input := ∅;
                   pinching_in_current_frame := false |}) in *.
  assert (Hstart : complete (current_finger_states start))
    by (by apply complete_all_down).
  unfold frame_seen in Hkeys, Hprev, Hflag. fold start in Hkeys, Hprev, Hflag.
  rewrite frame_seen_pinching in Hflag by done.
  specialize (Hflag eq_refl).
  assert (Hloop : for_fold hands start (process_hand chords) s1
                  = (Ok (foldl (hand_seen 30) start hands), s1)).
  { apply hands_steady; try done; try apply Hinv1.
    intros hand entry up Hhand. rewrite Forall_forall in Hpinch.
    split; [by apply Hpinch|]. intros Hentry Hup.
    rewrite Hprev.
    apply (hands_seen_state hands start hand entry up); auto. }
  unfold process_hands, get_current_chords, bind_to.
  unfold mbind at 1, M_bind at 1. unfold mbind at 1, M_bind at 1.
  unfold gets at 1, lift at 1. rewrite Hscale, Hchords.
  unfold mbind at 1, M_bind at 1. fold start. rewrite Hloop.
  unfold mbind, M_bind, modify, gets. simpl.
  rewrite Hflag, frame_seen_pinching by done. simpl.
  f_equal. apply piano_ext; simpl; try done; by rewrite ?Hkeys, ?Hprev.
Qed.

End HeldFingers.

Lemma held_fingers_change_nothing_witness :
  let s := run [Frame 1 [left_fist] 1280] (initial 1280) in
  let s1 := (process_hands [left_thumb_up] s).2 in
  (process_hands [left_thumb_up] s).1 = Ok ()
  ∧ process_hands [left_thumb_up] s1 = (Ok (), s1).
Proof.
  apply (held_fingers_change_nothing 1280 [Frame 1 [left_fist] 1280]
           [left_thumb_up]).
  - lia.
  - repeat constructor; simpl; discriminate.
  - repeat constructor. apply not_elem_of_nil.
  - repeat constructor.
Defined.

(** ** Sustained chords and the playback of a recording *)

Section Sustain.

Context `{PyMath}.

Lemma play_note_of_chord_active (velocity : Z) (entry : Z * Z) (s : Piano) :
  entry.2 ∈ active_notes s → play_note_of_chord velocity entry s = (Ok (), s).
Proof.
  destruct entry as [i note]. simpl. intros Hactive.
  unfold play_note_of_chord, bind_to, mbind, M_bind, gets.
  rewrite bool_decide_eq_false_2; [done|]. by intros Hnot.
Qed.

Lemma play_chord_enhanced_active (chord_notes : list Z) (velocity : Z)
    (s : Piano) :
  (∀ n, n ∈ chord_notes → n ∈ active_notes s) →
  play_chord_enhanced chord_notes velocity s = (Ok (), s).
Proof.
  intros Hactive. unfold play_chord_enhanced.
  assert (Hentries : ∀ entry, entry ∈ enumerate chord_notes →
                              entry.2 ∈ active_notes s).
  { intros [i note] Hin. apply enumerate_lookup in Hin as [_ Hnote].
    apply Hactive. by eapply list_elem_of_lookup_2. }
  induction (enumerate chord_notes) as [|entry entries IH]; [done|].
  rewrite for_each_cons_run, play_note_of_chord_active
    by (apply Hentries; left).
  apply IH. intros e He. apply Hentries. by right.
Qed.

Lemma release_note_returns (note : Z) :
  hoare recording_started (release_note note) (λ _, recording_started)
    (λ _, False).
Proof.
  intros s Hs.
  unfold release_note, record_event, active_notes_discard, player_write,
    bind_to, mbind, M_bind, gets, modify, skip, raise, mret, M_ret.
  case_bool_decide; [|done].
  destruct (recording s) eqn:Hrec.
  - destruct (Hs Hrec) as [t0 Ht0].
    destruct (player s); simpl; rewrite Hrec; simpl; rewrite Ht0; simpl;
      unfold recording_started; simpl; by rewrite Ht0.
  - destruct (player s); simpl; rewrite Hrec; simpl;
      unfold recording_started; simpl; by rewrite Hrec.
Qed.

Lemma stop_after_delay_returns (chord_notes : list Z) (s : Piano) :
  recording_started s → (stop_after_delay chord_notes s).1 = Ok ().
Proof.
  intros Hs.
  pose proof (hoare_for_each recording_started chord_notes release_note
                (λ _, False) (λ note _, release_note_returns note) s Hs)
    as Hrun.
  unfold stop_after_delay. by destruct (for_each _ _ s) as [[[]|e] s1].
Qed.

(** X13.  Raising a finger again while its chord still sustains does
    nothing: when every note of the chord is active, the press sends no
    message, schedules no echo and records nothing, the instance is as
    before.  It does not cancel the release that the lowering scheduled
    either: when that thread runs, it turns every note of the chord off
    although the finger is up. *)
Theorem press_during_sustain_is_cut (chord_notes : list Z) (velocity : Z)
    (k : nat) (s : Piano) :
  (∀ n, n ∈ chord_notes → n ∈ active_notes s) →
  recording_started s →
  threads s !! k = Some (StopAfterDelay chord_notes) →
  play_chord_enhanced chord_notes velocity s = (Ok (), s)
  ∧ ∃ s' : Piano,
      (play_chord_enhanced chord_notes velocity;; run_thread k) s = (Ok (), s')
      ∧ (∀ n, n ∈ chord_notes → n ∉ active_notes s')
      ∧ threads s' = delete k (threads s).
Proof.
  intros Hactive Hrec Hthread.
  pose proof (play_chord_enhanced_active chord_notes velocity s Hactive)
    as Hpress.
  split; [done|]. unfold mbind at 1, M_bind at 1. rewrite Hpress.
  unfold run_thread, bind_to, mbind, M_bind, gets, modify. rewrite Hthread.
  simpl.
  set (s0 := set_threads (delete k (threads s)) s).
  assert (Hrec0 : recording_started s0) by done.
  pose proof (stop_after_delay_returns chord_notes s0 Hrec0) as Hok.
  assert (Hthreads : threads (stop_after_delay chord_notes s0).2 = threads s0).
  { apply (Preserves_for_each threads). intros note.
    unfold release_note, record_event, active_notes_discard, player_write.
    preserves. }
  destruct (stop_after_delay chord_notes s0) as [[[]|e] s'] eqn:Hrun;
    [|done].
  exists s'. split; [done|]. split; [|done].
  by eapply stop_after_delay_releases.
Qed.

End Sustain.

Lemma press_during_sustain_is_cut_witness :
  let s := run [Frame 1 [left_thumb_up] 1280; Frame 2 [left_fist] 1280]
               (initial 1280) in
  play_chord_enhanced [62; 66; 69] 91 s = (Ok (), s)
  ∧ ∃ s' : Piano,
      (play_chord_enhanced [62; 66; 69] 91;; run_thread 0) s = (Ok (), s')
      ∧ (∀ n, n ∈ [62; 66; 69] → n ∉ active_notes s')
      ∧ threads s' = delete 0%nat (threads s).
Proof.
  apply (press_during_sustain_is_cut [62; 66; 69] 91 0
           (run [Frame 1 [left_thumb_up] 1280; Frame 2 [left_fist] 1280]
                (initial 1280))).
  - assert (Hact : active_notes
                     (run [Frame 1 [left_thumb_up] 1280;
                           Frame 2 [left_fist] 1280] (initial 1280))
                   = {[62; 66; 69]}) by (vm_compute; reflexivity).
    rewrite Hact. clear Hact. set_solver.
  - intros Hrec. vm_compute in Hrec. discriminate Hrec.
  - vm_compute. reflexivity.
Defined.

Section Playback.

Context `{PyMath}.





End Playback.


(** The loop walks the live list: with the recording still on, what the
    release thread records while the playback runs is played back too.
    The chord is recorded, [p] starts the playback, which flushes and
    replays the three note-ons; the fist and the release thread then
    turn the notes off and record three note-offs, and the playback goes
    on to send these before its last flush. *)
Example playback_replays_later_entries :
  let s := run [KeyPress 0 114 1280; Frame 1 [left_thumb_up] 1280;
                KeyPress 2 112 1280; RunPlayback 3; RunPlayback 4;
                RunPlayback 5; RunPlayback 6; Frame 7 [left_fist] 1280;
                RunThread 8 0; RunPlayback 9; RunPlayback 10;
                RunPlayback 11; RunPlayback 12] (initial 1280) in
  (ev_action <$> recorded_notes s) = ["on"; "on"; "on"; "off"; "off"; "off"]
  ∧ playback_thread s = None
  ∧ drop 10 (midi_out s)
    = [NoteOff 62 127; NoteOff 66 127; NoteOff 69 127;
       NoteOff 62 0; NoteOff 66 0; NoteOff 69 0].
Proof. vm_compute. repeat split. Qed.

(** A recording started while the playback runs names a new list: the
    playback keeps the old one and plays it to its end. *)
Example playback_keeps_replaced_list :
  let s := run [KeyPress 0 114 1280; Frame 1 [left_thumb_up] 1280;
                KeyPress 2 114 1280; KeyPress 3 112 1280; RunPlayback 4;
                KeyPress 5 114 1280; RunPlayback 6; RunPlayback 7;
                RunPlayback 8; RunPlayback 9] (initial 1280) in
  recorded_notes s = [] ∧ recording s = true
  ∧ playback_thread s = None
  ∧ take 3 (drop 7 (midi_out s))
    = [NoteOn 62 91; NoteOn 66 91; NoteOn 69 91].
Proof. vm_compute. repeat split. Qed.

(** ** The choice of the MIDI device *)

Section Devices.

Context `{PyStr}.

Lemma output_devices_spec (device_infos : list DeviceInfo) :
  output_devices device_infos
  = omap (λ entry : Z * DeviceInfo,
            if device_is_output entry.2
            then Some (entry.1, device_name entry.2, device_opened entry.2)
            else None)
         (enumerate device_infos).
Proof.
  unfold output_devices.
  assert (Hloop : ∀ (entries : list (Z * DeviceInfo)) acc,
            foldl (λ midi_devices
                     '(i, (interface, name, is_input, is_output, opened)),
                     if is_output : bool
                     then midi_devices ++ [(i, name, opened)]
                     else midi_devices) acc entries
            = acc ++ omap (λ entry : Z * DeviceInfo,
                             if device_is_output entry.2
                             then Some (entry.1, device_name entry.2,
                                        device_opened entry.2)
                             else None) entries).
  { induction entries
      as [|[i [[[[interface name] is_input] is_output] opened]] entries IH];
      intros acc; simpl.
    - by rewrite app_nil_r.
    - rewrite IH. unfold device_is_output. simpl.
      destruct is_output; [|done]. by rewrite <- app_assoc. }
  apply Hloop.
Qed.

Lemma preferred_loop_spec (names : list string) (device_id : Z)
    (device_name : string) (best : Z * string) :
  preferred_loop names device_id device_name best
  = if existsb (λ preferred,
                  str_contains (str_lower preferred) (str_lower device_name))
               names
    then (device_id, device_name) else best.
Proof.
  induction names as [|preferred names IH]; simpl; [done|].
  by destruct (str_contains _ _).
Qed.

Lemma unopened_preferred_loop_spec (midi_devices : list (Z * string * bool)) :
  Forall (λ device, device.1.1 ≠ -1) midi_devices →
  unopened_preferred_loop midi_devices (-1, "None")
  = match list_find free_preferred_device midi_devices with
    | Some (_, device) => device.1
    | None => (-1, "None")
    end.
Proof.
  induction midi_devices as [|[[device_id name] opened] midi_devices IH];
    intros Hids; [done|].
  apply Forall_cons in Hids as [Hid Hids]. simpl in Hid.
  cbn [unopened_preferred_loop list_find].
  rewrite preferred_loop_spec. fold (is_preferred name).
  destruct (decide (free_preferred_device (device_id, name, opened)))
    as [[Hfree Hpref]|Hnot]; simpl in *.
  - subst opened. rewrite Hpref. simpl.
    by rewrite bool_decide_eq_true_2 by done.
  - assert (Hrest : unopened_preferred_loop midi_devices (-1, "None")
                    = match prod_map S id
                              <$> list_find free_preferred_device midi_devices
                      with
                      | Some (_, device) => device.1
                      | None => (-1, "None")
                      end).
    { rewrite IH by done.
      by destruct (list_find _ midi_devices) as [[? ?]|]. }
    destruct opened; simpl; [done|].
    destruct (is_preferred name) eqn:Hpref; simpl.
    + by destruct Hnot.
    + done.
Qed.

Lemma unopened_loop_spec (midi_devices : list (Z * string * bool))
    (best : Z * string) :
  unopened_loop midi_devices best
  = match list_find free_device midi_devices with
    | Some (_, device) => device.1
    | None => best
    end.
Proof.
  induction midi_devices as [|[[device_id name] opened] midi_devices IH];
    [done|].
  cbn [unopened_loop list_find].
  destruct (decide (free_device (device_id, name, opened))) as [Hfree|Hnot];
    unfold free_device in *; simpl in *.
  - by subst opened.
  - destruct opened; [|done]. simpl. rewrite IH.
    by destruct (list_find _ midi_devices) as [[? ?]|].
Qed.

(** The first element with a property in a list sorted by [R]. *)
Lemma list_find_first {A} (P : A → Prop) `{∀ x, Decision (P x)}
    (R : A → A → Prop) (l : list A) :
  StronglySorted R l →
  match list_find P l with
  | Some (_, c) => c ∈ l ∧ P c ∧ ∀ y, y ∈ l → P y → c = y ∨ R c y
  | None => ∀ y, y ∈ l → ¬ P y
  end.
Proof.
  induction l as [|x l IH]; intros Hsorted.
  - simpl. by intros y Hy%elem_of_nil.
  - apply StronglySorted_inv in Hsorted as [Hsorted Hx].
    specialize (IH Hsorted). cbn [list_find].
    destruct (decide (P x)) as [Hpx|Hnpx].
    + split; [left|split; [done|]].
      intros y [->|Hy]%elem_of_cons _; [by left|right].
      by eapply Forall_forall in Hx.
    + destruct (list_find P l) as [[k c]|]; simpl.
      * destruct IH as (Hc & Hpc & Hfirst).
        split; [by right|split; [done|]].
        intros y [->|Hy]%elem_of_cons Hpy; [done|by apply Hfirst].
      * by intros y [->|Hy]%elem_of_cons; [|apply IH].
Qed.

(** The entries of [midi_devices] are the output devices, in the order of
    their identifiers. *)
Lemma omap_imap_sorted {A B} (f : A → option B) (l : list A) (n : nat) :
  let entries :=
    omap (λ entry : Z * A, pair entry.1 <$> f entry.2)
         (imap (λ i x, (Z.of_nat (n + i), x)) l) in
  StronglySorted (λ a b : Z * B, a.1 < b.1) entries
  ∧ Forall (λ a, Z.of_nat n ≤ a.1) entries.
Proof.
  revert n. induction l as [|x l IH]; intros n; simpl.
  { split; constructor. }
  assert (Hext : imap ((λ i x, (Z.of_nat (n + i), x)) ∘ S) l
                 = imap (λ i x, (Z.of_nat (S n + i), x)) l).
  { apply imap_ext. intros i y _. simpl. f_equal. lia. }
  rewrite Hext. destruct (IH (S n)) as [Hsorted Hlow].
  destruct (f x) as [b|]; simpl.
  - split.
    + constructor; [done|].
      eapply Forall_impl; [exact Hlow|]. simpl. intros a Ha. lia.
    + constructor; [simpl; lia|].
      eapply Forall_impl; [exact Hlow|]. simpl. intros a Ha. lia.
  - split; [done|].
    eapply Forall_impl; [exact Hlow|]. simpl. intros a Ha. lia.
Qed.

Lemma output_devices_elem (device_infos : list DeviceInfo)
    (device : Z * string * bool) :
  device ∈ output_devices device_infos
  ↔ ∃ (i : nat) (info : DeviceInfo),
      device_infos !! i = Some info ∧ device_is_output info = true
      ∧ device = (Z.of_nat i, device_name info, device_opened info).
Proof.
  rewrite output_devices_spec, list_elem_of_omap. unfold enumerate. split.
  - intros ([id info] & Hin & Hdev). apply elem_of_lookup_imap in Hin.
    destruct Hin as (i & info' & [= -> ->] & Hinfo). simpl in Hdev.
    destruct (device_is_output info') eqn:Hout; [|done].
    injection Hdev as <-. by exists i, info'.
  - intros (i & info & Hinfo & Hout & ->).
    exists (Z.of_nat i, info). split.
    + apply elem_of_lookup_imap. by exists i, info.
    + simpl. by rewrite Hout.
Qed.

Lemma output_devices_sorted (device_infos : list DeviceInfo) :
  StronglySorted (λ a b : Z * string * bool, a.1.1 < b.1.1)
    (output_devices device_infos)
  ∧ Forall (λ a, 0 ≤ a.1.1) (output_devices device_infos).
Proof.
  rewrite output_devices_spec.
  pose proof (omap_imap_sorted
                (λ info : DeviceInfo,
                   if device_is_output info
                   then Some (device_name info, device_opened info)
                   else None) device_infos 0) as [Hsorted Hlow].
  simpl in Hsorted, Hlow. unfold enumerate.
  set (entries := imap (λ i x, (Z.of_nat i, x)) device_infos) in *.
  clearbody entries.
  assert (Hmap : omap (λ entry : Z * DeviceInfo,
                         if device_is_output entry.2
                         then Some (entry.1, device_name entry.2,
                                    device_opened entry.2)
                         else None) entries
                 = (λ a : Z * (string * bool), (a.1, a.2.1, a.2.2))
                   <$> omap (λ entry : Z * DeviceInfo,
                               pair entry.1
                               <$> (if device_is_output entry.2
                                    then Some (device_name entry.2,
                                               device_opened entry.2)
                                    else None)) entries).
  { clear. induction entries as [|[i info] entries IH]; [done|]. simpl.
    destruct (device_is_output info); simpl; [f_equal|]; exact IH. }
  rewrite Hmap. clear Hmap.
  set (l := omap _ entries) in *. clearbody l. split.
  - induction Hsorted as [|a l Hsorted IH Ha]; simpl; constructor.
    + by apply IH; eapply Forall_inv_tail.
    + apply Forall_fmap. eapply Forall_impl; [exact Ha|]. by intros b.
  - apply Forall_fmap. eapply Forall_impl; [exact Hlow|]. by intros b.
Qed.

(** What [setup_midi] computes, with the loops read as searches. *)
Lemma setup_midi_run (device_infos : list DeviceInfo) :
  setup_midi device_infos
  = match output_devices device_infos with
    | [] => None
    | first :: _ =>
        Some match list_find free_preferred_device
                     (output_devices device_infos) with
             | Some (_, device) => device.1
             | None =>
                 match list_find free_device (output_devices device_infos) with
                 | Some (_, device) => device.1
                 | None => first.1
                 end
             end
    end.
Proof.
  unfold setup_midi.
  destruct (output_devices_sorted device_infos) as [Hsorted Hlow].
  set (midi_devices := output_devices device_infos) in *.
  clearbody midi_devices.
  assert (Hids : Forall (λ device : Z * string * bool, device.1.1 ≠ -1)
                   midi_devices).
  { eapply Forall_impl; [exact Hlow|]. simpl. intros a Ha. lia. }
  destruct midi_devices as [|[[first_id first_name] first_opened] rest] eqn:Hl;
    [done|].
  rewrite <- Hl in *. rewrite bool_decide_eq_false_2 by (by rewrite Hl).
  rewrite unopened_preferred_loop_spec by done.
  pose proof (list_find_first free_preferred_device _ midi_devices Hsorted)
    as Hpreferred.
  destruct (list_find free_preferred_device midi_devices) as [[k c]|].
  { destruct Hpreferred as (Hc & _ & _).
    eapply Forall_forall in Hids; [|exact Hc].
    rewrite !(bool_decide_eq_false_2 (c.1.1 = -1)) by done. simpl.
    by rewrite ?(bool_decide_eq_false_2 (c.1.1 = -1)) by done. }
  cbn [fst]. rewrite !(bool_decide_eq_true_2 (-1 = -1)) by done.
  rewrite unopened_loop_spec.
  pose proof (list_find_first free_device _ midi_devices Hsorted) as Hfree.
  destruct (list_find free_device midi_devices) as [[k c]|].
  { destruct Hfree as (Hc & _ & _).
    eapply Forall_forall in Hids; [|exact Hc].
    rewrite !(bool_decide_eq_false_2 (c.1.1 = -1)) by done. simpl.
    by rewrite ?(bool_decide_eq_false_2 (c.1.1 = -1)) by done. }
  cbn [fst]. rewrite !(bool_decide_eq_true_2 (-1 = -1)) by done. simpl.
  rewrite Hl in Hids. apply Forall_inv in Hids. simpl in Hids.
  by rewrite bool_decide_eq_false_2 by done.
Qed.

(** The device chosen among sorted candidates, against any other one. *)
Lemma chosen_device (first : Z * string * bool)
    (rest : list (Z * string * bool)) :
  let midi_devices := first :: rest in
  StronglySorted (λ a b : Z * string * bool, a.1.1 < b.1.1) midi_devices →
  ∃ c : Z * string * bool,
    c ∈ midi_devices
    ∧ match list_find free_preferred_device midi_devices with
      | Some (_, device) => device.1
      | None =>
          match list_find free_device midi_devices with
          | Some (_, device) => device.1
          | None => first.1
          end
      end = c.1
    ∧ ∀ y, y ∈ midi_devices →
        (y.2 = false → c.2 = false)
        ∧ (y.2 = false → is_preferred y.1.2 = true →
           is_preferred c.1.2 = true ∧ c.1.1 ≤ y.1.1)
        ∧ (y.2 = false → is_preferred c.1.2 = false → c.1.1 ≤ y.1.1)
        ∧ (c.2 = true → c.1.1 ≤ y.1.1).
Proof.
  intros midi_devices Hsorted.
  pose proof (list_find_first free_preferred_device _ midi_devices Hsorted)
    as Hpreferred.
  pose proof (list_find_first free_device _ midi_devices Hsorted) as Hfree.
  assert (Hle : ∀ c y : Z * string * bool,
            c = y ∨ c.1.1 < y.1.1 → c.1.1 ≤ y.1.1).
  { intros c y [->|Hlt]; lia. }
  destruct (list_find free_preferred_device midi_devices) as [[k c]|].
  { destruct Hpreferred as (Hc & [Hcfree Hcpref] & Hfirst).
    exists c. split; [done|split; [done|]]. intros y Hy.
    split; [done|split; [|split]].
    - intros Hyfree Hypref. split; [done|]. by apply Hle, Hfirst.
    - congruence.
    - congruence. }
  destruct (list_find free_device midi_devices) as [[k c]|].
  { destruct Hfree as (Hc & Hcfree & Hfirst). unfold free_device in *.
    exists c. split; [done|split; [done|]]. intros y Hy.
    split; [done|split; [|split]].
    - intros Hyfree Hypref. by destruct (Hpreferred y Hy).
    - intros Hyfree _. by apply Hle, Hfirst.
    - congruence. }
  exists first. split; [by left|split; [done|]]. intros y Hy.
  unfold free_device in *.
  split; [|split; [|split]];
    try (by intros Hyfree; destruct (Hfree y Hy)).
  intros _. apply Hle. apply elem_of_cons in Hy as [->|Hy]; [by left|right].
  apply StronglySorted_inv in Hsorted as [_ Hfirst].
  by eapply Forall_forall in Hfirst.
Qed.

(** X15.  [setup_midi] never takes a device that is in use while a free one
    is there.  It leaves the process exactly when no device is an output.
    Otherwise the device it opens is an output device of the list, and
    against every other output device: it is not opened if the other is
    not; it has a preferred name, and does not come later in the list,
    if the other is not opened and has one; it does not come later than
    any device that is not opened, if it has no preferred name itself; and
    if it is opened it is the first output device. *)
Theorem setup_midi_prefers_free_devices (device_infos : list DeviceInfo) :
  (setup_midi device_infos = None
   ↔ Forall (λ info, device_is_output info = false) device_infos)
  ∧ ∀ (device_id : Z) (name : string),
      setup_midi device_infos = Some (device_id, name) →
      ∃ (i : nat) (info : DeviceInfo),
        device_id = Z.of_nat i ∧ device_infos !! i = Some info
        ∧ device_is_output info = true ∧ device_name info = name
        ∧ ∀ (j : nat) (other : DeviceInfo),
            device_infos !! j = Some other →
            device_is_output other = true →
            (device_opened other = false → device_opened info = false)
            ∧ (device_opened other = false →
               is_preferred (device_name other) = true →
               is_preferred (device_name info) = true ∧ (i ≤ j)%nat)
            ∧ (device_opened other = false →
               is_preferred (device_name info) = false → (i ≤ j)%nat)
            ∧ (device_opened info = true → (i ≤ j)%nat).
Proof.
  rewrite setup_midi_run.
  pose proof (output_devices_elem device_infos) as Helem.
  destruct (output_devices_sorted device_infos) as [Hsorted _].
  destruct (output_devices device_infos) as [|first rest] eqn:Houts.
  - split; [|done]. split; [|done]. intros _.
    apply Forall_forall. intros info Hinfo.
    apply list_elem_of_lookup in Hinfo as [i Hi].
    destruct (device_is_output info) eqn:Hout; [|done].
    assert (Hin : (Z.of_nat i, device_name info, device_opened info) ∈ [])
      by (apply Helem; by exists i, info).
    by apply elem_of_nil in Hin.
  - split.
    { split; [done|]. intros Hnone. exfalso.
      assert (Hfirst : first ∈ first :: rest) by left.
      apply Helem in Hfirst as (i & info & Hinfo & Hout & _).
      eapply Forall_forall in Hnone;
        [|by eapply list_elem_of_lookup_2]. congruence. }
    intros device_id name Hchosen. apply (inj Some) in Hchosen.
    destruct (chosen_device first rest Hsorted) as (c & Hc & Heq & Hother).
    cbv zeta in Heq. rewrite Heq in Hchosen.
    apply Helem in Hc as (i & info & Hinfo & Hout & ->).
    injection Hchosen as <- <-.
    exists i, info. do 4 (split; [done|]). intros j other Hj Hjout.
    assert (Hy : (Z.of_nat j, device_name other, device_opened other)
                 ∈ first :: rest) by (apply Helem; by exists j, other).
    destruct (Hother _ Hy) as (H1 & H2 & H3 & H4). simpl in *.
    split; [done|split; [|split]].
    + intros Hfree Hpref. destruct (H2 Hfree Hpref). split; [done|lia].
    + intros Hfree Hpref. specialize (H3 Hfree Hpref). lia.
    + intros Hopened. specialize (H4 Hopened). lia.
Qed.

End Devices.

Lemma setup_midi_prefers_free_devices_witness :
  let device_infos : list DeviceInfo :=
    [("ALSA", "Midi Through Port-0", false, true, true);
     ("ALSA", "USB Keyboard", true, false, false);
     ("ALSA", "Sampler", false, true, false);
     ("ALSA", "FLUID Synth (1234)", false, true, false)] in
  (∃ (i : nat) (info : DeviceInfo),
     3 = Z.of_nat i ∧ device_infos !! i = Some info
     ∧ device_is_output info = true
     ∧ device_name info = "FLUID Synth (1234)"
     ∧ ∀ (j : nat) (other : DeviceInfo),
         device_infos !! j = Some other →
         device_is_output other = true →
         (device_opened other = false → device_opened info = false)
         ∧ (device_opened other = false →
            is_preferred (device_name other) = true →
            is_preferred (device_name info) = true ∧ (i ≤ j)%nat)
         ∧ (device_opened other = false →
            is_preferred (device_name info) = false → (i ≤ j)%nat)
         ∧ (device_opened info = true → (i ≤ j)%nat))
  ∧ setup_midi [("ALSA", "USB Keyboard", true, false, false)] = None.
Proof.
  split.
  - apply (proj2 (setup_midi_prefers_free_devices
                    [("ALSA", "Midi Through Port-0", false, true, true);
                     ("ALSA", "USB Keyboard", true, false, false);
                     ("ALSA", "Sampler", false, true, false);
                     ("ALSA", "FLUID Synth (1234)", false, true, false)])
                 3 "FLUID Synth (1234)").
    vm_compute. reflexivity.
  - apply (setup_midi_prefers_free_devices
             [("ALSA", "USB Keyboard", true, false, false)]).
    by repeat constructor.
Defined.

(** ** The layout of the keys *)

(** The float expressions of the layout, on every size up to 4096 pixels:
    [int(width * 0.01)] is the hundredth of the width, [int(height * 0.3)]
    three tenths of the height and [int(key_width / 0.5)] twice the width
    of a key, all rounded down. *)
Lemma key_spacing_checked :
  forallb (λ n : nat,
             Binary64.int_scaled (Z.of_nat n) KEY_SPACING_RATIO
             =? Z.of_nat n / 100) (seq 0 4097) = true.
Proof. vm_compute. reflexivity. Qed.

Lemma ui_height_checked :
  forallb (λ n : nat, ui_height_of (Z.of_nat n) =? 3 * Z.of_nat n / 10)
          (seq 0 4097) = true.
Proof. vm_compute. reflexivity. Qed.

Lemma key_height_checked :
  forallb (λ n : nat,
             Binary64.to_int
               (PrimFloat.div (Binary64.of_int (Z.of_nat n)) KEY_ASPECT_RATIO)
             =? 2 * Z.of_nat n) (seq 0 513) = true.
Proof. vm_compute. reflexivity. Qed.

Lemma checked_up_to (f : nat → bool) (bound : nat) (z : Z) :
  forallb f (seq 0 (S bound)) = true → 0 ≤ z ≤ Z.of_nat bound →
  f (Z.to_nat z) = true.
Proof.
  intros Hchecked Hz. eapply forallb_forall; [exact Hchecked|].
  apply in_seq. lia.
Qed.

Lemma key_spacing_computed (width : Z) :
  0 ≤ width ≤ 4096 →
  Binary64.int_scaled width KEY_SPACING_RATIO = width / 100.
Proof.
  intros Hwidth.
  pose proof (checked_up_to _ 4096 width key_spacing_checked) as Hchecked.
  cbv beta in Hchecked. rewrite Z2Nat.id in Hchecked by lia.
  apply Z.eqb_eq, Hchecked. lia.
Qed.

Lemma ui_height_computed (height : Z) :
  0 ≤ height ≤ 4096 → ui_height_of height = 3 * height / 10.
Proof.
  intros Hheight.
  pose proof (checked_up_to _ 4096 height ui_height_checked) as Hchecked.
  cbv beta in Hchecked. rewrite Z2Nat.id in Hchecked by lia.
  apply Z.eqb_eq, Hchecked. lia.
Qed.

Lemma key_height_computed (key_width : Z) :
  0 ≤ key_width ≤ 512 →
  Binary64.to_int
    (PrimFloat.div (Binary64.of_int key_width) KEY_ASPECT_RATIO)
  = 2 * key_width.
Proof.
  intros Hwidth.
  pose proof (checked_up_to _ 512 key_width key_height_checked) as Hchecked.
  cbv beta in Hchecked. rewrite Z2Nat.id in Hchecked by lia.
  apply Z.eqb_eq, Hchecked. lia.
Qed.

Section Keys.

Context `{PyMath}.

Lemma filled_rectangles_app (img img' : list Drawing) :
  filled_rectangles (img ++ img')
  = filled_rectangles img ++ filled_rectangles img'.
Proof. unfold filled_rectangles. apply omap_app. Qed.

Lemma draw_key_run (hand_type label : string) (offset : Z)
    (chords : gmap string (gmap string (list Z)))
    (start_x key_y key_width key_height key_spacing : Z)
    (img : list Drawing) (i : Z) (finger : string) (s : Piano) :
  chords ∈ [D_Major; C_Major; Pentatonic] →
  hand_type ∈ ["left"; "right"] → finger ∈ finger_names →
  ∃ img',
    draw_key hand_type label offset chords start_x key_y key_width key_height
      key_spacing img (i, finger) s = (Ok img', s)
    ∧ filled_rectangles img'
      = filled_rectangles img
        ++ [key_box (active_keys s) hand_type offset start_x key_y key_width
              key_height key_spacing (i, finger)].
Proof.
  intros Htable Hhand Hfinger.
  destruct (table_finger_chord chords hand_type finger Htable Hhand Hfinger)
    as (hand_chords & chord & Hchords & Hchord).
  destruct (get_chord_name_total chord) as [name Hname].
  unfold draw_key, bind_to, mbind, M_bind, gets, lift, dict_getitem.
  rewrite Hchords, Hchord, Hname. eexists. split; [reflexivity|].
  rewrite !filled_rectangles_app. simpl. by rewrite app_nil_r.
Qed.

Lemma draw_keys_run (hand_type label : string) (offset : Z)
    (chords : gmap string (gmap string (list Z)))
    (start_x key_y key_width key_height key_spacing : Z)
    (entries : list (Z * string)) (img : list Drawing) (s : Piano) :
  chords ∈ [D_Major; C_Major; Pentatonic] →
  hand_type ∈ ["left"; "right"] →
  Forall (λ entry, entry.2 ∈ finger_names) entries →
  ∃ img',
    for_fold entries img
      (draw_key hand_type label offset chords start_x key_y key_width
         key_height key_spacing) s = (Ok img', s)
    ∧ filled_rectangles img'
      = filled_rectangles img
        ++ (key_box (active_keys s) hand_type offset start_x key_y key_width
              key_height key_spacing <$> entries).
Proof.
  intros Htable Hhand. revert img.
  induction entries as [|[i finger] entries IH]; intros img Hentries.
  - exists img. split; [done|]. simpl. by rewrite app_nil_r.
  - apply Forall_cons in Hentries as [Hfinger Hentries].
    destruct (draw_key_run hand_type label offset chords start_x key_y
                key_width key_height key_spacing img i finger s Htable Hhand
                Hfinger) as (img1 & Hrun1 & Hfilled1).
    destruct (IH img1 Hentries) as (img2 & Hrun2 & Hfilled2).
    exists img2. split.
    + cbn [for_fold]. unfold bind_to, mbind, M_bind. by rewrite Hrun1.
    + rewrite Hfilled2, Hfilled1, <- app_assoc. done.
Qed.

Lemma set_key_width_if (c : bool) (v a : Z) (display : Display) :
  (if c then set_key_width v (set_key_width a display)
   else set_key_width a display)
  = set_key_width (if c then v else a) display.
Proof. by destruct c. Qed.

Lemma set_key_height_if (c : bool) (v a : Z) (display : Display) :
  (if c then set_key_height v (set_key_height a display)
   else set_key_height a display)
  = set_key_height (if c then v else a) display.
Proof. by destruct c. Qed.

(** What [draw_piano_keys_enhanced] assigns and draws, with the sizes in
    integers. *)
Lemma draw_piano_keys_enhanced_run (img : list Drawing) (display : Display)
    (s : Piano) :
  current_scale s ∈ scales.*1 → 0 ≤ screen_width s ≤ 4096 →
  let width := screen_width s in
  let key_spacing := width / 100 in
  let wide := Z.max 50 ((width - 11 * key_spacing) / 10) in
  let high := Z.min (2 * wide) (ui_height display - 30) in
  let key_y :=
    screen_height display - ui_height display
    + (ui_height display - high) / 2 in
  let start_x := Z.max 0 ((width - (10 * wide + 9 * key_spacing)) / 2) in
  ∃ img',
    draw_piano_keys_enhanced img display s
    = (Ok img', (set_key_height high (set_key_width wide display), s))
    ∧ filled_rectangles img'
      = filled_rectangles img
        ++ imap (λ i key_name,
                   let x := start_x + Z.of_nat i * (wide + key_spacing) in
                   ((x, key_y), (x + wide, key_y + high),
                    if bool_decide (key_name ∈ active_keys s)
                    then colors.active_key else colors.inactive_key))
                key_names.
Proof.
  intros Hscale Hwidth width key_spacing wide high key_y start_x.
  destruct (valid_scale_chords _ Hscale) as (chords & Hchords & Htable).
  assert (Hfingers : Forall (λ entry : Z * string, entry.2 ∈ finger_names)
                       (enumerate finger_names)).
  { unfold finger_names. simpl. repeat constructor; simpl; set_solver. }
  destruct (draw_keys_run "left" "L" 0 chords start_x key_y wide high
              key_spacing (enumerate finger_names) img s Htable)
    as (img1 & Hrun1 & Hfilled1); [set_solver|done|].
  destruct (draw_keys_run "right" "R" 5 chords start_x key_y wide high
              key_spacing (enumerate finger_names) img1 s Htable)
    as (img2 & Hrun2 & Hfilled2); [set_solver|done|].
  exists img2. split.
  - unfold draw_piano_keys_enhanced. cbv zeta. fold width.
    rewrite key_spacing_computed by done. fold key_spacing.
    rewrite set_key_width_if.
    cbn [key_width key_height ui_height screen_height set_key_width
         set_key_height].
    assert (Hwide : (if (width - (10 + 1) * key_spacing) / 10 <? MIN_KEY_WIDTH
                     then MIN_KEY_WIDTH
                     else (width - (10 + 1) * key_spacing) / 10) = wide).
    { unfold wide, MIN_KEY_WIDTH.
      change (10 + 1) with 11.
      destruct (Z.ltb_spec ((width - 11 * key_spacing) / 10) 50); lia. }
    rewrite !Hwide.
    rewrite key_height_computed
      by (unfold wide, key_spacing; clear -Hwidth; fold width in Hwidth;
          clearbody width; Z.div_mod_to_equations; lia).
    match goal with
    | |- context [set_key_width wide display] =>
        fold (set_key_width wide display)
    | _ => idtac
    end.
    rewrite set_key_height_if.
    cbn [key_width key_height ui_height screen_height set_key_width
         set_key_height].
    assert (Hhigh : (if ui_height display - UI_KEY_VERTICAL_PADDING
                        <? 2 * wide
                     then ui_height display - UI_KEY_VERTICAL_PADDING
                     else 2 * wide) = high).
    { unfold high, UI_KEY_VERTICAL_PADDING.
      destruct (Z.ltb_spec (ui_height display - 30) (2 * wide)); lia. }
    rewrite !Hhigh. fold key_y.
    assert (Hsx : (if (width - (10 * wide + (10 - 1) * key_spacing)) / 2 <? 0
                   then 0
                   else (width - (10 * wide + (10 - 1) * key_spacing)) / 2)
                  = start_x).
    { unfold start_x. change (10 - 1) with 9.
      destruct (Z.ltb_spec
                  ((width - (10 * wide + 9 * key_spacing)) / 2) 0); lia. }
    rewrite !Hsx.
    unfold get_current_chords, bind_to, mbind, M_bind, gets, lift.
    rewrite Hchords. by rewrite Hrun1, Hrun2.
  - rewrite Hfilled2, Hfilled1, <- app_assoc. by f_equal.
Qed.

(** X16.  The ten keys are drawn side by side, and fit a frame from 545
    pixels of width on.  On a frame of a width up to 4096 pixels, with a
    scale of the table, [draw_piano_keys_enhanced] returns; it assigns
    [self.key_width], at least 50, and [self.key_height], and leaves
    every other attribute as it is; it fills ten rectangles, in the order
    of the keys from "left_thumb" to "right_pinky", all [key_width] wide
    and [key_height] high, the first at [start_x], not left of the frame,
    each a hundredth of the width of the frame after the one before; the
    rectangle of a key has the colour of an active key exactly when its
    name is in [active_keys].  The right edge of the last key is inside
    the frame if and only if the frame is at least 545 wide. *)
Theorem piano_keys_fit_wide_frames (img : list Drawing) (display : Display)
    (s : Piano) :
  current_scale s ∈ scales.*1 → 0 ≤ screen_width s ≤ 4096 →
  ∃ (img' : list Drawing) (display' : Display) (start_x key_y : Z),
    draw_piano_keys_enhanced img display s = (Ok img', (display', s))
    ∧ screen_height display' = screen_height display
    ∧ ui_height display' = ui_height display
    ∧ filled_rectangles img'
      = filled_rectangles img
        ++ imap (λ i key_name,
                   let x := start_x
                            + Z.of_nat i
                              * (key_width display' + screen_width s / 100) in
                   ((x, key_y),
                    (x + key_width display', key_y + key_height display'),
                    if bool_decide (key_name ∈ active_keys s)
                    then colors.active_key else colors.inactive_key))
                key_names
    ∧ 0 ≤ start_x ∧ 50 ≤ key_width display'
    ∧ (start_x + 9 * (key_width display' + screen_width s / 100)
       + key_width display' ≤ screen_width s
       ↔ 545 ≤ screen_width s).
Proof.
  intros Hscale Hwidth.
  destruct (draw_piano_keys_enhanced_run img display s Hscale Hwidth)
    as (img' & Hrun & Hfilled).
  cbv zeta in Hfilled, Hrun.
  set (width := screen_width s) in *.
  set (key_spacing := width / 100) in *.
  set (wide := Z.max 50 ((width - 11 * key_spacing) / 10)) in *.
  set (start_x := Z.max 0 ((width - (10 * wide + 9 * key_spacing)) / 2))
    in *.
  eexists img', _, start_x, _.
  split; [exact Hrun|]. split; [done|]. split; [done|].
  split; [exact Hfilled|]. cbn [key_width set_key_width set_key_height].
  split; [unfold start_x; lia|]. split; [unfold wide; lia|].
  unfold start_x, wide, key_spacing. clearbody width.
  clear. Z.div_mod_to_equations. lia.
Qed.

(** X17.  The keys stand inside the panel of a frame that is at least 100
    pixels high, and are turned over on a lower one.  With the height of
    the panel that [draw_enhanced_ui] sets, on a frame of a height and a
    width up to 4096 pixels, every key rectangle that
    [draw_piano_keys_enhanced] fills has its top at least 15 pixels under
    the top of the panel and its bottom at least 15 pixels above the
    bottom of the frame when the frame is 100 high or more; when it is
    lower, the bottom of every key lies above its top.  The method
    changes no attribute of the instance but [key_width] and
    [key_height]. *)
Theorem piano_keys_stay_in_the_panel (height wide high : Z)
    (img : list Drawing) (s : Piano) :
  current_scale s ∈ scales.*1 → 0 ≤ screen_width s ≤ 4096 →
  0 ≤ height ≤ 4096 →
  let display :=
    {| screen_height := height; ui_height := ui_height_of height;
       key_width := wide; key_height := high |} in
  ∃ (img' : list Drawing) (display' : Display)
    (keys : list ((Z * Z) * (Z * Z) * (Z * Z * Z))),
    draw_piano_keys_enhanced img display s = (Ok img', (display', s))
    ∧ screen_height display' = height
    ∧ ui_height display' = ui_height_of height
    ∧ filled_rectangles img' = filled_rectangles img ++ keys
    ∧ length keys = 10%nat
    ∧ Forall (λ key,
                let top := key.1.1.2 in
                let bottom := key.1.2.2 in
                (100 ≤ height →
                 height - ui_height_of height + 15 ≤ top
                 ∧ top ≤ bottom ∧ bottom ≤ height - 15)
                ∧ (height < 100 → bottom < top)) keys.
Proof.
  intros Hscale Hwidth Hheight display.
  destruct (draw_piano_keys_enhanced_run img display s Hscale Hwidth)
    as (img' & Hrun & Hfilled).
  cbv zeta in Hfilled, Hrun. eexists img', _, _.
  split; [exact Hrun|]. split; [done|]. split; [done|].
  split; [exact Hfilled|]. split; [done|].
  apply Forall_forall. intros key Hkey.
  apply elem_of_lookup_imap in Hkey as (i & key_name & -> & _).
  cbn [fst snd display ui_height screen_height].
  rewrite ui_height_computed by done.
  set (key_wide := Z.max 50 _).
  assert (Hkey_wide : 50 ≤ key_wide) by lia.
  clearbody key_wide. clear -Hheight Hkey_wide.
  split; intros; Z.div_mod_to_equations; lia.
Qed.

End Keys.

Lemma piano_keys_fit_wide_frames_witness :
  let display :=
    {| screen_height := 480; ui_height := 144; key_width := 0;
       key_height := 0 |} in
  ∃ (img' : list Drawing) (display' : Display) (start_x key_y : Z),
    draw_piano_keys_enhanced [] display (initial 640)
    = (Ok img', (display', initial 640))
    ∧ screen_height display' = screen_height display
    ∧ ui_height display' = ui_height display
    ∧ filled_rectangles img'
      = filled_rectangles []
        ++ imap (λ i key_name,
                   let x := start_x
                            + Z.of_nat i
                              * (key_width display'
                                 + screen_width (initial 640) / 100) in
                   ((x, key_y),
                    (x + key_width display', key_y + key_height display'),
                    if bool_decide (key_name ∈ active_keys (initial 640))
                    then colors.active_key else colors.inactive_key))
                key_names
    ∧ 0 ≤ start_x ∧ 50 ≤ key_width display'
    ∧ (start_x + 9 * (key_width display' + screen_width (initial 640) / 100)
       + key_width display' ≤ screen_width (initial 640)
       ↔ 545 ≤ screen_width (initial 640)).
Proof.
  apply (piano_keys_fit_wide_frames []
           {| screen_height := 480; ui_height := 144; key_width := 0;
              key_height := 0 |} (initial 640)).
  - simpl. set_solver.
  - simpl. lia.
Defined.

Lemma piano_keys_stay_in_the_panel_witness :
  let display :=
    {| screen_height := 480; ui_height := ui_height_of 480; key_width := 0;
       key_height := 0 |} in
  ∃ (img' : list Drawing) (display' : Display)
    (keys : list ((Z * Z) * (Z * Z) * (Z * Z * Z))),
    draw_piano_keys_enhanced [] display (initial 640)
    = (Ok img', (display', initial 640))
    ∧ screen_height display' = 480
    ∧ ui_height display' = ui_height_of 480
    ∧ filled_rectangles img' = filled_rectangles [] ++ keys
    ∧ length keys = 10%nat
    ∧ Forall (λ key,
                let top := key.1.1.2 in
                let bottom := key.1.2.2 in
                (100 ≤ 480 →
                 480 - ui_height_of 480 + 15 ≤ top
                 ∧ top ≤ bottom ∧ bottom ≤ 480 - 15)
                ∧ (480 < 100 → bottom < top)) keys.
Proof.
  apply (piano_keys_stay_in_the_panel 480 0 0 [] (initial 640)).
  - simpl. set_solver.
  - simpl. lia.
  - lia.
Defined.
